(** * pdoom: the Markov-chain propagation engine of [src/models.ts]

    A shallow embedding of the TypeScript module [models.ts] and the
    properties its specification states about it.

    - JavaScript [number]s are abstracted by the class [Number]: the code
      is written once over its operations and read at two instances,
      [R] (exact arithmetic, the reading in which the algebraic laws
      hold) and IEEE 754 binary64 ([PrimFloat], the arithmetic the
      program runs on).  [Math.exp] and [**] are read at [R] only.
    - Years are integers ([Z]) and step counts are natural numbers.
    - A JavaScript [Map] is an association list in insertion order whose
      keys are pairwise distinct: [Map_set] overwrites in place or
      appends, as [Map.prototype.set] does.
    - Code that throws returns [None]. *)

From Stdlib Require Import List ZArith Lia Bool.
From Stdlib Require Import Reals Lra.
From Stdlib Require Import Floats.
Import ListNotations.

Set Implicit Arguments.

(** ** Numbers *)

(** The operations of [number] the module uses.  [neg x] is [-x],
    [or_zero x] is the expression [x || 0], [of_Z] reads an integer. *)
Class Number (N : Type) : Type := {
  zero : N;
  one : N;
  add : N -> N -> N;
  sub : N -> N -> N;
  mul : N -> N -> N;
  div : N -> N -> N;
  neg : N -> N;
  or_zero : N -> N;
  of_Z : Z -> N
}.

(** A decimal literal [m * 10^-k], such as [0.05 = dec 5 2].  At binary64
    the quotient of two exactly represented integers is the correctly
    rounded value of the literal. *)
Definition dec {N} `{Number N} (m : Z) (k : nat) : N :=
  div (of_Z m) (of_Z (10 ^ Z.of_nat k)).

(** Exact arithmetic.  Every real [x] satisfies [x || 0 = x]. *)
#[export] Instance Rnum : Number R := {|
  zero := 0%R;
  one := 1%R;
  add := Rplus;
  sub := Rminus;
  mul := Rmult;
  div := Rdiv;
  neg := Ropp;
  or_zero := fun x => x;
  of_Z := IZR
|}.

(** [x || 0] at binary64: [NaN], [+0] and [-0] are falsy. *)
Definition float_or_zero (x : float) : float :=
  if PrimFloat.is_nan x || PrimFloat.is_zero x then 0%float else x.

(** An integer literal; exact below [2^53], which covers the literals of
    the module. *)
Definition float_of_Z (z : Z) : float :=
  match z with
  | Z0 => 0%float
  | Zpos _ => PrimFloat.of_uint63 (Uint63.of_Z z)
  | Zneg p => PrimFloat.opp (PrimFloat.of_uint63 (Uint63.of_Z (Zpos p)))
  end.

(** IEEE 754 binary64, the arithmetic of JavaScript. *)
#[export] Instance Fnum : Number float := {|
  zero := 0%float;
  one := 1%float;
  add := PrimFloat.add;
  sub := PrimFloat.sub;
  mul := PrimFloat.mul;
  div := PrimFloat.div;
  neg := PrimFloat.opp;
  or_zero := float_or_zero;
  of_Z := float_of_Z
|}.

(** The host functions used by the domain model: [Math.exp], the operator
    [**] (the same function as [Math.pow]) and [Math.min].  They are read
    at exact arithmetic only: ECMAScript leaves the binary64 results of
    [Math.exp] and [**] to the implementation. *)
Class MathLib (N : Type) : Type := {
  Math_exp : N -> N;
  Math_pow : N -> N -> N;
  Math_min : N -> N -> N
}.

#[export] Instance Rmath : MathLib R := {|
  Math_exp := exp;
  Math_pow := Rpower;
  Math_min := Rmin
|}.

(** [values.reduce((a, b) => a + b, 0)] *)
Definition sum {N} {num : Number N} (l : list N) : N := fold_left add l zero.

(** ** Keys and maps *)

(** Key comparison of [Map] (SameValueZero), which on the keys used here
    is equality. *)
Class Key (K : Type) : Type := {
  key_eqb : K -> K -> bool;
  key_eqb_spec : forall x y, key_eqb x y = true <-> x = y
}.

(** A [Map<K, V>]: its entries in insertion order. *)
Definition JSMap (K V : Type) : Type := list (K * V).

Section JSMap.
Context {K V : Type} {key : Key K}.

(** [m.get(k)] *)
Fixpoint Map_get (k : K) (m : JSMap K V) : option V :=
  match m with
  | [] => None
  | (k', v) :: m' => if key_eqb k k' then Some v else Map_get k m'
  end.

(** [m.set(k, v)]: an existing key keeps its position. *)
Fixpoint Map_set (k : K) (v : V) (m : JSMap K V) : JSMap K V :=
  match m with
  | [] => [(k, v)]
  | (k', v') :: m' =>
      if key_eqb k k' then (k', v) :: m' else (k', v') :: Map_set k v m'
  end.

(** [new Map(entries)] *)
Definition Map_new (entries : list (K * V)) : JSMap K V :=
  fold_left (fun m kv => Map_set (fst kv) (snd kv) m) entries [].

End JSMap.

(** [m.keys()] and [m.values()] *)
Definition keys {K V} (m : JSMap K V) : list K := map fst m.
Definition values {K V} (m : JSMap K V) : list V := map snd m.

(** The total mass of a distribution. *)
Definition total {K N} {num : Number N} (m : JSMap K N) : N := sum (values m).

(** ** The engine: [step], [extrapolate], [mix], [mixHistories] *)

Section Engine.
Context {N : Type} {num : Number N} {T : Type} {key : Key T}.

Definition Ensemble : Type := JSMap T N.
Definition History : Type := list Ensemble.
Definition TransitionFunction : Type := T -> Ensemble.

(** [result.get(k) || 0] *)
Definition get_or_zero (k : T) (result : Ensemble) : N :=
  match Map_get k result with
  | Some v => or_zero v
  | None => zero
  end.

(** The body shared by the inner loops of [step] and [mix]:
    [result.set(k, (result.get(k) || 0) + x)]. *)
Definition accumulate (result : Ensemble) (k : T) (x : N) : Ensemble :=
  let currentProbability := get_or_zero k result in
  Map_set k (add currentProbability x) result.

Definition step (ensemble : Ensemble) (transition : TransitionFunction)
  : Ensemble :=
  fold_left
    (fun result cp =>
       let '(cur, probability) := cp in
       fold_left
         (fun result np =>
            let '(next, nextProbability) := np in
            let totalProbability := mul probability nextProbability in
            accumulate result next totalProbability)
         (transition cur) result)
    ensemble [].

(** The [for] loop of [extrapolate], with [k] iterations left. *)
Fixpoint extrapolate_loop (transition : TransitionFunction) (k : nat)
  (current : Ensemble) (result : History) : History :=
  match k with
  | O => result
  | S k' =>
      extrapolate_loop transition k' (step current transition)
        (result ++ [current])
  end.

Definition extrapolate (start : T) (transition : TransitionFunction)
  (nSteps : nat) : History :=
  extrapolate_loop transition nSteps (Map_new [(start, one)]) [].

(** [ensembles.reduce((acc, [_, weight]) => acc + weight, 0)] *)
Definition mix_totalWeight (ensembles : list (Ensemble * N)) : N :=
  fold_left (fun acc ew => add acc (snd ew)) ensembles zero.

Definition mix (ensembles : list (Ensemble * N)) : Ensemble :=
  let totalWeight := mix_totalWeight ensembles in
  fold_left
    (fun result ew =>
       let '(ensemble, weight) := ew in
       fold_left
         (fun result vp =>
            let '(value, probability) := vp in
            accumulate result value (div (mul probability weight) totalWeight))
         ensemble result)
    ensembles [].

(** [histories.map(([history, weight]) => [history[i], weight])], handed
    to [mix]: an index past the end of a history yields [undefined], on
    which [mix] throws. *)
Fixpoint at_index (i : nat) (histories : list (History * N))
  : option (list (Ensemble * N)) :=
  match histories with
  | [] => Some []
  | (history, weight) :: rest =>
      match nth_error history i, at_index i rest with
      | Some e, Some es => Some ((e, weight) :: es)
      | _, _ => None
      end
  end.

(** The [for] loop of [mixHistories] over the remaining indices. *)
Fixpoint mixHistories_loop (histories : list (History * N))
  (indices : list nat) (result : History) : option History :=
  match indices with
  | [] => Some result
  | i :: rest =>
      match at_index i histories with
      | Some ensembles =>
          mixHistories_loop histories rest (result ++ [mix ensembles])
      | None => None
      end
  end.

(** [histories[0][0].length] throws on an empty array. *)
Definition mixHistories (histories : list (History * N)) : option History :=
  match histories with
  | [] => None
  | (first, _) :: _ =>
      mixHistories_loop histories (seq 0 (length first)) []
  end.

Definition extrapolateAndMix (start : T)
  (models : JSMap TransitionFunction N) (nSteps : nat) : option History :=
  let histories :=
    map (fun mw => (extrapolate start (fst mw) nSteps, snd mw)) models in
  mixHistories histories.

End Engine.

(** [normalize]: the entries of a [Map] have distinct keys, so the [Map]
    built from them with rescaled values keeps every entry in its place
    (see [Map_new_distinct]). *)
Definition normalize {K N} {num : Number N} (ensemble : JSMap K N)
  : JSMap K N :=
  let total := sum (values ensemble) in
  map (fun kv => (fst kv, div (snd kv) total)) ensemble.

(** ** Odds records *)

(** An object literal with numeric fields; [Object_values] lists the
    fields in declaration order.  A key of the object is a projection. *)
Class OddsRecord (N O : Type) : Type := {
  Object_values : O -> list N
}.

Definition pFromOdds {N O} {num : Number N} {rec : OddsRecord N O}
  (odds : O) (key : O -> N) : N :=
  div (key odds) (sum (Object_values odds)).

Record AGIOdds (N : Type) : Type := {
  agi_heaven : N;
  agi_dead : N;
  agi_reset : N
}.

Record HazardOdds (N : Type) : Type := {
  hz_dead : N;
  hz_reset : N
}.

#[export] Instance AGIOdds_values {N} : OddsRecord N (AGIOdds N) := {|
  Object_values := fun o => [agi_heaven o; agi_dead o; agi_reset o]
|}.

#[export] Instance HazardOdds_values {N} : OddsRecord N (HazardOdds N) := {|
  Object_values := fun o => [hz_dead o; hz_reset o]
|}.

(** The value [{ p, odds }] a sub-model returns for a year. *)
Record Risk (N O : Type) : Type := {
  p : N;
  odds : O
}.

(** ** The domain model *)

Definition Year : Type := Z.

Bind Scope Z_scope with Year.

Inductive World : Type :=
| year (y : Year)
| dead
| heaven
| reset.

Definition World_eqb (a b : World) : bool :=
  match a, b with
  | year x, year y => Z.eqb x y
  | dead, dead | heaven, heaven | reset, reset => true
  | _, _ => false
  end.

Lemma World_eqb_spec (a b : World) : World_eqb a b = true <-> a = b.
Proof.
  destruct a, b; simpl; split; intro E;
    try reflexivity; try discriminate.
  - apply Z.eqb_eq in E. now subst.
  - injection E as ->. apply Z.eqb_refl.
Qed.

#[export] Instance World_key : Key World := {|
  key_eqb := World_eqb;
  key_eqb_spec := World_eqb_spec
|}.

Section Domain.
Context {N : Type} {num : Number N}.

Definition SimpleAGIModel : Type := Year -> Risk N (AGIOdds N).
Definition SimpleNukeModel : Type := Year -> Risk N (HazardOdds N).
Definition SimplePlagueModel : Type := Year -> Risk N (HazardOdds N).

Definition simpleTransitionFunction (agi : SimpleAGIModel)
  (nukes : SimpleNukeModel) (plague : SimplePlagueModel)
  : TransitionFunction (N := N) (T := World) :=
  fun world =>
    match world with
    | year y =>
        let agi := agi y in
        let nukes := nukes y in
        let plague := plague y in
        let pHeaven := mul (p agi) (pFromOdds (odds agi) (@agi_heaven N)) in
        let pDead :=
          add (add (mul (p agi) (pFromOdds (odds agi) (@agi_dead N)))
                   (mul (p nukes) (pFromOdds (odds nukes) (@hz_dead N))))
              (mul (p plague) (pFromOdds (odds plague) (@hz_dead N))) in
        let pReset :=
          add (add (mul (p agi) (pFromOdds (odds agi) (@agi_reset N)))
                   (mul (p nukes) (pFromOdds (odds nukes) (@hz_reset N))))
              (mul (p plague) (pFromOdds (odds plague) (@hz_reset N))) in
        Map_new [(heaven, pHeaven);
                 (dead, pDead);
                 (reset, pReset);
                 (year (y + 1), sub (sub (sub one pHeaven) pDead) pReset)]
    | _ => Map_new [(world, one)]
    end.

Context {math : MathLib N}.

Definition stdSigmoid (x : N) : N := div one (add one (Math_exp (neg x))).

(** [(year - a) / b] *)
Definition since (y : Year) (a b : Z) : N :=
  div (sub (of_Z y) (of_Z a)) (of_Z b).

(** [Math.min(1, acceleration * rate * 2 ** ((year - 2022) / doubling))] *)
Definition hazard (acceleration rate : N) (doubling : Z) (y : Year) : N :=
  Math_min one
    (mul (mul acceleration rate) (Math_pow (of_Z 2) (since y 2022 doubling))).

Definition accelerationFromWorking (work : bool) : N :=
  add one (if work then dec 1 7 else zero).

(** The sub-models are the arrow functions written in the [Map] literals
    of [buildModels]; each is named here after the comment above it.  The
    first: "Eliezer is right; we're doomed". *)
Definition agiDoomed (acc : N) : SimpleAGIModel :=
  fun y =>
    {| p := hazard acc (dec 5 2) 10 y;
       odds := {| agi_heaven := stdSigmoid (since y 2080 20);
                  agi_dead := sub one (stdSigmoid (since y 2080 20));
                  agi_reset := zero |} |}.

(** "Paul Christiano is right: chance of death from AGI is ~20%." *)
Definition agiChristiano (acc : N) : SimpleAGIModel :=
  fun y =>
    {| p := hazard acc (dec 2 2) 10 y;
       odds := {| agi_heaven := stdSigmoid (since y 2030 10);
                  agi_dead :=
                    div (mul (sub one (stdSigmoid (since y 2030 10)))
                             (of_Z 2)) (of_Z 3);
                  agi_reset :=
                    div (mul (sub one (stdSigmoid (since y 2030 10)))
                             (of_Z 1)) (of_Z 3) |} |}.

(** "AGI is hard, but coming." *)
Definition agiHard (acc : N) : SimpleAGIModel :=
  fun y =>
    {| p := hazard acc (dec 3 2) 10 y;
       odds := {| agi_heaven := stdSigmoid (since y 2080 20);
                  agi_dead :=
                    div (sub one (stdSigmoid (since y 2080 20))) (of_Z 2);
                  agi_reset :=
                    div (sub one (stdSigmoid (since y 2080 20))) (of_Z 2)
               |} |}.

(** "AGI is way harder than I think." *)
Definition agiWayHarder (acc : N) : SimpleAGIModel :=
  fun y =>
    {| p := hazard acc (dec 1 3) 30 y;
       odds := {| agi_heaven := stdSigmoid (since y 2080 20);
                  agi_dead := zero;
                  agi_reset := zero |} |}.

Definition nukesModel : SimpleNukeModel :=
  fun _ =>
    {| p := dec 1 2;
       odds := {| hz_dead := dec 1 1; hz_reset := dec 9 1 |} |}.

Definition plagueModel : SimplePlagueModel :=
  fun _ =>
    {| p := dec 5 3;
       odds := {| hz_dead := dec 1 1; hz_reset := dec 9 1 |} |}.

Definition plagueNever : SimplePlagueModel :=
  fun _ =>
    {| p := zero;
       odds := {| hz_dead := zero; hz_reset := one |} |}.

(** The entries of the three [Map] literals: sub-model and prior weight,
    in source order. *)
Definition agiEntries (work : bool) : JSMap SimpleAGIModel N :=
  let acc := accelerationFromWorking work in
  [ (agiDoomed acc, one);
    (agiChristiano acc, one);
    (agiHard acc, one);
    (agiWayHarder acc, dec 2 1) ].

Definition nukesEntries : JSMap SimpleNukeModel N :=
  [ (nukesModel, one) ].

Definition plagueEntries : JSMap SimplePlagueModel N :=
  [ (plagueModel, one); (plagueNever, one) ].

(** [buildModels].  The keys of its maps are function objects, each a
    closure of its own, so every [new Map] keeps all the entries it is
    given. *)
Definition buildModels (work : bool)
  : JSMap (TransitionFunction (N := N) (T := World)) N :=
  let agiModels := normalize (agiEntries work) in
  let nukesModels := normalize nukesEntries in
  let plagueModels := normalize plagueEntries in
  normalize
    (flat_map
       (fun a =>
          flat_map
            (fun n =>
               map
                 (fun pl =>
                    (simpleTransitionFunction (fst a) (fst n) (fst pl),
                     mul (mul (snd a) (snd n)) (snd pl)))
                 plagueModels)
            nukesModels)
       agiModels).

End Domain.

(** * Notions used in the statements *)

Section Iterates.
Context {N : Type} {num : Number N} {T : Type} {key : Key T}.

(** [i] applications of [step] with the transition function [f]. *)
Definition steps (f : TransitionFunction (N := N) (T := T)) (i : nat)
  (d : Ensemble) : Ensemble :=
  Nat.iter i (fun d => step d f) d.

(** The distributions mixed at index [i]: what every model of the
    ensemble reaches after [i] steps, with the model's weight. *)
Definition reached (start : T)
  (models : JSMap (TransitionFunction (N := N) (T := T)) N) (i : nat)
  : list (Ensemble * N) :=
  map (fun mw => (steps (fst mw) i [(start, one)], snd mw)) models.

End Iterates.

Section Totals.
Context {N : Type} {num : Number N}.
Variables (agi : SimpleAGIModel (N := N)) (nukes : SimpleNukeModel (N := N))
  (plague : SimplePlagueModel (N := N)).

(** The constants [pHeaven], [pDead] and [pReset] the combined transition
    function computes for a year, and the mass it leaves on the year
    after. *)
Definition pHeaven_of (y : Year) : N :=
  mul (p (agi y)) (pFromOdds (odds (agi y)) (@agi_heaven N)).

Definition pDead_of (y : Year) : N :=
  add (add (mul (p (agi y)) (pFromOdds (odds (agi y)) (@agi_dead N)))
           (mul (p (nukes y)) (pFromOdds (odds (nukes y)) (@hz_dead N))))
      (mul (p (plague y)) (pFromOdds (odds (plague y)) (@hz_dead N))).

Definition pReset_of (y : Year) : N :=
  add (add (mul (p (agi y)) (pFromOdds (odds (agi y)) (@agi_reset N)))
           (mul (p (nukes y)) (pFromOdds (odds (nukes y)) (@hz_reset N))))
      (mul (p (plague y)) (pFromOdds (odds (plague y)) (@hz_reset N))).

Definition pNext_of (y : Year) : N :=
  sub (sub (sub one (pHeaven_of y)) (pDead_of y)) (pReset_of y).

End Totals.

Section Scenario.
Context {N : Type} {num : Number N}.

(** The transition function of the scenario example: a year loses 10% of
    its mass to "dead" and passes 90% on to the next year; the sentinels
    stay where they are. *)
Definition tenPercent : TransitionFunction (N := N) (T := World) :=
  fun world =>
    match world with
    | year y => Map_new [(year (y + 1), dec 9 1); (dead, dec 1 1)]
    | _ => Map_new [(world, one)]
    end.

(** The trajectory the specification gives for the scenario. *)
Definition scenarioTrajectory : History (N := N) (T := World) :=
  [ [(year 2022, one)];
    [(year 2023, dec 9 1); (dead, dec 1 1)];
    [(year 2024, dec 81 2); (dead, dec 19 2)] ].

End Scenario.

Section ExactMass.
Context {T : Type} {key : Key T}.
Local Open Scope R_scope.

(** The mass the entries of a list give to the key [k]. *)
Fixpoint amount (k : T) (l : JSMap T R) : R :=
  match l with
  | [] => 0
  | (k', v) :: l' => (if key_eqb k k' then v else 0) + amount k l'
  end.

(** Two weighted distributions of the same weight, which is not negative,
    the second giving [k] at least the mass the first gives it. *)
Definition dominated (k : T) (ew ew' : Ensemble (N := R) (T := T) * R)
  : Prop :=
  snd ew = snd ew' /\ 0 <= snd ew /\ amount k (fst ew) <= amount k (fst ew').

End ExactMass.

(** The mass on "dead" ([get("dead") || 0]) at index [i] of the
    trajectory [extrapolateAndMix(start, buildModels({work}), n)]. *)
Definition dead_mass_at (work : bool) (start : Year) (n i : nat) : option R :=
  match extrapolateAndMix (year start) (buildModels (N := R) work) n with
  | Some history => option_map (get_or_zero dead) (nth_error history i)
  | None => None
  end.

(** Reads the operations of [Number] at [R]. *)
Ltac exact_arith :=
  cbn [zero one add sub mul div neg or_zero of_Z Rnum] in *.

(** * Properties *)

(** ** Maps *)

Section MapFacts.
Context {K V : Type} {key : Key K}.

Lemma key_eqb_refl (k : K) : key_eqb k k = true.
Proof. now apply key_eqb_spec. Qed.

Lemma key_eqb_neq (k k' : K) : k <> k' -> key_eqb k k' = false.
Proof.
  intro D. destruct (key_eqb k k') eqn:E; [|reflexivity].
  apply key_eqb_spec in E. contradiction.
Qed.

Lemma key_eqb_sym (a b : K) : key_eqb a b = key_eqb b a.
Proof.
  destruct (key_eqb a b) eqn:E, (key_eqb b a) eqn:F; try reflexivity.
  - apply key_eqb_spec in E. subst. now rewrite key_eqb_refl in F.
  - apply key_eqb_spec in F. subst. now rewrite key_eqb_refl in E.
Qed.

Lemma key_eqb_trans_l (a b c : K) :
  key_eqb a b = true -> key_eqb c a = key_eqb c b.
Proof. intro E. apply key_eqb_spec in E. now subst. Qed.

Lemma Map_get_fresh (k : K) (m : JSMap K V) :
  ~ In k (keys m) -> Map_get k m = None.
Proof.
  induction m as [|[k' v'] m IH]; simpl; intro F; [reflexivity|].
  rewrite key_eqb_neq by (intro; subst; apply F; now left).
  apply IH. intro; apply F; now right.
Qed.

Lemma Map_get_some (k : K) (m : JSMap K V) :
  (exists v, Map_get k m = Some v) <-> In k (keys m).
Proof.
  induction m as [|[k' v'] m IH]; simpl.
  - split; [intros [v E]; discriminate | intros []].
  - destruct (key_eqb k k') eqn:E.
    + apply key_eqb_spec in E. subst k'. split; [now left | now exists v'].
    + rewrite IH. split; [now right|].
      intros [-> | I]; [|exact I]. now rewrite key_eqb_refl in E.
Qed.

Lemma Map_set_fresh (k : K) (v : V) (m : JSMap K V) :
  ~ In k (keys m) -> Map_set k v m = m ++ [(k, v)].
Proof.
  induction m as [|[k' v'] m IH]; simpl; intro F; [reflexivity|].
  rewrite key_eqb_neq by (intro; subst; apply F; now left).
  f_equal. apply IH. intro; apply F; now right.
Qed.

Lemma keys_app (m m' : JSMap K V) : keys (m ++ m') = keys m ++ keys m'.
Proof. apply map_app. Qed.

Lemma In_keys_Map_set (a k : K) (v : V) (m : JSMap K V) :
  In a (keys (Map_set k v m)) -> a = k \/ In a (keys m).
Proof.
  induction m as [|[k' v'] m IH]; simpl.
  - intros [<- | []]. now left.
  - destruct (key_eqb k k'); simpl.
    + intros [<- | I]; right; [now left | now right].
    + intros [<- | I]; [right; now left|].
      destruct (IH I) as [-> | J]; [now left | right; now right].
Qed.

(** [set] keeps the keys of a map distinct. *)
Lemma NoDup_Map_set (k : K) (v : V) (m : JSMap K V) :
  NoDup (keys m) -> NoDup (keys (Map_set k v m)).
Proof.
  induction m as [|[k' v'] m IH]; simpl; intro D.
  - repeat constructor. intros [].
  - inversion D as [|? ? F D']; subst.
    destruct (key_eqb k k') eqn:E; simpl.
    + now constructor.
    + constructor; [|now apply IH].
      intro I. apply In_keys_Map_set in I. destruct I as [-> | I].
      * now rewrite key_eqb_refl in E.
      * contradiction.
Qed.

(** Entries with pairwise distinct keys are kept as they are by
    [new Map(entries)]; this is what [normalize] and [buildModels] rely
    on. *)
Lemma Map_new_from (l m : JSMap K V) :
  NoDup (keys (m ++ l)) ->
  fold_left (fun m kv => Map_set (fst kv) (snd kv) m) l m = m ++ l.
Proof.
  revert m. induction l as [|[k v] l IH]; intros m D; simpl.
  - now rewrite app_nil_r.
  - rewrite Map_set_fresh.
    + rewrite IH; rewrite <- app_assoc; [reflexivity | exact D].
    + rewrite keys_app in D. simpl in D.
      apply NoDup_remove_2 in D. intro I. apply D.
      apply in_or_app. now left.
Qed.

Lemma Map_new_distinct (l : list (K * V)) :
  NoDup (keys l) -> Map_new l = l.
Proof. intro D. unfold Map_new. now rewrite Map_new_from. Qed.

End MapFacts.

(** ** Accumulating into a map *)

Section Accumulate.
Context {N : Type} {num : Number N} {T : Type} {key : Key T}.

Lemma accumulate_fresh (m : Ensemble (N := N) (T := T)) (k : T) (x : N) :
  ~ In k (keys m) -> accumulate m k x = m ++ [(k, add zero x)].
Proof.
  intro F. unfold accumulate, get_or_zero.
  now rewrite Map_get_fresh, Map_set_fresh.
Qed.

Lemma fold_accumulate_fresh (g : N -> N)
  (l result : Ensemble (N := N) (T := T)) :
  NoDup (keys (result ++ l)) ->
  fold_left
    (fun result vp =>
       let '(value, probability) := vp in
       accumulate result value (g probability))
    l result =
  result ++ map (fun vp => (fst vp, add zero (g (snd vp)))) l.
Proof.
  revert result. induction l as [|[k v] l IH]; intros result D; simpl.
  - now rewrite app_nil_r.
  - rewrite accumulate_fresh.
    + rewrite IH.
      * now rewrite <- app_assoc.
      * rewrite !keys_app in *. simpl in *.
        rewrite <- app_assoc. exact D.
    + rewrite keys_app in D. simpl in D.
      apply NoDup_remove_2 in D. intro I. apply D.
      apply in_or_app. now left.
Qed.

Lemma NoDup_accumulate (k : T) (x : N) (m : Ensemble (N := N) (T := T)) :
  NoDup (keys m) -> NoDup (keys (accumulate m k x)).
Proof. apply NoDup_Map_set. Qed.

Lemma NoDup_spread (g : N -> N) (l result : Ensemble (N := N) (T := T)) :
  NoDup (keys result) ->
  NoDup (keys (fold_left
                 (fun result vp =>
                    let '(value, probability) := vp in
                    accumulate result value (g probability))
                 l result)).
Proof.
  revert result. induction l as [|[k v] l IH]; intros result D; simpl.
  - exact D.
  - apply IH. now apply NoDup_accumulate.
Qed.

(** The distribution [step] returns is a map: its keys are distinct. *)
Lemma NoDup_step (d : Ensemble (N := N) (T := T)) (f : TransitionFunction) :
  NoDup (keys (step d f)).
Proof.
  unfold step.
  assert (G : forall result : Ensemble (N := N) (T := T),
    NoDup (keys result) ->
    NoDup (keys (fold_left
      (fun result cp =>
         let '(cur, probability) := cp in
         fold_left
           (fun result np =>
              let '(next, nextProbability) := np in
              let totalProbability := mul probability nextProbability in
              accumulate result next totalProbability)
           (f cur) result)
      d result))).
  { induction d as [|[cur q] d IH]; intros result D; simpl.
    - exact D.
    - apply IH. now apply (NoDup_spread (fun x => mul q x)). }
  apply G. constructor.
Qed.

End Accumulate.

(** ** The combined transition function *)

Section DomainFacts.
Context {N : Type} {num : Number N}.
Variables (agi : SimpleAGIModel (N := N)) (nukes : SimpleNukeModel (N := N))
  (plague : SimplePlagueModel (N := N)).

Lemma simpleTransitionFunction_year (y : Year) :
  simpleTransitionFunction agi nukes plague (year y) =
  [(heaven, pHeaven_of agi y);
   (dead, pDead_of agi nukes plague y);
   (reset, pReset_of agi nukes plague y);
   (year (y + 1), pNext_of agi nukes plague y)].
Proof. reflexivity. Qed.

(** C5: whatever the three sub-models are, the combined transition
    function sends each of the sentinels "dead", "heaven" and "reset" to
    the point mass on that same outcome. *)
Theorem simpleTransitionFunction_absorbing :
  simpleTransitionFunction agi nukes plague dead = [(dead, one)] /\
  simpleTransitionFunction agi nukes plague heaven = [(heaven, one)] /\
  simpleTransitionFunction agi nukes plague reset = [(reset, one)].
Proof.
  unfold simpleTransitionFunction.
  split; [|split]; apply Map_new_distinct; repeat constructor; intros [].
Qed.

(** C6: for a year, the combined transition function gives "heaven" the
    mass [P_agi * oddsFrac(agi, heaven)], gives "dead" and "reset" the sum
    of the three sub-models' contributions, and gives [year + 1] what is
    left of 1 after the three. *)
Theorem simpleTransitionFunction_masses (y : Year) :
  let t := simpleTransitionFunction agi nukes plague (year y) in
  let P_heaven := mul (p (agi y)) (pFromOdds (odds (agi y)) (@agi_heaven N)) in
  let P_dead :=
    add (add (mul (p (agi y)) (pFromOdds (odds (agi y)) (@agi_dead N)))
             (mul (p (nukes y)) (pFromOdds (odds (nukes y)) (@hz_dead N))))
        (mul (p (plague y)) (pFromOdds (odds (plague y)) (@hz_dead N))) in
  let P_reset :=
    add (add (mul (p (agi y)) (pFromOdds (odds (agi y)) (@agi_reset N)))
             (mul (p (nukes y)) (pFromOdds (odds (nukes y)) (@hz_reset N))))
        (mul (p (plague y)) (pFromOdds (odds (plague y)) (@hz_reset N))) in
  Map_get heaven t = Some P_heaven /\
  Map_get dead t = Some P_dead /\
  Map_get reset t = Some P_reset /\
  Map_get (year (y + 1)) t =
    Some (sub (sub (sub one P_heaven) P_dead) P_reset).
Proof.
  intros t P_heaven P_dead P_reset. subst t.
  rewrite simpleTransitionFunction_year.
  repeat split. cbn [Map_get key_eqb World_key World_eqb].
  now rewrite Z.eqb_refl.
Qed.

(** C10: for a year, the distribution has exactly the four keys "heaven",
    "dead", "reset" and [year + 1], each once and in that order; every one
    of them has an entry, whatever its probability, and no other outcome
    has one. *)
Theorem simpleTransitionFunction_keys (y : Year) :
  let t := simpleTransitionFunction agi nukes plague (year y) in
  keys t = [heaven; dead; reset; year (y + 1)] /\
  NoDup (keys t) /\
  forall o,
    (exists v, Map_get o t = Some v) <->
    o = heaven \/ o = dead \/ o = reset \/ o = year (y + 1).
Proof.
  intro t. subst t. rewrite simpleTransitionFunction_year.
  split; [reflexivity|]. split.
  - cbn [keys map fst].
    repeat constructor; simpl; intuition discriminate.
  - intro o. rewrite Map_get_some. cbn [keys map fst In].
    intuition congruence.
Qed.

End DomainFacts.

(** ** Trajectories *)

Section EngineFacts.
Context {N : Type} {num : Number N} {T : Type} {key : Key T}.

Lemma steps_zero (f : TransitionFunction (N := N) (T := T)) (d : Ensemble) :
  steps f 0 d = d.
Proof. reflexivity. Qed.

Lemma steps_shift f i (d : Ensemble (N := N) (T := T)) :
  steps f (S i) d = steps f i (step d f).
Proof. unfold steps. now rewrite Nat.iter_succ_r. Qed.

Lemma extrapolate_loop_spec f k (current : Ensemble (N := N) (T := T))
  (result : History) :
  extrapolate_loop f k current result =
  result ++ map (fun i => steps f i current) (seq 0 k).
Proof.
  revert current result.
  induction k as [|k IH]; intros current result; simpl.
  - now rewrite app_nil_r.
  - rewrite IH, <- app_assoc. simpl. do 2 f_equal.
    rewrite <- seq_shift, map_map.
    apply map_ext. intro i. symmetry. apply steps_shift.
Qed.

(** The trajectory is the list of the first [nSteps] iterates. *)
Lemma extrapolate_spec (start : T) f (nSteps : nat) :
  extrapolate start f nSteps =
  map (fun i => steps f i [(start, one)]) (seq 0 nSteps).
Proof. unfold extrapolate. now rewrite extrapolate_loop_spec. Qed.

Lemma length_extrapolate (start : T) f (n : nat) :
  length (extrapolate start f n) = n.
Proof. now rewrite extrapolate_spec, length_map, length_seq. Qed.

Lemma nth_error_extrapolate (start : T) f (n i : nat) :
  (i < n)%nat ->
  nth_error (extrapolate start f n) i = Some (steps f i [(start, one)]).
Proof.
  intro L. rewrite extrapolate_spec, nth_error_map, nth_error_seq.
  destruct (Nat.ltb i n) eqn:E; [reflexivity|].
  apply Nat.ltb_ge in E. lia.
Qed.

(** C2: for a positive step count [n], [extrapolate start f n] has
    exactly [n] distributions, the first is the point mass on [start], and
    the one at index [i] is [step] applied [i] times to that point mass. *)
Theorem extrapolate_trajectory (start : T) f (n : nat) :
  (0 < n)%nat ->
  length (extrapolate start f n) = n /\
  nth_error (extrapolate start f n) 0 = Some [(start, one)] /\
  forall i, (i < n)%nat ->
    nth_error (extrapolate start f n) i =
    Some (Nat.iter i (fun d => step d f) [(start, one)]).
Proof.
  intro P. split; [apply length_extrapolate|]. split.
  - now rewrite nth_error_extrapolate.
  - intros i L. now rewrite nth_error_extrapolate.
Qed.

Lemma at_index_extrapolated (start : T)
  (models : JSMap (TransitionFunction (N := N) (T := T)) N) (n i : nat) :
  (i < n)%nat ->
  at_index i
    (map (fun mw => (extrapolate start (fst mw) n, snd mw)) models) =
  Some (reached start models i).
Proof.
  intro L. induction models as [|[f w] models IH]; [reflexivity|].
  cbn [map at_index fst snd reached].
  rewrite nth_error_extrapolate by exact L.
  unfold reached in IH. now rewrite IH.
Qed.

Lemma mixHistories_loop_spec (histories : list (History * N))
  (g : nat -> list (Ensemble (N := N) (T := T) * N))
  (indices : list nat) (result : History) :
  (forall i, In i indices -> at_index i histories = Some (g i)) ->
  mixHistories_loop histories indices result =
  Some (result ++ map (fun i => mix (g i)) indices).
Proof.
  revert result.
  induction indices as [|i indices IH]; intros result A; simpl.
  - now rewrite app_nil_r.
  - rewrite (A i) by now left.
    rewrite IH by (intros j I; apply A; now right).
    now rewrite <- app_assoc.
Qed.

(** With at least one model, [extrapolateAndMix] does not throw: every
    trajectory has [nSteps] elements, and the result mixes, index by
    index, what the models reach. *)
Lemma extrapolateAndMix_spec (start : T)
  (models : JSMap (TransitionFunction (N := N) (T := T)) N) (n : nat) :
  models <> [] ->
  extrapolateAndMix start models n =
  Some (map (fun i => mix (reached start models i)) (seq 0 n)).
Proof.
  intro NE. unfold extrapolateAndMix, mixHistories.
  destruct models as [|[f w] models]; [contradiction|].
  remember ((f, w) :: models) as ms.
  replace (map (fun mw => (extrapolate start (fst mw) n, snd mw)) ms)
    with ((extrapolate start f n, w) ::
          map (fun mw => (extrapolate start (fst mw) n, snd mw)) models)
    at 1 by now subst ms.
  cbv iota beta. rewrite length_extrapolate.
  rewrite (@mixHistories_loop_spec _ (reached start ms)).
  - reflexivity.
  - intros i I. apply in_seq in I. apply at_index_extrapolated. lia.
Qed.

End EngineFacts.

(** ** Mass, in exact arithmetic *)

Section Mass.
Context {T : Type} {key : Key T}.
Local Open Scope R_scope.

Lemma fold_add_R (l : list R) (a : R) :
  fold_left Rplus l a = a + fold_left Rplus l 0.
Proof.
  revert a. induction l as [|x l IH]; intro a; simpl.
  - lra.
  - rewrite (IH (a + x)), (IH (0 + x)). lra.
Qed.

Lemma sum_cons_R (x : R) (l : list R) : sum (x :: l) = x + sum l.
Proof. unfold sum. simpl. rewrite fold_add_R. lra. Qed.

Lemma total_nil_R : total (K := T) (N := R) [] = 0.
Proof. reflexivity. Qed.

Lemma total_cons_R (k : T) (v : R) (m : JSMap T R) :
  total ((k, v) :: m) = v + total m.
Proof. unfold total. simpl. apply sum_cons_R. Qed.

Lemma total_accumulate (m : Ensemble (N := R) (T := T)) (k : T) (x : R) :
  total (accumulate m k x) = total m + x.
Proof.
  unfold accumulate, get_or_zero.
  induction m as [|[k' v'] m IH]; cbn [Map_get Map_set].
  - rewrite total_cons_R, !total_nil_R. simpl. lra.
  - destruct (key_eqb k k').
    + rewrite !total_cons_R. simpl. lra.
    + rewrite !total_cons_R, IH. lra.
Qed.

(** One source outcome of mass [w] spreads [w * total l] over [result]. *)
Lemma total_spread (g : R -> R) (l result : Ensemble (N := R) (T := T)) :
  (forall a b, g (a + b) = g a + g b) ->
  total (fold_left
           (fun result vp =>
              let '(value, probability) := vp in
              accumulate result value (g probability))
           l result) =
  total result + g (total l).
Proof.
  intro A.
  assert (Z0 : g 0 = 0) by (specialize (A 0 0); rewrite Rplus_0_r in A; lra).
  revert result. induction l as [|[k v] l IH]; intro result; simpl.
  - rewrite total_nil_R, Z0. lra.
  - rewrite IH, total_accumulate, total_cons_R, A. lra.
Qed.

(** The mass of [step d f] is the mass of [d] weighted by the masses of
    the distributions [f] returns. *)
Lemma total_step_from (f : TransitionFunction) (d result : Ensemble) :
  total (fold_left
           (fun result cp =>
              let '(cur, probability) := cp in
              fold_left
                (fun result np =>
                   let '(next, nextProbability) := np in
                   let totalProbability := mul probability nextProbability in
                   accumulate result next totalProbability)
                (f cur) result)
           d result) =
  total result + sum (map (fun cp => snd cp * total (f (fst cp))) d).
Proof.
  revert result. induction d as [|[cur q] d IH]; intro result; simpl.
  - unfold sum. simpl. lra.
  - rewrite IH, sum_cons_R.
    rewrite (total_spread (fun x => q * x)) by (intros; lra).
    lra.
Qed.

Lemma total_step (d : Ensemble) (f : TransitionFunction) :
  total (step d f) = sum (map (fun cp => snd cp * total (f (fst cp))) d).
Proof. unfold step. rewrite total_step_from, total_nil_R. lra. Qed.

(** C1: if the input distribution sums to 1 and [f o] sums to 1 for every
    outcome [o] in the support of the input (the outcomes it gives a
    nonzero probability), then [step d f] sums to 1. *)
Theorem step_conserves_mass (d : Ensemble) (f : TransitionFunction) :
  total d = 1 ->
  (forall o q, In (o, q) d -> q <> 0 -> total (f o) = 1) ->
  total (step d f) = 1.
Proof.
  intros D F. rewrite total_step, <- D. clear D.
  induction d as [|[cur q] d IH]; [reflexivity|].
  cbn [map fst snd]. rewrite sum_cons_R, total_cons_R.
  rewrite IH by (intros o q' I; apply F; now right).
  destruct (Req_dec q 0) as [-> | P].
  - lra.
  - rewrite (F cur q) by (trivial; now left). lra.
Qed.

Lemma fold_weights_R {A : Type} (es : list (A * R)) (a : R) :
  fold_left (fun acc ew => add acc (snd ew)) es a = a + sum (map snd es).
Proof.
  revert a. induction es as [|[e w] es IH]; intro a; simpl.
  - unfold sum. simpl. lra.
  - rewrite IH, sum_cons_R. lra.
Qed.

Lemma mix_totalWeight_R (es : list (Ensemble (N := R) (T := T) * R)) :
  mix_totalWeight es = sum (map snd es).
Proof. unfold mix_totalWeight. rewrite fold_weights_R. simpl. lra. Qed.

Lemma total_mix_from (W : R) (es : list (Ensemble (N := R) (T := T) * R))
  (result : Ensemble) :
  total (fold_left
           (fun result ew =>
              let '(ensemble, weight) := ew in
              fold_left
                (fun result vp =>
                   let '(value, probability) := vp in
                   accumulate result value
                     (div (mul probability weight) W))
                ensemble result)
           es result) =
  total result + sum (map (fun ew => total (fst ew) * snd ew / W) es).
Proof.
  revert result. induction es as [|[e w] es IH]; intro result; simpl.
  - unfold sum. simpl. lra.
  - rewrite IH, sum_cons_R.
    rewrite (total_spread (fun x => x * w / W)) by (intros; lra).
    lra.
Qed.

(** The mass of a mixture is the weighted mean of the masses mixed. *)
Lemma total_mix (es : list (Ensemble (N := R) (T := T) * R)) :
  total (mix es) =
  sum (map (fun ew => total (fst ew) * snd ew / mix_totalWeight es) es).
Proof. unfold mix. rewrite total_mix_from, total_nil_R. lra. Qed.

Lemma sum_scaled (c : R) (l : list R) :
  sum (map (fun x => x / c) l) = sum l / c.
Proof.
  induction l as [|x l IH].
  - unfold sum. simpl. lra.
  - cbn [map]. rewrite !sum_cons_R, IH. lra.
Qed.

(** C3: [mix] rescales the pair weights only.  When every distribution
    mixed sums to 1 and the pair weights have a nonzero total, the result
    sums to 1, whether or not the weights themselves sum to 1. *)
Theorem mix_total_one (es : list (Ensemble (N := R) (T := T) * R)) :
  (forall ew, In ew es -> total (fst ew) = 1) ->
  mix_totalWeight es <> 0 ->
  total (mix es) = 1.
Proof.
  intros E W. rewrite total_mix.
  rewrite (map_ext_in _ (fun ew => snd ew / mix_totalWeight es)).
  - rewrite <- (map_map snd (fun w => w / mix_totalWeight es)).
    rewrite sum_scaled, <- mix_totalWeight_R. now field.
  - intros ew I. cbv beta. rewrite (E ew I : total (fst ew) = 1). lra.
Qed.

End Mass.

(** C3: a single pair whose distribution has mass 2 mixes to mass 2,
    although its weight is nonzero. *)
Lemma mix_total_not_one :
  ~ (forall es : list (Ensemble (N := R) (T := World) * R),
       mix_totalWeight es <> 0%R -> total (mix es) = 1%R).
Proof.
  intro C. specialize (C [([(dead, 2%R)], 1%R)]).
  rewrite total_mix, mix_totalWeight_R in C.
  unfold total, values, sum in C. simpl in C.
  assert (Q : (0 + 1 <> 0)%R) by lra.
  specialize (C Q). lra.
Qed.

(** ** Mixing a single distribution *)

Section Singleton.
Context {N : Type} {num : Number N} {T : Type} {key : Key T}.

(** What [mix] computes from one pair, entry by entry: the keys stay as
    they are and the probability [p] becomes [0 + (p * w) / (0 + w)]. *)
Lemma mix_singleton_entries (d : Ensemble (N := N) (T := T)) (w : N) :
  NoDup (keys d) ->
  mix [(d, w)] =
  map (fun vp => (fst vp, add zero (div (mul (snd vp) w) (add zero w)))) d.
Proof.
  intro D. unfold mix, mix_totalWeight. cbn [fold_left snd].
  now rewrite (fold_accumulate_fresh (fun x => div (mul x w) (add zero w))).
Qed.

End Singleton.

Section SingletonExact.
Context {T : Type} {key : Key T}.
Local Open Scope R_scope.

(** C7: in exact arithmetic, mixing the single pair [(d, w)] with
    [w > 0] gives back [d], entry for entry. *)
Theorem mix_singleton_exact (d : Ensemble (N := R) (T := T)) (w : R) :
  NoDup (keys d) ->
  0 < w ->
  mix [(d, w)] = d.
Proof.
  intros D W. rewrite (mix_singleton_entries d w D).
  rewrite <- (map_id d) at 2.
  apply map_ext. intros [k v]. simpl. f_equal. field. lra.
Qed.

End SingletonExact.

(** C7: at binary64, mixing [{dead: 0.1}] with weight 3 stores
    [(0.1 * 3) / 3 = 0.10000000000000002] under "dead". *)
Lemma mix_singleton_binary64_inexact :
  ~ (forall (d : Ensemble (N := float) (T := World)) (w : float),
       NoDup (keys d) -> PrimFloat.ltb 0 w = true ->
       forall o, Map_get o (mix [(d, w)]) = Map_get o d).
Proof.
  intro C.
  assert (D : NoDup (keys [(dead, dec (N := float) 1 1)])).
  { repeat constructor. intros []. }
  specialize (C [(dead, dec 1 1)] (of_Z 3) D eq_refl dead).
  apply (f_equal (fun o => match o with
                           | Some v => PrimFloat.eqb v (dec 1 1)
                           | None => false
                           end)) in C.
  vm_compute in C. discriminate.
Qed.

(** ** Normalisation and the ensemble *)

Section Normalize.
Context {K : Type}.
Local Open Scope R_scope.

Lemma values_normalize (m : JSMap K R) :
  values (normalize m) = map (fun x => x / total m) (values m).
Proof. unfold normalize, values, total. rewrite !map_map. reflexivity. Qed.

Lemma total_normalize (m : JSMap K R) :
  total m <> 0 -> total (normalize m) = 1.
Proof.
  intro P. unfold total at 1. rewrite values_normalize, sum_scaled.
  fold (total m). now field.
Qed.

End Normalize.

(** C4: with the acceleration factor or without it, the weights of the
    ensemble [buildModels] returns sum to 1. *)
Theorem buildModels_weights_total (work : bool) :
  total (buildModels (N := R) work) = 1%R.
Proof.
  unfold buildModels. apply total_normalize.
  unfold total, values, normalize, agiEntries, nukesEntries, plagueEntries.
  cbn [flat_map map app fst snd].
  unfold sum, dec. simpl. lra.
Qed.

(** ** The scenario example *)

(** The decimal literals of the scenario, as the doubles JavaScript reads
    them: [0.9], [0.1], [0.81] and [0.19]. *)
Lemma dec_binary64 :
  dec 9 1 = 0x1.ccccccccccccdp-1%float /\
  dec 1 1 = 0x1.999999999999ap-4%float /\
  dec 81 2 = 0x1.9eb851eb851ecp-1%float /\
  dec 19 2 = 0x1.851eb851eb852p-3%float.
Proof. repeat split; vm_compute; reflexivity. Qed.

(** C8: from 2022, with the single model [tenPercent] of weight 1 and
    three steps, [extrapolateAndMix] returns the trajectory
    [{2022: 1}], [{2023: 0.9, dead: 0.1}], [{2024: 0.81, dead: 0.19}];
    in exact arithmetic and at binary64 alike. *)
Theorem extrapolateAndMix_scenario :
  extrapolateAndMix (N := R) (year 2022) [(tenPercent, one)] 3 =
    Some scenarioTrajectory /\
  extrapolateAndMix (N := float) (year 2022) [(tenPercent, one)] 3 =
    Some scenarioTrajectory.
Proof.
  split.
  - unfold extrapolateAndMix, mixHistories, extrapolate, scenarioTrajectory.
    cbn. unfold dec. cbn.
    repeat (f_equal; try lra).
  - vm_compute. reflexivity.
Qed.

(** ** The mass on one outcome, in exact arithmetic *)

Section MassAt.
Context {T : Type} {key : Key T}.
Local Open Scope R_scope.

Lemma mass_nil (k : T) : get_or_zero (N := R) k [] = 0.
Proof. reflexivity. Qed.

Lemma mass_accumulate (k k' : T) (x : R) (m : Ensemble (N := R) (T := T)) :
  get_or_zero k (accumulate m k' x) =
  get_or_zero k m + (if key_eqb k k' then x else 0).
Proof.
  unfold accumulate, get_or_zero.
  induction m as [|[k0 v0] m IH]; cbn [Map_get Map_set].
  - destruct (key_eqb k k'); simpl; lra.
  - destruct (key_eqb k' k0) eqn:E; cbn [Map_get].
    + rewrite (key_eqb_trans_l _ _ k E).
      destruct (key_eqb k k0); simpl; lra.
    + destruct (key_eqb k k0) eqn:F; [|exact IH].
      apply key_eqb_spec in F. subst k0.
      rewrite key_eqb_sym, E. simpl. lra.
Qed.

Lemma mass_spread (k : T) (g : R -> R)
  (l result : Ensemble (N := R) (T := T)) :
  (forall a b, g (a + b) = g a + g b) ->
  get_or_zero k
    (fold_left
       (fun result vp =>
          let '(value, probability) := vp in
          accumulate result value (g probability))
       l result) =
  get_or_zero k result + g (amount k l).
Proof.
  intro A.
  assert (Z0 : g 0 = 0) by (specialize (A 0 0); rewrite Rplus_0_r in A; lra).
  revert result. induction l as [|[k' v] l IH]; intro result; simpl.
  - rewrite Z0. lra.
  - rewrite IH, mass_accumulate, A.
    destruct (key_eqb k k'); rewrite ?Z0; lra.
Qed.

Lemma mass_step_from (k : T) (f : TransitionFunction) (d result : Ensemble) :
  get_or_zero k
    (fold_left
       (fun result cp =>
          let '(cur, probability) := cp in
          fold_left
            (fun result np =>
               let '(next, nextProbability) := np in
               let totalProbability := mul probability nextProbability in
               accumulate result next totalProbability)
            (f cur) result)
       d result) =
  get_or_zero k result +
  sum (map (fun cp => snd cp * amount k (f (fst cp))) d).
Proof.
  revert result. induction d as [|[cur q] d IH]; intro result; simpl.
  - unfold sum. simpl. lra.
  - rewrite IH, sum_cons_R.
    rewrite (mass_spread k (fun x => q * x)) by (intros; lra).
    lra.
Qed.

Lemma amount_fresh (k : T) (l : JSMap T R) :
  ~ In k (keys l) -> amount k l = 0.
Proof.
  induction l as [|[k' v] l IH]; simpl; intro F; [reflexivity|].
  rewrite key_eqb_neq by (intro; subst; apply F; now left).
  rewrite IH by (intro; apply F; now right). lra.
Qed.

(** On a map, [amount k] is [get(k) || 0]. *)
Lemma amount_map (k : T) (l : Ensemble (N := R) (T := T)) :
  NoDup (keys l) -> amount k l = get_or_zero k l.
Proof.
  unfold get_or_zero.
  induction l as [|[k' v] l IH]; simpl; intro D; [reflexivity|].
  inversion D as [|? ? F D']; subst.
  destruct (key_eqb k k') eqn:E.
  - apply key_eqb_spec in E. subst k'.
    rewrite amount_fresh by exact F. simpl. lra.
  - rewrite IH by exact D'. destruct (Map_get k l); simpl; lra.
Qed.

(** The mass [step d f] gives to [k]: each outcome of [d] passes on its
    mass in the proportion [f] prescribes. *)
Lemma mass_step (k : T) (d : Ensemble) (f : TransitionFunction) :
  get_or_zero k (step d f) =
  sum (map (fun cp => snd cp * amount k (f (fst cp))) d).
Proof. unfold step. rewrite mass_step_from, mass_nil. lra. Qed.

Lemma mass_mix_from (k : T) (W : R)
  (es : list (Ensemble (N := R) (T := T) * R)) (result : Ensemble) :
  get_or_zero k
    (fold_left
       (fun result ew =>
          let '(ensemble, weight) := ew in
          fold_left
            (fun result vp =>
               let '(value, probability) := vp in
               accumulate result value
                 (div (mul probability weight) W))
            ensemble result)
       es result) =
  get_or_zero k result +
  sum (map (fun ew => amount k (fst ew) * snd ew / W) es).
Proof.
  revert result. induction es as [|[e w] es IH]; intro result; simpl.
  - unfold sum. simpl. lra.
  - rewrite IH, sum_cons_R.
    rewrite (mass_spread k (fun x => x * w / W)) by (intros; lra).
    lra.
Qed.

(** The mass a mixture gives to [k] is the weighted mean of the masses
    the mixed distributions give to it. *)
Lemma mass_mix (k : T) (es : list (Ensemble (N := R) (T := T) * R)) :
  get_or_zero k (mix es) =
  sum (map (fun ew => amount k (fst ew) * snd ew / mix_totalWeight es) es).
Proof. unfold mix. rewrite mass_mix_from, mass_nil. lra. Qed.

End MassAt.

(** ** Comparing two mixtures *)

Section Compare.
Context {T : Type} {key : Key T}.
Local Open Scope R_scope.

Lemma dominated_weights k es es' :
  Forall2 (dominated k) es es' -> map snd es = map snd es'.
Proof.
  induction 1 as [|[e w] [e' w'] es es' [E _] _ IH]; simpl; [reflexivity|].
  simpl in E. now rewrite E, IH.
Qed.

(** Term by term, the weighted masses of the first list are at most those
    of the second. *)
Lemma dominated_sum k (W : R) es es' :
  0 < W ->
  Forall2 (dominated k) es es' ->
  sum (map (fun ew => amount k (fst ew) * snd ew / W) es) <=
  sum (map (fun ew => amount k (fst ew) * snd ew / W) es').
Proof.
  intros P.
  induction 1 as [|[e w] [e' w'] es es' [E [Q A]] _ IH]; cbn [map].
  - lra.
  - rewrite !sum_cons_R. cbn [fst snd] in *. subst w'.
    assert (0 <= w / W) by (apply Rle_mult_inv_pos; lra).
    unfold Rdiv in *. nra.
Qed.

(** One entry of positive weight with strictly less mass makes the sum
    strictly smaller. *)
Lemma dominated_sum_strict k (W : R) es es' j ew ew' :
  0 < W ->
  Forall2 (dominated k) es es' ->
  nth_error es j = Some ew -> nth_error es' j = Some ew' ->
  0 < snd ew -> amount k (fst ew) < amount k (fst ew') ->
  sum (map (fun ew => amount k (fst ew) * snd ew / W) es) <
  sum (map (fun ew => amount k (fst ew) * snd ew / W) es').
Proof.
  intros P F. revert j.
  induction F as [|[e w] [e' w'] es es' [E [Q A]] F IH];
    intros j Nj Nj' Pw S.
  - destruct j; discriminate.
  - cbn [map]. rewrite !sum_cons_R.
    pose proof (dominated_sum P F) as L.
    cbn [fst snd] in *. subst w'.
    destruct j as [|j]; simpl in Nj, Nj'.
    + injection Nj as <-. injection Nj' as <-. cbn [fst snd] in *.
      assert (0 < w / W) by (apply Rdiv_lt_0_compat; lra).
      unfold Rdiv in *. nra.
    + specialize (IH j Nj Nj' Pw S).
      assert (0 <= w / W) by (apply Rle_mult_inv_pos; lra).
      unfold Rdiv in *. nra.
Qed.

(** Mixing preserves the order of the masses on [k]. *)
Lemma mass_mix_le k es es' :
  0 < mix_totalWeight es ->
  Forall2 (dominated k) es es' ->
  get_or_zero k (mix es) <= get_or_zero k (mix es').
Proof.
  intros P F. rewrite !mass_mix.
  rewrite (mix_totalWeight_R es'), <- (dominated_weights F).
  rewrite <- mix_totalWeight_R.
  now apply dominated_sum.
Qed.

Lemma mass_mix_lt k es es' j ew ew' :
  0 < mix_totalWeight es ->
  Forall2 (dominated k) es es' ->
  nth_error es j = Some ew -> nth_error es' j = Some ew' ->
  0 < snd ew -> amount k (fst ew) < amount k (fst ew') ->
  get_or_zero k (mix es) < get_or_zero k (mix es').
Proof.
  intros P F Nj Nj' Pw S. rewrite !mass_mix.
  rewrite (mix_totalWeight_R es'), <- (dominated_weights F).
  rewrite <- mix_totalWeight_R.
  eapply dominated_sum_strict; eassumption.
Qed.

End Compare.

(** ** The effect of the acceleration factor, in exact arithmetic *)

Section Acceleration.
Local Open Scope R_scope.

(** The mass on "dead" one step after the point mass on a year. *)
Lemma dead_after_one agi nukes plague (y : Year) :
  amount dead
    (steps (simpleTransitionFunction (N := R) agi nukes plague) 1
       [(year y, 1)]) =
  pDead_of agi nukes plague y.
Proof.
  unfold steps, Nat.iter. cbn [nat_rect].
  rewrite amount_map by apply NoDup_step.
  rewrite mass_step. cbn [map fst snd].
  rewrite simpleTransitionFunction_year.
  cbn [amount key_eqb World_key World_eqb].
  unfold sum. cbn [fold_left]. exact_arith. lra.
Qed.

(** Two steps after it: what died in the first step, and of the mass
    that reached the next year what dies in the second. *)
Lemma dead_after_two agi nukes plague (y : Year) :
  amount dead
    (steps (simpleTransitionFunction (N := R) agi nukes plague) 2
       [(year y, 1)]) =
  pDead_of agi nukes plague y +
  pNext_of agi nukes plague y * pDead_of agi nukes plague (y + 1).
Proof.
  unfold steps, Nat.iter. cbn [nat_rect].
  rewrite amount_map by apply NoDup_step.
  rewrite mass_step.
  unfold step at 1. cbn [fold_left]. rewrite simpleTransitionFunction_year.
  cbn [fold_left accumulate get_or_zero Map_get Map_set key_eqb World_key
       World_eqb map fst snd].
  rewrite simpleTransitionFunction_year.
  cbn [simpleTransitionFunction Map_new fold_left Map_set fst snd amount
       key_eqb World_key World_eqb].
  unfold sum. cbn [fold_left]. exact_arith. lra.
Qed.

Lemma stdSigmoid_bounds (x : R) : 0 < stdSigmoid x < 1.
Proof.
  unfold stdSigmoid. exact_arith. cbn [Math_exp Rmath].
  pose proof (exp_pos (- x)) as E.
  assert (I : 0 < / (1 + exp (- x))) by (apply Rinv_0_lt_compat; lra).
  assert (J : (1 + exp (- x)) * / (1 + exp (- x)) = 1)
    by (apply Rinv_r; lra).
  unfold Rdiv. split; nra.
Qed.

Lemma pow2_pos (x : R) : 0 < Math_pow (of_Z 2) x.
Proof. cbn [Math_pow Rmath]. unfold Rpower. apply exp_pos. Qed.

(** The hazard never decreases when the acceleration grows. *)
Lemma hazard_mono (acc acc' rate : R) (doubling : Z) (y : Year) :
  0 <= rate -> acc <= acc' ->
  hazard acc rate doubling y <= hazard acc' rate doubling y.
Proof.
  intros Q L. unfold hazard. cbn [Math_min Rmath]. exact_arith.
  apply Rle_min_compat_l.
  pose proof (pow2_pos (since y 2022 doubling)) as P. exact_arith.
  apply Rmult_le_compat_r; [lra|].
  apply Rmult_le_compat_r; lra.
Qed.

Lemma hazard_capped (acc rate : R) (doubling : Z) (y : Year) :
  1 <= acc * rate * Math_pow (of_Z 2) (since y 2022 doubling) ->
  hazard acc rate doubling y = 1.
Proof.
  intro C. unfold hazard. cbn [Math_min Rmath]. exact_arith.
  now apply Rmin_left.
Qed.

Lemma hazard_free (acc rate : R) (doubling : Z) (y : Year) :
  acc * rate * Math_pow (of_Z 2) (since y 2022 doubling) <= 1 ->
  hazard acc rate doubling y =
  acc * rate * Math_pow (of_Z 2) (since y 2022 doubling).
Proof.
  intro C. unfold hazard. cbn [Math_min Rmath]. exact_arith.
  now apply Rmin_right.
Qed.

Lemma acceleration_values :
  accelerationFromWorking (N := R) false = 1 /\
  accelerationFromWorking (N := R) true = 1 + / 10000000.
Proof.
  unfold accelerationFromWorking, dec. exact_arith. simpl. split; lra.
Qed.

(** The ensemble [buildModels] returns, entry by entry. *)
Lemma buildModels_entries (work : bool) :
  buildModels (N := R) work =
  let acc := accelerationFromWorking work in
  [ (simpleTransitionFunction (agiDoomed acc) nukesModel plagueModel, 5 / 32);
    (simpleTransitionFunction (agiDoomed acc) nukesModel plagueNever, 5 / 32);
    (simpleTransitionFunction (agiChristiano acc) nukesModel plagueModel,
     5 / 32);
    (simpleTransitionFunction (agiChristiano acc) nukesModel plagueNever,
     5 / 32);
    (simpleTransitionFunction (agiHard acc) nukesModel plagueModel, 5 / 32);
    (simpleTransitionFunction (agiHard acc) nukesModel plagueNever, 5 / 32);
    (simpleTransitionFunction (agiWayHarder acc) nukesModel plagueModel,
     1 / 32);
    (simpleTransitionFunction (agiWayHarder acc) nukesModel plagueNever,
     1 / 32) ].
Proof.
  unfold buildModels, normalize, agiEntries, nukesEntries, plagueEntries.
  cbn [flat_map map app fst snd values]. cbv zeta.
  repeat (f_equal; try (unfold sum, dec; simpl; lra)).
Qed.

Lemma dead_mass_at_spec (work : bool) (start : Year) (n i : nat) :
  (i < n)%nat ->
  dead_mass_at work start n i =
  Some (get_or_zero dead
          (mix (reached (year start) (buildModels (N := R) work) i))).
Proof.
  intro L. unfold dead_mass_at.
  rewrite extrapolateAndMix_spec
    by (rewrite buildModels_entries; discriminate).
  rewrite nth_error_map, nth_error_seq.
  destruct (Nat.ltb i n) eqn:E; [reflexivity|].
  apply Nat.ltb_ge in E. lia.
Qed.

Lemma reached_totalWeight (start : World) (work : bool) (i : nat) :
  mix_totalWeight (reached start (buildModels (N := R) work) i) = 1.
Proof.
  rewrite mix_totalWeight_R. unfold reached. rewrite map_map.
  rewrite buildModels_entries. cbn [map fst snd]. unfold sum. simpl. lra.
Qed.

(** The share of an AGI event that goes to "dead" is never negative. *)
Lemma agi_dead_share_nonneg (o : AGIOdds R) :
  0 <= agi_dead o ->
  0 < agi_heaven o + agi_dead o + agi_reset o ->
  0 <= pFromOdds o (@agi_dead R).
Proof.
  intros D S. unfold pFromOdds, sum.
  cbn [Object_values AGIOdds_values fold_left].
  exact_arith. apply Rle_mult_inv_pos; lra.
Qed.

Ltac sigmoid_facts :=
  repeat match goal with
  | |- context [stdSigmoid ?x] =>
      let s := fresh "s" in
      let B := fresh "B" in
      pose proof (stdSigmoid_bounds x) as B;
      set (s := stdSigmoid x) in *; clearbody s
  end.

Lemma agiDoomed_dead_share (acc : R) (y : Year) :
  0 <= pFromOdds (odds (agiDoomed acc y)) (@agi_dead R).
Proof.
  apply agi_dead_share_nonneg;
    cbn [odds agiDoomed agi_heaven agi_dead agi_reset];
    exact_arith; sigmoid_facts; lra.
Qed.

Lemma agiChristiano_dead_share (acc : R) (y : Year) :
  0 <= pFromOdds (odds (agiChristiano acc y)) (@agi_dead R).
Proof.
  apply agi_dead_share_nonneg;
    cbn [odds agiChristiano agi_heaven agi_dead agi_reset];
    exact_arith; sigmoid_facts; lra.
Qed.

Lemma agiHard_dead_share (acc : R) (y : Year) :
  0 <= pFromOdds (odds (agiHard acc y)) (@agi_dead R).
Proof.
  apply agi_dead_share_nonneg; cbn [odds agiHard agi_heaven agi_dead agi_reset];
    exact_arith; sigmoid_facts; lra.
Qed.

Lemma agiWayHarder_dead_share (acc : R) (y : Year) :
  0 <= pFromOdds (odds (agiWayHarder acc y)) (@agi_dead R).
Proof.
  apply agi_dead_share_nonneg;
    cbn [odds agiWayHarder agi_heaven agi_dead agi_reset];
    exact_arith; sigmoid_facts; lra.
Qed.

(** A larger AGI probability with the same odds gives "dead" at least as
    much in one step. *)
Lemma pDead_of_mono (agi agi' : SimpleAGIModel) (nukes : SimpleNukeModel)
  (plague : SimplePlagueModel) (y : Year) :
  odds (agi y) = odds (agi' y) ->
  p (agi y) <= p (agi' y) ->
  0 <= pFromOdds (odds (agi y)) (@agi_dead R) ->
  pDead_of agi nukes plague y <= pDead_of agi' nukes plague y.
Proof.
  intros O P S. unfold pDead_of. rewrite <- O. exact_arith.
  pose proof (Rmult_le_compat_r _ _ _ S P). lra.
Qed.

Lemma agiDoomed_accelerated (acc acc' : R) nukes plague (y : Year) :
  acc <= acc' ->
  pDead_of (agiDoomed acc) nukes plague y <=
  pDead_of (agiDoomed acc') nukes plague y.
Proof.
  intro A. apply pDead_of_mono.
  - reflexivity.
  - apply hazard_mono; [unfold dec; simpl; lra | exact A].
  - apply agiDoomed_dead_share.
Qed.

Lemma agiChristiano_accelerated (acc acc' : R) nukes plague (y : Year) :
  acc <= acc' ->
  pDead_of (agiChristiano acc) nukes plague y <=
  pDead_of (agiChristiano acc') nukes plague y.
Proof.
  intro A. apply pDead_of_mono.
  - reflexivity.
  - apply hazard_mono; [unfold dec; simpl; lra | exact A].
  - apply agiChristiano_dead_share.
Qed.

Lemma agiHard_accelerated (acc acc' : R) nukes plague (y : Year) :
  acc <= acc' ->
  pDead_of (agiHard acc) nukes plague y <=
  pDead_of (agiHard acc') nukes plague y.
Proof.
  intro A. apply pDead_of_mono.
  - reflexivity.
  - apply hazard_mono; [unfold dec; simpl; lra | exact A].
  - apply agiHard_dead_share.
Qed.

Lemma agiWayHarder_accelerated (acc acc' : R) nukes plague (y : Year) :
  acc <= acc' ->
  pDead_of (agiWayHarder acc) nukes plague y <=
  pDead_of (agiWayHarder acc') nukes plague y.
Proof.
  intro A. apply pDead_of_mono.
  - reflexivity.
  - apply hazard_mono; [unfold dec; simpl; lra | exact A].
  - apply agiWayHarder_dead_share.
Qed.

Lemma acceleration_le :
  accelerationFromWorking (N := R) false <=
  accelerationFromWorking (N := R) true.
Proof. destruct acceleration_values as [-> ->]. lra. Qed.

Lemma since_le (y y' : Year) (a b : Z) :
  (0 < b)%Z -> (y <= y')%Z -> since (N := R) y a b <= since y' a b.
Proof.
  intros B L. unfold since. exact_arith.
  apply IZR_le in L. apply IZR_lt in B.
  unfold Rdiv. apply Rmult_le_compat_r; [|lra].
  apply Rlt_le, Rinv_0_lt_compat, B.
Qed.

Lemma pow2_mono (x x' : R) :
  x <= x' -> Math_pow (of_Z 2) x <= Math_pow (of_Z 2) x'.
Proof. intro L. cbn [Math_pow Rmath]. exact_arith. apply Rle_Rpower; lra. Qed.

Lemma pow2_nat (k : nat) : Math_pow (of_Z 2) (INR k) = 2 ^ k.
Proof. cbn [Math_pow Rmath]. exact_arith. apply Rpower_pow. lra. Qed.

(** From 2100 on, a hazard of rate at least 0.02 that doubles every
    decade has reached the cap 1. *)
Lemma hazard_decade_capped (acc rate : R) (y : Year) :
  1 <= acc -> / 50 <= rate -> (2100 <= y)%Z ->
  hazard acc rate 10 y = 1.
Proof.
  intros A Q L. apply hazard_capped.
  set (X := Math_pow (of_Z 2) (since y 2022 10)).
  assert (P : 64 <= X).
  { subst X. replace 64 with (2 ^ 6) by lra. rewrite <- pow2_nat.
    apply pow2_mono.
    apply Rle_trans with (since (N := R) 2100%Z 2022%Z 10%Z).
    - unfold since. exact_arith. simpl. lra.
    - apply since_le; [lia | exact L]. }
  assert (1 <= rate * X) by nra.
  rewrite Rmult_assoc. nra.
Qed.

(** The transition function reads its AGI sub-model at the year only. *)
Lemma two_steps_ext (agi agi' : SimpleAGIModel (N := R)) nukes plague
  (y : Year) :
  agi y = agi' y -> agi (y + 1)%Z = agi' (y + 1)%Z ->
  pDead_of agi nukes plague y +
    pNext_of agi nukes plague y * pDead_of agi nukes plague (y + 1)%Z =
  pDead_of agi' nukes plague y +
    pNext_of agi' nukes plague y * pDead_of agi' nukes plague (y + 1)%Z.
Proof.
  intros E E'. unfold pNext_of, pHeaven_of, pDead_of, pReset_of.
  now rewrite E, E'.
Qed.

Lemma agiDoomed_capped (acc acc' : R) (y : Year) :
  1 <= acc -> 1 <= acc' -> (2100 <= y)%Z ->
  agiDoomed acc y = agiDoomed acc' y.
Proof.
  intros A A' L. unfold agiDoomed.
  rewrite !hazard_decade_capped; trivial; unfold dec; simpl; lra.
Qed.

Lemma agiChristiano_capped (acc acc' : R) (y : Year) :
  1 <= acc -> 1 <= acc' -> (2100 <= y)%Z ->
  agiChristiano acc y = agiChristiano acc' y.
Proof.
  intros A A' L. unfold agiChristiano.
  rewrite !hazard_decade_capped; trivial; unfold dec; simpl; lra.
Qed.

Lemma agiHard_capped (acc acc' : R) (y : Year) :
  1 <= acc -> 1 <= acc' -> (2100 <= y)%Z ->
  agiHard acc y = agiHard acc' y.
Proof.
  intros A A' L. unfold agiHard.
  rewrite !hazard_decade_capped; trivial; unfold dec; simpl; lra.
Qed.

(** The heaven-only sub-model sends none of its probability to "dead",
    so its [pDead] is that of nukes and plague alone. *)
Lemma agiWayHarder_dead (acc acc' : R) nukes plague (y : Year) :
  pDead_of (agiWayHarder acc) nukes plague y =
  pDead_of (agiWayHarder acc') nukes plague y.
Proof.
  unfold pDead_of, pFromOdds. cbn [p odds agiWayHarder agi_dead].
  exact_arith. unfold Rdiv. rewrite !Rmult_0_l, !Rmult_0_r. reflexivity.
Qed.

(** What it adds to its hazard leaves the mass of the next year. *)
Lemma agiWayHarder_next (acc acc' : R) nukes plague (y : Year) :
  pNext_of (agiWayHarder acc) nukes plague y -
  pNext_of (agiWayHarder acc') nukes plague y =
  hazard acc' (dec 1 3) 30 y - hazard acc (dec 1 3) 30 y.
Proof.
  unfold pNext_of, pHeaven_of, pDead_of, pReset_of, pFromOdds, sum.
  cbn [p odds agiWayHarder agi_heaven agi_dead agi_reset Object_values
       AGIOdds_values fold_left].
  exact_arith.
  pose proof (stdSigmoid_bounds (since y 2080 20)) as B. exact_arith.
  set (s := stdSigmoid _) in *.
  replace (0 + s + 0 + 0) with s by lra.
  unfold Rdiv. rewrite !Rmult_0_l, !Rmult_0_r, Rinv_r by lra. lra.
Qed.

Lemma hazard_2100 (acc : R) :
  0 <= acc <= 2 ->
  hazard acc (dec 1 3) 30 2100 =
  acc * dec 1 3 * Math_pow (of_Z 2) (since 2100%Z 2022%Z 30%Z).
Proof.
  intro A. apply hazard_free.
  set (X := Math_pow (of_Z 2) (since 2100%Z 2022%Z 30%Z)).
  assert (P : 0 < X <= 8).
  { split; [apply pow2_pos|]. subst X.
    replace 8 with (2 ^ 3) by lra. rewrite <- pow2_nat.
    apply pow2_mono. unfold since. exact_arith. simpl. lra. }
  unfold dec. exact_arith. simpl.
  assert (acc * X <= 16) by nra. lra.
Qed.

Lemma nukes_plague_dead_pos (acc : R) (plague : SimplePlagueModel) (y : Year) :
  plague = plagueModel \/ plague = plagueNever ->
  0 < pDead_of (agiWayHarder acc) nukesModel plague y.
Proof.
  intros [-> | ->]; unfold pDead_of, pFromOdds, sum, dec;
    cbn [p odds agiWayHarder nukesModel plagueModel plagueNever agi_dead
         hz_dead hz_reset Object_values AGIOdds_values HazardOdds_values
         fold_left];
    exact_arith; unfold Rdiv; rewrite !Rmult_0_l, !Rmult_0_r; simpl; lra.
Qed.

(** Two steps from 2100 under the heaven-only sub-model: the mass on
    "dead" is smaller with the acceleration factor. *)
Lemma agiWayHarder_two_steps (plague : SimplePlagueModel) :
  plague = plagueModel \/ plague = plagueNever ->
  let dead2 (work : bool) :=
    let agi := agiWayHarder (accelerationFromWorking work) in
    pDead_of agi nukesModel plague 2100 +
    pNext_of agi nukesModel plague 2100 *
    pDead_of agi nukesModel plague (2100 + 1) in
  dead2 true < dead2 false.
Proof.
  intros C dead2. subst dead2. cbv zeta.
  destruct acceleration_values as [-> ->].
  remember (1 + / 10000000) as a eqn:A.
  pose proof (agiWayHarder_dead a 1 nukesModel plague 2100) as D0.
  pose proof (agiWayHarder_dead a 1 nukesModel plague (2100 + 1)) as D1.
  pose proof (agiWayHarder_next a 1 nukesModel plague 2100) as N0.
  pose proof (nukes_plague_dead_pos 1 (2100 + 1) C) as P.
  rewrite !hazard_2100 in N0 by lra.
  pose proof (pow2_pos (since 2100 2022 30)) as X.
  rewrite D0, D1.
  set (c := pDead_of (agiWayHarder 1) nukesModel plague (2100 + 1)) in *.
  set (x := Math_pow (of_Z 2) (since 2100 2022 30)) in *.
  assert (R3 : 0 < dec (N := R) 1 3) by (unfold dec; simpl; lra).
  set (r := dec 1 3) in *.
  assert (0 < r * x) by nra.
  subst a. nra.
Qed.

Ltac dominated_entry :=
  unfold dominated; cbn [fst snd];
  split; [reflexivity | split; [lra|]].

Ltac first_step lem :=
  dominated_entry; rewrite !dead_after_one; apply lem;
  exact acceleration_le.

(** Whatever the start year, the mass on "dead" at the trajectory
    indices 0 and 1 is, with the acceleration factor, at least what it is
    without: after one step only the hazard rates have acted, and they
    only grow. *)
Lemma acceleration_first_step (start : Year) (n i : nat) :
  (i < n)%nat -> (i <= 1)%nat ->
  exists a b,
    dead_mass_at true start n i = Some a /\
    dead_mass_at false start n i = Some b /\
    b <= a.
Proof.
  intros L I. rewrite !dead_mass_at_spec by exact L.
  do 2 eexists. split; [reflexivity|]. split; [reflexivity|].
  apply mass_mix_le; [rewrite reached_totalWeight; lra|].
  rewrite !buildModels_entries. unfold reached. cbv zeta. cbn [map fst snd].
  destruct i as [|[|i]]; [| |lia].
  - repeat (apply Forall2_cons;
              [dominated_entry; rewrite !steps_zero; apply Rle_refl|]).
    apply Forall2_nil.
  - apply Forall2_cons; [first_step agiDoomed_accelerated|].
    apply Forall2_cons; [first_step agiDoomed_accelerated|].
    apply Forall2_cons; [first_step agiChristiano_accelerated|].
    apply Forall2_cons; [first_step agiChristiano_accelerated|].
    apply Forall2_cons; [first_step agiHard_accelerated|].
    apply Forall2_cons; [first_step agiHard_accelerated|].
    apply Forall2_cons; [first_step agiWayHarder_accelerated|].
    apply Forall2_cons; [first_step agiWayHarder_accelerated|].
    apply Forall2_nil.
Qed.

Lemma acceleration_ge_1 (work : bool) :
  1 <= accelerationFromWorking (N := R) work.
Proof. destruct acceleration_values as [F W], work; rewrite ?F, ?W; lra. Qed.

Ltac capped_entry lem :=
  unfold dominated; cbn [fst snd];
  split; [reflexivity | split; [lra|]];
  rewrite !dead_after_two; apply Req_le, two_steps_ext;
  apply lem; solve [apply acceleration_ge_1 | lia].

Ltac free_entry :=
  unfold dominated; cbn [fst snd];
  split; [reflexivity | split; [lra|]];
  rewrite !dead_after_two; apply Rlt_le;
  apply agiWayHarder_two_steps; auto.

(** The start year matters to the order of the two runs.  From the year
    2100 the first three AGI sub-models are at the cap 1 with the factor
    and without it; the fourth, which sends all of its probability to
    "heaven", still accelerates and leaves less mass for nukes and plague
    to kill: two steps on, the ensemble has less mass on "dead" with the
    acceleration factor than without it. *)
Lemma dead_mass_from_2100 :
  exists a b,
    dead_mass_at true 2100 3 2 = Some a /\
    dead_mass_at false 2100 3 2 = Some b /\
    a < b.
Proof.
  rewrite !dead_mass_at_spec by lia.
  do 2 eexists. split; [reflexivity|]. split; [reflexivity|].
  assert (Forall2 (dominated dead)
            (reached (year 2100) (buildModels (N := R) true) 2)
            (reached (year 2100) (buildModels (N := R) false) 2)) as D.
  { rewrite !buildModels_entries. unfold reached. cbv zeta.
    cbn [map fst snd].
    apply Forall2_cons; [capped_entry agiDoomed_capped|].
    apply Forall2_cons; [capped_entry agiDoomed_capped|].
    apply Forall2_cons; [capped_entry agiChristiano_capped|].
    apply Forall2_cons; [capped_entry agiChristiano_capped|].
    apply Forall2_cons; [capped_entry agiHard_capped|].
    apply Forall2_cons; [capped_entry agiHard_capped|].
    apply Forall2_cons; [free_entry|].
    apply Forall2_cons; [free_entry|].
    apply Forall2_nil. }
  apply (mass_mix_lt 6
           (ew := (steps (simpleTransitionFunction
                            (agiWayHarder (accelerationFromWorking true))
                            nukesModel plagueModel) 2 [(year 2100, 1)],
                   1 / 32))
           (ew' := (steps (simpleTransitionFunction
                            (agiWayHarder (accelerationFromWorking false))
                            nukesModel plagueModel) 2 [(year 2100, 1)],
                   1 / 32))).
  - rewrite reached_totalWeight. lra.
  - exact D.
  - rewrite buildModels_entries. reflexivity.
  - rewrite buildModels_entries. reflexivity.
  - cbn [snd]. lra.
  - cbn [fst]. rewrite !dead_after_two.
    apply agiWayHarder_two_steps. now left.
Qed.

End Acceleration.

(** ** The two runs of the program, index by index

    [App.tsx] runs the ensemble of [buildModels] from 2022, with the
    acceleration factor and without it.  The masses the two runs give to
    "dead" are compared at every index by following each of the eight
    models year by year between two bounds. *)

(** ** Enclosures: fixed-point bounds on real numbers

    The comparison of the two domain runs is settled by bounding the
    masses of both from the two sides.  An enclosure is a pair of
    integers that stand for multiples of [2 ^ - precision]; every
    operation rounds its lower end down and its upper end up. *)

Definition precision : Z := 72.
Definition scale : Z := 2 ^ precision.

Record Enclosure : Type := { lower : Z; upper : Z }.

Definition div_down (a b : Z) : Z := (a / b)%Z.
Definition div_up (a b : Z) : Z := (- ((- a) / b))%Z.
Definition shift_down (a : Z) : Z := Z.shiftr a precision.
Definition shift_up (a : Z) : Z := (- Z.shiftr (- a) precision)%Z.

Definition e_exact (z : Z) : Enclosure := {| lower := z; upper := z |}.

Definition e_one : Enclosure := e_exact scale.

(** The fraction [m / d]. *)
Definition e_ratio (m d : Z) : Enclosure :=
  {| lower := div_down (m * scale) d; upper := div_up (m * scale) d |}.

Definition e_add (a b : Enclosure) : Enclosure :=
  {| lower := lower a + lower b; upper := upper a + upper b |}.

Definition e_sub (a b : Enclosure) : Enclosure :=
  {| lower := lower a - upper b; upper := upper a - lower b |}.

Definition e_mul (a b : Enclosure) : Enclosure :=
  if ((0 <=? lower a) && (0 <=? lower b))%Z then
    {| lower := shift_down (lower a * lower b);
       upper := shift_up (upper a * upper b) |}
  else
    let ll := (lower a * lower b)%Z in
    let lu := (lower a * upper b)%Z in
    let ul := (upper a * lower b)%Z in
    let uu := (upper a * upper b)%Z in
    {| lower := shift_down (Z.min (Z.min ll lu) (Z.min ul uu));
       upper := shift_up (Z.max (Z.max ll lu) (Z.max ul uu)) |}.

(** The inverse of a positive number. *)
Definition e_inv (a : Enclosure) : Enclosure :=
  {| lower := div_down (scale * scale) (upper a);
     upper := div_up (scale * scale) (lower a) |}.

(** [Math.min(1, a)] *)
Definition e_min1 (a : Enclosure) : Enclosure :=
  {| lower := Z.min scale (lower a); upper := Z.min scale (upper a) |}.

Definition e_pow (a : Enclosure) (n : nat) : Enclosure :=
  Nat.iter n (fun e => e_mul e a) e_one.

(** [exp (- 1 / d)], from [1 - h <= exp (- h) <= 1 / (1 + h)] at
    [h = 1 / (d * 2 ^ n)], squared [n] times. *)
Definition e_exp_neg (d : Z) (n : nat) : Enclosure :=
  let h := e_ratio 1 (d * 2 ^ Z.of_nat n) in
  Nat.iter n (fun e => e_mul e e)
    {| lower := lower (e_sub e_one h);
       upper := upper (e_inv (e_add e_one h)) |}.

(** The largest absolute value an enclosure allows. *)
Definition e_size (a : Enclosure) : Z :=
  Z.max (Z.abs (lower a)) (Z.abs (upper a)).

(** The enclosure [a] widened by [w] on both sides. *)
Definition e_widen (a : Enclosure) (w : Z) : Enclosure :=
  {| lower := lower a - w; upper := upper a + w |}.

Definition Encloses (e : Enclosure) (x : R) : Prop :=
  (IZR (lower e) <= x * IZR scale <= IZR (upper e))%R.

Section Enclosures.
Local Open Scope R_scope.

Lemma scale_positive : (0 < scale)%Z.
Proof. reflexivity. Qed.

Lemma scale_pos : 0 < IZR scale.
Proof. apply IZR_lt, scale_positive. Qed.

Lemma div_down_le (a b : Z) :
  (0 < b)%Z -> IZR (div_down a b) * IZR b <= IZR a.
Proof.
  intro B. unfold div_down. rewrite <- mult_IZR. apply IZR_le.
  rewrite Z.mul_comm. apply Z.mul_div_le, B.
Qed.

Lemma div_up_ge (a b : Z) :
  (0 < b)%Z -> IZR a <= IZR (div_up a b) * IZR b.
Proof.
  intro B. unfold div_up. rewrite <- mult_IZR. apply IZR_le.
  pose proof (Z.mul_div_le (- a) b B). lia.
Qed.

Lemma shift_down_le (a : Z) : IZR (shift_down a) * IZR scale <= IZR a.
Proof.
  unfold shift_down. rewrite Z.shiftr_div_pow2 by (unfold precision; lia).
  apply (div_down_le a scale_positive).
Qed.

Lemma shift_up_ge (a : Z) : IZR a <= IZR (shift_up a) * IZR scale.
Proof.
  unfold shift_up. rewrite Z.shiftr_div_pow2 by (unfold precision; lia).
  apply (div_up_ge a scale_positive).
Qed.

Lemma encloses_exact (z : Z) : Encloses (e_exact z) (IZR z / IZR scale).
Proof.
  pose proof scale_pos as S. unfold Encloses, e_exact. cbn [lower upper].
  replace (IZR z / IZR scale * IZR scale) with (IZR z) by (field; lra).
  lra.
Qed.

Lemma encloses_zero : Encloses (e_exact 0) 0.
Proof. unfold Encloses, e_exact. cbn [lower upper]. lra. Qed.

Lemma encloses_one : Encloses e_one 1.
Proof. unfold Encloses, e_one, e_exact. cbn [lower upper]. lra. Qed.

Lemma encloses_ratio (m d : Z) :
  (0 < d)%Z -> Encloses (e_ratio m d) (IZR m / IZR d).
Proof.
  intro D. pose proof (IZR_lt _ _ D) as D'.
  pose proof (div_down_le (m * scale) D) as L.
  pose proof (div_up_ge (m * scale) D) as U.
  rewrite mult_IZR in L, U.
  unfold Encloses, e_ratio. cbn [lower upper].
  set (l := IZR (div_down (m * scale) d)) in *.
  set (u := IZR (div_up (m * scale) d)) in *.
  replace (IZR m / IZR d * IZR scale) with (IZR m * IZR scale / IZR d)
    by (field; lra).
  split.
  - apply Rmult_le_reg_r with (IZR d); [exact D'|].
    replace (IZR m * IZR scale / IZR d * IZR d) with (IZR m * IZR scale)
      by (field; lra).
    exact L.
  - apply Rmult_le_reg_r with (IZR d); [exact D'|].
    replace (IZR m * IZR scale / IZR d * IZR d) with (IZR m * IZR scale)
      by (field; lra).
    exact U.
Qed.

Lemma encloses_add a b x y :
  Encloses a x -> Encloses b y -> Encloses (e_add a b) (x + y).
Proof.
  unfold Encloses, e_add. cbn [lower upper]. rewrite !plus_IZR. lra.
Qed.

Lemma encloses_sub a b x y :
  Encloses a x -> Encloses b y -> Encloses (e_sub a b) (x - y).
Proof.
  unfold Encloses, e_sub. cbn [lower upper]. rewrite !minus_IZR. lra.
Qed.

(** A product lies between the products of the ends. *)
Lemma product_above (l1 h1 l2 h2 x y : R) :
  l1 <= x <= h1 -> l2 <= y <= h2 ->
  l1 * l2 <= x * y \/ l1 * h2 <= x * y \/
  h1 * l2 <= x * y \/ h1 * h2 <= x * y.
Proof.
  intros X Y.
  destruct (Rle_dec 0 y) as [P | P].
  - destruct (Rle_dec 0 l1) as [Q | Q].
    + left. nra.
    + right. left. nra.
  - destruct (Rle_dec 0 h1) as [Q | Q].
    + right. right. left. nra.
    + right. right. right. nra.
Qed.

Lemma product_below (l1 h1 l2 h2 x y : R) :
  l1 <= x <= h1 -> l2 <= y <= h2 ->
  x * y <= l1 * l2 \/ x * y <= l1 * h2 \/
  x * y <= h1 * l2 \/ x * y <= h1 * h2.
Proof.
  intros X Y.
  destruct (Rle_dec 0 y) as [P | P].
  - destruct (Rle_dec 0 h1) as [Q | Q].
    + right. right. right. nra.
    + right. right. left. nra.
  - destruct (Rle_dec 0 l1) as [Q | Q].
    + right. left. nra.
    + left. nra.
Qed.

Lemma encloses_mul a b x y :
  Encloses a x -> Encloses b y -> Encloses (e_mul a b) (x * y).
Proof.
  pose proof scale_pos as S. unfold Encloses. intros X Y.
  set (X' := x * IZR scale) in *. set (Y' := y * IZR scale) in *.
  assert (E : x * y * IZR scale * IZR scale = X' * Y')
    by (subst X' Y'; ring).
  unfold e_mul.
  destruct ((0 <=? lower a)%Z && (0 <=? lower b)%Z) eqn:G; cbn [lower upper].
  - apply andb_prop in G. destruct G as [A B].
    apply Z.leb_le, IZR_le in A. apply Z.leb_le, IZR_le in B.
    pose proof (shift_down_le (lower a * lower b)) as L.
    pose proof (shift_up_ge (upper a * upper b)) as U.
    rewrite mult_IZR in L, U.
    split; apply Rmult_le_reg_r with (IZR scale); trivial; rewrite E.
    + apply Rle_trans with (IZR (lower a) * IZR (lower b)); [exact L|].
      apply Rmult_le_compat; lra.
    + apply Rle_trans with (IZR (upper a) * IZR (upper b)); [|exact U].
      apply Rmult_le_compat; lra.
  - set (ll := (lower a * lower b)%Z). set (lu := (lower a * upper b)%Z).
    set (ul := (upper a * lower b)%Z). set (uu := (upper a * upper b)%Z).
    pose proof (shift_down_le (Z.min (Z.min ll lu) (Z.min ul uu))) as L.
    pose proof (shift_up_ge (Z.max (Z.max ll lu) (Z.max ul uu))) as U.
    assert (Lll : IZR (Z.min (Z.min ll lu) (Z.min ul uu)) <= IZR ll)
      by (apply IZR_le; lia).
    assert (Llu : IZR (Z.min (Z.min ll lu) (Z.min ul uu)) <= IZR lu)
      by (apply IZR_le; lia).
    assert (Lul : IZR (Z.min (Z.min ll lu) (Z.min ul uu)) <= IZR ul)
      by (apply IZR_le; lia).
    assert (Luu : IZR (Z.min (Z.min ll lu) (Z.min ul uu)) <= IZR uu)
      by (apply IZR_le; lia).
    assert (Ull : IZR ll <= IZR (Z.max (Z.max ll lu) (Z.max ul uu)))
      by (apply IZR_le; lia).
    assert (Ulu : IZR lu <= IZR (Z.max (Z.max ll lu) (Z.max ul uu)))
      by (apply IZR_le; lia).
    assert (Uul : IZR ul <= IZR (Z.max (Z.max ll lu) (Z.max ul uu)))
      by (apply IZR_le; lia).
    assert (Uuu : IZR uu <= IZR (Z.max (Z.max ll lu) (Z.max ul uu)))
      by (apply IZR_le; lia).
    subst ll lu ul uu. rewrite !mult_IZR in *.
    pose proof (product_above X Y) as PA.
    pose proof (product_below X Y) as PB.
    split; apply Rmult_le_reg_r with (IZR scale); trivial; rewrite E.
    + destruct PA as [P | [P | [P | P]]]; lra.
    + destruct PB as [P | [P | [P | P]]]; lra.
Qed.

Lemma encloses_inv a x :
  (0 < lower a)%Z -> Encloses a x -> Encloses (e_inv a) (/ x).
Proof.
  pose proof scale_pos as S. unfold Encloses. intros A X.
  pose proof (IZR_lt _ _ A) as A'.
  assert (P : 0 < x * IZR scale) by lra.
  assert (Px : 0 < x) by nra.
  assert (H : (0 < upper a)%Z) by (apply lt_IZR; lra).
  pose proof (div_down_le (scale * scale) H) as L.
  pose proof (div_up_ge (scale * scale) A) as U.
  assert (L0 : 0 <= IZR (div_down (scale * scale) (upper a))).
  { apply IZR_le, Z.div_pos; [|exact H]. pose proof scale_positive. nia. }
  rewrite mult_IZR in L, U.
  unfold e_inv. cbn [lower upper].
  set (l := IZR (div_down (scale * scale) (upper a))) in *.
  set (u := IZR (div_up (scale * scale) (lower a))) in *.
  assert (I : / x * IZR scale * (x * IZR scale) = IZR scale * IZR scale)
    by (field; lra).
  set (v := / x * IZR scale) in *. set (X' := x * IZR scale) in *.
  assert (U0 : 0 <= u) by nra.
  split; apply Rmult_le_reg_r with X'; trivial; rewrite I.
  - apply Rle_trans with (l * IZR (upper a)); [|exact L].
    apply Rmult_le_compat_l; lra.
  - apply Rle_trans with (u * IZR (lower a)); [exact U|].
    apply Rmult_le_compat_l; lra.
Qed.

Lemma encloses_min1 a x : Encloses a x -> Encloses (e_min1 a) (Rmin 1 x).
Proof.
  pose proof scale_pos as S. unfold Encloses, e_min1. cbn [lower upper].
  intro X.
  assert (Ll : IZR (Z.min scale (lower a)) <= IZR scale)
    by (apply IZR_le; lia).
  assert (La : IZR (Z.min scale (lower a)) <= IZR (lower a))
    by (apply IZR_le; lia).
  assert (U : IZR (Z.min scale (upper a)) = IZR scale \/
              IZR (Z.min scale (upper a)) = IZR (upper a))
    by (destruct (Z.min_spec scale (upper a)) as [[_ ->] | [_ ->]]; auto).
  assert (Ul : IZR (Z.min scale (upper a)) <= IZR scale)
    by (apply IZR_le; lia).
  assert (Ua : IZR (Z.min scale (upper a)) <= IZR (upper a))
    by (apply IZR_le; lia).
  unfold Rmin. destruct (Rle_dec 1 x) as [C | C].
  - split; [lra|]. destruct U as [-> | ->]; nra.
  - split; [lra|]. destruct U as [-> | ->]; nra.
Qed.

Lemma encloses_pow a x (n : nat) :
  Encloses a x -> Encloses (e_pow a n) (x ^ n).
Proof.
  intro X. unfold e_pow. induction n as [|n IH]; cbn [Nat.iter nat_rect pow].
  - apply encloses_one.
  - rewrite Rmult_comm. now apply encloses_mul.
Qed.

Lemma exp_double (y : R) (n : nat) :
  exp (y * 2 ^ S n) = exp (y * 2 ^ n) * exp (y * 2 ^ n).
Proof. rewrite <- exp_plus. f_equal. simpl. lra. Qed.

Lemma encloses_squares (n : nat) e y :
  Encloses e (exp y) ->
  Encloses (Nat.iter n (fun e => e_mul e e) e) (exp (y * 2 ^ n)).
Proof.
  intro E. induction n as [|n IH].
  - cbn [Nat.iter nat_rect pow]. now rewrite Rmult_1_r.
  - rewrite exp_double. cbn [Nat.iter nat_rect].
    now apply encloses_mul.
Qed.

Lemma encloses_exp_neg (d : Z) (n : nat) :
  (0 < d)%Z ->
  Encloses (e_exp_neg d n) (exp (- / IZR d)).
Proof.
  intro D. pose proof (IZR_lt _ _ D) as D'.
  assert (P : 0 < 2 ^ n) by (apply pow_lt; lra).
  set (h := IZR 1 / IZR (d * 2 ^ Z.of_nat n)).
  assert (Q : (0 < d * 2 ^ Z.of_nat n)%Z) by lia.
  assert (Eh : h = / (IZR d * 2 ^ n)).
  { subst h. rewrite mult_IZR, <- pow_IZR. unfold Rdiv. now rewrite Rmult_1_l. }
  assert (Hp : 0 < h).
  { rewrite Eh. apply Rinv_0_lt_compat. nra. }
  pose proof (encloses_ratio 1 Q) as H. fold h in H.
  replace (- / IZR d) with (- h * 2 ^ n) by (rewrite Eh; field; lra).
  unfold e_exp_neg. apply encloses_squares.
  pose proof (encloses_sub encloses_one H) as Lo.
  assert (A : (0 < lower (e_add e_one (e_ratio 1 (d * 2 ^ Z.of_nat n))))%Z).
  { cbn [e_add e_one e_exact e_ratio lower]. unfold div_down.
    pose proof scale_positive.
    assert (0 <= 1 * scale / (d * 2 ^ Z.of_nat n))%Z
      by (apply Z.div_pos; lia).
    lia. }
  pose proof (encloses_inv A (encloses_add encloses_one H)) as Hi.
  unfold Encloses in *. cbn [lower upper].
  pose proof scale_pos as S.
  pose proof (exp_ineq1_le (- h)) as L1.
  pose proof (exp_ineq1_le h) as L2.
  pose proof (exp_pos h) as L3.
  assert (L4 : exp (- h) = / exp h) by apply exp_Ropp.
  assert (L5 : / exp h <= / (1 + h))
    by (apply Rinv_le_contravar; lra).
  split.
  - apply Rle_trans with ((1 - h) * IZR scale); [lra|]. nra.
  - apply Rle_trans with (/ (1 + h) * IZR scale); [|lra]. nra.
Qed.

Lemma exp_times (n : nat) (y : R) : exp (INR n * y) = exp y ^ n.
Proof.
  induction n as [|n IH].
  - simpl. rewrite Rmult_0_l. apply exp_0.
  - rewrite S_INR, Rmult_plus_distr_r, Rmult_1_l, exp_plus, IH. simpl. ring.
Qed.

Lemma pow_strict (x y : R) (n : nat) :
  0 <= x < y -> x ^ S n < y ^ S n.
Proof.
  intro L. induction n as [|n IH].
  - simpl. lra.
  - change (x ^ S (S n)) with (x * x ^ S n).
    change (y ^ S (S n)) with (y * y ^ S n).
    assert (0 <= x ^ S n) by (apply pow_le; lra).
    nra.
Qed.

(** The root [2 ^ (1 / n)], between two positive integers whose [n]-th
    powers lie on the two sides of [2]. *)
Lemma encloses_root (n : nat) (e : Enclosure) :
  (0 < lower e)%Z -> (0 < upper e)%Z ->
  (lower e ^ Z.of_nat (S n) <= 2 * scale ^ Z.of_nat (S n))%Z ->
  (2 * scale ^ Z.of_nat (S n) <= upper e ^ Z.of_nat (S n))%Z ->
  Encloses e (Rpower 2 (/ INR (S n))).
Proof.
  intros A B L U. pose proof scale_pos as Sp.
  apply IZR_lt in A, B.
  apply IZR_le in L, U. rewrite mult_IZR, <- !pow_IZR in L, U.
  set (r := Rpower 2 (/ INR (S n))) in *.
  assert (Rp : 0 < r) by apply exp_pos.
  assert (Rn : r ^ S n = 2).
  { subst r. rewrite <- Rpower_pow by apply exp_pos.
    rewrite Rpower_mult, Rinv_l, Rpower_1; [reflexivity|lra|].
    apply not_0_INR. lia. }
  assert (E : (r * IZR scale) ^ S n = 2 * IZR scale ^ S n)
    by (rewrite Rpow_mult_distr, Rn; reflexivity).
  assert (P : 0 < r * IZR scale) by (apply Rmult_lt_0_compat; lra).
  unfold Encloses. split.
  - destruct (Rle_dec (IZR (lower e)) (r * IZR scale)) as [G | G]; [exact G|].
    exfalso. apply Rnot_le_lt in G.
    pose proof (@pow_strict (r * IZR scale) (IZR (lower e)) n) as K. lra.
  - destruct (Rle_dec (r * IZR scale) (IZR (upper e))) as [G | G]; [exact G|].
    exfalso. apply Rnot_le_lt in G.
    pose proof (@pow_strict (IZR (upper e)) (r * IZR scale) n) as K. lra.
Qed.

End Enclosures.

(** ** One model of the ensemble, year by year

    Started on a year, a combined transition function keeps its mass on
    one year at a time: [walk next dying i] is the mass on the year
    reached after [i] steps and the mass on "dead" by then, when the
    [k]-th year passes the share [next k] on and sends [dying k] to
    "dead". *)

Fixpoint walk (next dying : nat -> R) (i : nat) : R * R :=
  match i with
  | O => (1%R, 0%R)
  | S k =>
      ((fst (walk next dying k) * next k)%R,
       (snd (walk next dying k) + fst (walk next dying k) * dying k)%R)
  end.

(** The numbers that tell the eight models of [buildModels] apart: the
    hazard [min 1 (rate * double ^ k)] in the [k]-th year, the value
    [exp0 * decay ^ k] of [Math.exp] in its sigmoid, the share of an AGI
    event that goes to "dead" as a multiple of [1 - sigmoid], and the
    probabilities of the other events, in all and to "dead". *)
Record Shape : Type := {
  s_rate : R;
  s_double : R;
  s_exp0 : R;
  s_decay : R;
  s_share : R;
  s_other : R;
  s_other_dead : R
}.

Definition shape_hazard (s : Shape) (k : nat) : R :=
  Rmin 1 (s_rate s * s_double s ^ k).

Definition shape_next (s : Shape) (k : nat) : R :=
  (1 - shape_hazard s k - s_other s)%R.

Definition shape_dying (s : Shape) (k : nat) : R :=
  (shape_hazard s k *
     (s_share s * (1 - / (1 + s_exp0 s * s_decay s ^ k))) +
   s_other_dead s)%R.

(** Enclosures of the same numbers, and of the state of the walk. *)
Record Curve : Type := {
  c_rate : Enclosure;
  c_double : Enclosure;
  c_exp0 : Enclosure;
  c_decay : Enclosure;
  c_share : Enclosure;
  c_other : Enclosure;
  c_other_dead : Enclosure
}.

Record Track : Type := {
  t_pow : Enclosure;
  t_exp : Enclosure;
  t_year : Enclosure;
  t_dead : Enclosure
}.

Definition track_start (c : Curve) : Track :=
  {| t_pow := e_one; t_exp := c_exp0 c; t_year := e_one;
     t_dead := e_exact 0 |}.

Definition track_hazard (c : Curve) (t : Track) : Enclosure :=
  e_min1 (e_mul (c_rate c) (t_pow t)).

Definition track_step (c : Curve) (t : Track) : Track :=
  let hz := track_hazard c t in
  let sigmoid := e_inv (e_add e_one (t_exp t)) in
  let share := e_mul (c_share c) (e_sub e_one sigmoid) in
  let pDead := e_add (e_mul hz share) (c_other_dead c) in
  let pNext := e_sub (e_sub e_one hz) (c_other c) in
  {| t_pow := e_mul (t_pow t) (c_double c);
     t_exp := e_mul (t_exp t) (c_decay c);
     t_year := e_mul (t_year t) pNext;
     t_dead := e_add (t_dead t) (e_mul (t_year t) pDead) |}.

(** The states of the first [n] steps. *)
Fixpoint track_from (c : Curve) (t : Track) (n : nat) : list Track :=
  t :: match n with
       | O => []
       | S n' => track_from c (track_step c t) n'
       end.

Definition track_table (c : Curve) (n : nat) : list Track :=
  track_from c (track_start c) n.

(** From the state [t] on the hazard is at its cap and the model is
    in the range where its mass on the year shrinks at every step. *)
Definition track_capped (c : Curve) (t : Track) : bool :=
  ((scale <=? lower (e_mul (c_rate c) (t_pow t))) &&
   (scale <=? lower (c_double c)) &&
   (0 <=? lower (c_rate c)) &&
   (0 <=? lower (c_share c)) && (upper (c_share c) <=? scale) &&
   (0 <=? lower (c_other c)) && (4 * upper (c_other c) <=? scale) &&
   (0 <=? lower (c_other_dead c)) &&
   (2 * upper (c_other_dead c) <=? scale))%Z.

(** Bounds on the mass on "dead" at every index, from the states of the
    first [n] steps: past them, the last one widened by twice the mass
    that is still on a year. *)
Definition dead_bounds (c : Curve) (n : nat) (table : list Track) (i : nat)
  : Enclosure :=
  if (i <=? n)%nat then t_dead (nth i table (track_start c))
  else
    let last := nth n table (track_start c) in
    e_widen (t_dead last) (2 * e_size (t_year last)).

(** The enclosures of [c] hold the numbers of [s]. *)
Definition Fits (c : Curve) (s : Shape) : Prop :=
  Encloses (c_rate c) (s_rate s) /\
  Encloses (c_double c) (s_double s) /\
  Encloses (c_exp0 c) (s_exp0 s) /\
  Encloses (c_decay c) (s_decay s) /\
  Encloses (c_share c) (s_share s) /\
  Encloses (c_other c) (s_other s) /\
  Encloses (c_other_dead c) (s_other_dead s) /\
  (0 <= lower (c_exp0 c))%Z /\ (0 <= lower (c_decay c))%Z.

Section Tracks.
Local Open Scope R_scope.
Variables (c : Curve) (s : Shape).
Hypothesis fits : Fits c s.

(** What a state of the walk encloses after [k] steps. *)
Definition Tracks (k : nat) (t : Track) : Prop :=
  Encloses (t_pow t) (s_double s ^ k) /\
  Encloses (t_exp t) (s_exp0 s * s_decay s ^ k) /\
  (0 <= lower (t_exp t))%Z /\
  Encloses (t_year t) (fst (walk (shape_next s) (shape_dying s) k)) /\
  Encloses (t_dead t) (snd (walk (shape_next s) (shape_dying s) k)).

Lemma lower_mul_nonneg (a b : Enclosure) :
  (0 <= lower a)%Z -> (0 <= lower b)%Z -> (0 <= lower (e_mul a b))%Z.
Proof.
  intros A B. unfold e_mul.
  apply Z.leb_le in A as A'. apply Z.leb_le in B as B'.
  rewrite A', B'. cbn [andb lower]. unfold shift_down.
  apply Z.shiftr_nonneg. nia.
Qed.

Lemma tracks_start : Tracks 0 (track_start c).
Proof.
  destruct fits as (_ & _ & E & _ & _ & _ & _ & P & _).
  unfold Tracks, track_start. cbn [t_pow t_exp t_year t_dead walk fst snd pow].
  rewrite Rmult_1_r.
  split; [apply encloses_one|]. split; [exact E|]. split; [exact P|].
  split; [apply encloses_one | apply encloses_zero].
Qed.

Lemma tracks_hazard (k : nat) (t : Track) :
  Tracks k t -> Encloses (track_hazard c t) (shape_hazard s k).
Proof.
  destruct fits as (Q & _). intros (P & _).
  apply encloses_min1. now apply encloses_mul.
Qed.

Lemma tracks_step (k : nat) (t : Track) :
  Tracks k t -> Tracks (S k) (track_step c t).
Proof.
  intro T. pose proof (tracks_hazard T) as H.
  destruct fits as (Q & D & E0 & Dc & Sh & O & Od & P0 & Pd).
  destruct T as (P & E & Pe & Y & Dd).
  assert (Sg : Encloses (e_inv (e_add e_one (t_exp t)))
                 (/ (1 + s_exp0 s * s_decay s ^ k))).
  { apply encloses_inv.
    - cbn [e_add e_one e_exact lower]. pose proof scale_positive. lia.
    - apply encloses_add; [apply encloses_one | exact E]. }
  unfold Tracks, track_step. cbv zeta.
  cbn [t_pow t_exp t_year t_dead walk fst snd].
  split; [|split; [|split; [|split]]].
  - rewrite <- tech_pow_Rmult, Rmult_comm. now apply encloses_mul.
  - rewrite <- tech_pow_Rmult.
    replace (s_exp0 s * (s_decay s * s_decay s ^ k))
      with (s_exp0 s * s_decay s ^ k * s_decay s) by ring.
    now apply encloses_mul.
  - now apply lower_mul_nonneg.
  - apply encloses_mul; [exact Y|].
    unfold shape_next. repeat apply encloses_sub; trivial.
    apply encloses_one.
  - apply encloses_add; [exact Dd|]. apply encloses_mul; [exact Y|].
    unfold shape_dying. apply encloses_add; [|exact Od].
    apply encloses_mul; [exact H|]. apply encloses_mul; [exact Sh|].
    apply encloses_sub; [apply encloses_one | exact Sg].
Qed.

Lemma tracks_from (n : nat) :
  forall (k : nat) (t : Track), Tracks k t ->
  forall i, (i <= n)%nat ->
  Tracks (k + i) (nth i (track_from c t n) (track_start c)).
Proof.
  induction n as [|n IH]; intros k t T i L.
  - assert (i = 0)%nat as -> by lia. cbn [track_from nth].
    now rewrite Nat.add_0_r.
  - destruct i as [|i]; cbn [track_from nth].
    + now rewrite Nat.add_0_r.
    + rewrite <- Nat.add_succ_comm. apply IH; [|lia].
      now apply tracks_step.
Qed.

Lemma tracks_table (n i : nat) :
  (i <= n)%nat -> Tracks i (nth i (track_table c n) (track_start c)).
Proof. intro L. apply (tracks_from tracks_start L). Qed.

(** Once the hazard is at its cap, it stays there. *)
Lemma capped_onwards (n k : nat) :
  track_capped c (nth n (track_table c n) (track_start c)) = true ->
  (n <= k)%nat ->
  shape_hazard s k = 1 /\
  0 <= s_share s <= 1 /\ 0 <= s_other s <= / 4 /\
  0 <= s_other_dead s <= / 2.
Proof.
  intros C L. pose proof scale_pos as Sp.
  destruct (tracks_table (Nat.le_refl n)) as (P & _).
  destruct fits as (Q & D & E0 & Dc & Sh & O & Od & P0 & Pd).
  unfold track_capped in C.
  repeat (apply andb_prop in C; destruct C as [C ?C]).
  repeat match goal with
         | H : (_ <=? _)%Z = true |- _ => apply Z.leb_le, IZR_le in H
         end.
  rewrite ?mult_IZR in *.
  pose proof (encloses_mul Q P) as H.
  unfold Encloses in *.
  assert (D1 : 1 <= s_double s) by nra.
  assert (R0 : 0 <= s_rate s) by nra.
  assert (H1 : 1 <= s_rate s * s_double s ^ n) by nra.
  assert (M : s_double s ^ n <= s_double s ^ k) by now apply Rle_pow.
  repeat split; try nra.
  unfold shape_hazard. apply Rmin_left. nra.
Qed.

Lemma sigmoid_range (k : nat) :
  0 <= 1 - / (1 + s_exp0 s * s_decay s ^ k) <= 1.
Proof.
  pose proof scale_pos as Sp.
  destruct fits as (_ & _ & E0 & Dc & _ & _ & _ & P0 & Pd).
  apply IZR_le in P0, Pd. unfold Encloses in *.
  assert (A : 0 <= s_exp0 s) by nra.
  assert (B : 0 <= s_decay s) by nra.
  assert (0 <= s_exp0 s * s_decay s ^ k)
    by (apply Rmult_le_pos; [exact A | now apply pow_le]).
  set (e := s_exp0 s * s_decay s ^ k) in *.
  assert (I : 0 < / (1 + e)) by (apply Rinv_0_lt_compat; lra).
  assert (J : (1 + e) * / (1 + e) = 1) by (apply Rinv_r; lra).
  split; nra.
Qed.

(** Past the cap the mass on the year shrinks to a quarter at least at
    every step, and what reaches "dead" is at most twice the mass that
    was on the year. *)
Lemma walk_tail (n : nat) (m : R) :
  track_capped c (nth n (track_table c n) (track_start c)) = true ->
  - m <= fst (walk (shape_next s) (shape_dying s) n) <= m ->
  forall j,
    let d0 := snd (walk (shape_next s) (shape_dying s) n) in
    let d := snd (walk (shape_next s) (shape_dying s) (n + j)) in
    d0 - 2 * m <= d <= d0 + 2 * m.
Proof.
  intros C M j. cbv zeta.
  enough (exists m',
            0 <= m' <= m /\
            - m' <= fst (walk (shape_next s) (shape_dying s) (n + j)) <= m' /\
            - (2 * (m - m')) <=
              snd (walk (shape_next s) (shape_dying s) (n + j)) -
              snd (walk (shape_next s) (shape_dying s) n) <= 2 * (m - m'))
    as (m' & B & _ & D) by lra.
  induction j as [|j IHj].
  - exists m. rewrite Nat.add_0_r. split; [lra|]. split; lra.
  - destruct IHj as (m' & B & Y & D).
    exists (m' / 4). rewrite Nat.add_succ_r. cbn [walk fst snd].
    destruct (@capped_onwards n (n + j) C) as (H & Sh & O & Od); [lia|].
    pose proof (sigmoid_range (n + j)) as Sg.
    assert (W : - / 4 <= shape_next s (n + j) <= 0)
      by (unfold shape_next; rewrite H; lra).
    assert (A : 0 <= shape_dying s (n + j) <= 3 / 2).
    { unfold shape_dying. rewrite H.
      set (g := 1 - / (1 + s_exp0 s * s_decay s ^ (n + j))) in *.
      assert (G : 0 <= s_share s * g <= 1) by nra. lra. }
    set (y := fst (walk (shape_next s) (shape_dying s) (n + j))) in *.
    set (dj := snd (walk (shape_next s) (shape_dying s) (n + j))) in *.
    set (d0 := snd (walk (shape_next s) (shape_dying s) n)) in *.
    set (w := shape_next s (n + j)) in *.
    set (a := shape_dying s (n + j)) in *.
    clearbody y dj d0 w a. clear H Sh O Od Sg C M.
    assert (YW : - (m' / 4) <= y * w <= m' / 4)
      by (destruct (Rle_dec 0 y); nra).
    assert (YA : - (3 / 2 * m') <= y * a <= 3 / 2 * m')
      by (destruct (Rle_dec 0 y); nra).
    split; [lra|]. split; lra.
Qed.

(** The bounds hold of the mass on "dead" at every index. *)
Lemma dead_bounds_sound (n i : nat) :
  track_capped c (nth n (track_table c n) (track_start c)) = true ->
  Encloses (dead_bounds c n (track_table c n) i)
    (snd (walk (shape_next s) (shape_dying s) i)).
Proof.
  intro C. unfold dead_bounds. destruct (Nat.leb_spec i n) as [L | L].
  - now destruct (tracks_table L) as (_ & _ & _ & _ & D).
  - destruct (tracks_table (Nat.le_refl n)) as (_ & _ & _ & Y & D).
    cbv zeta. set (t := nth n (track_table c n) (track_start c)) in *.
    pose proof scale_pos as Sp.
    assert (Z0 : IZR (e_size (t_year t)) / IZR scale * IZR scale =
                 IZR (e_size (t_year t))) by (field; lra).
    assert (M : - (IZR (e_size (t_year t)) / IZR scale) <=
                fst (walk (shape_next s) (shape_dying s) n) <=
                IZR (e_size (t_year t)) / IZR scale).
    { unfold Encloses in Y.
      assert (A : - IZR (e_size (t_year t)) <= IZR (lower (t_year t))).
      { rewrite <- opp_IZR. apply IZR_le. unfold e_size. lia. }
      assert (B : IZR (upper (t_year t)) <= IZR (e_size (t_year t))).
      { apply IZR_le. unfold e_size. lia. }
      split; apply Rmult_le_reg_r with (IZR scale); trivial; nra. }
    pose proof (walk_tail n C M (i - n)) as W. cbv zeta in W.
    replace (n + (i - n))%nat with i in W by lia.
    unfold Encloses in *. unfold e_widen. cbn [lower upper].
    rewrite minus_IZR, plus_IZR, mult_IZR. nra.
Qed.

End Tracks.

(** ** The models of [buildModels] as walks *)

Section Walks.
Local Open Scope R_scope.

Lemma walk_ext (next next' dying dying' : nat -> R) (i : nat) :
  (forall k, next k = next' k) -> (forall k, dying k = dying' k) ->
  walk next dying i = walk next' dying' i.
Proof.
  intros N D. induction i as [|i IH]; [reflexivity|].
  cbn [walk]. now rewrite IH, N, D.
Qed.

(** One step from a distribution on the three sentinels and one year. *)
Lemma step_from_year agi nukes plague (h d r m : R) (y : Year) :
  step [(heaven, h); (dead, d); (reset, r); (year y, m)]
    (simpleTransitionFunction (N := R) agi nukes plague) =
  [(heaven, h + m * pHeaven_of agi y);
   (dead, d + m * pDead_of agi nukes plague y);
   (reset, r + m * pReset_of agi nukes plague y);
   (year (y + 1), m * pNext_of agi nukes plague y)].
Proof.
  unfold step. cbn [fold_left]. rewrite simpleTransitionFunction_year.
  cbn [simpleTransitionFunction Map_new fold_left accumulate get_or_zero
       Map_get Map_set key_eqb World_key World_eqb fst snd].
  exact_arith.
  repeat (f_equal; try lra).
Qed.

Lemma step_from_start agi nukes plague (y : Year) :
  step [(year y, 1)] (simpleTransitionFunction (N := R) agi nukes plague) =
  [(heaven, pHeaven_of agi y);
   (dead, pDead_of agi nukes plague y);
   (reset, pReset_of agi nukes plague y);
   (year (y + 1), pNext_of agi nukes plague y)].
Proof.
  unfold step. cbn [fold_left]. rewrite simpleTransitionFunction_year.
  cbn [fold_left accumulate get_or_zero Map_get Map_set key_eqb World_key
       World_eqb fst snd].
  exact_arith.
  repeat (f_equal; try lra).
Qed.

(** After at least one step the distribution has the three sentinels and
    one year, with the masses of the walk on "dead" and on the year. *)
Lemma steps_shape agi nukes plague (y : Year) (i : nat) :
  let f := simpleTransitionFunction (N := R) agi nukes plague in
  let w :=
    walk (fun k => pNext_of agi nukes plague (y + Z.of_nat k))
         (fun k => pDead_of agi nukes plague (y + Z.of_nat k)) (S i) in
  exists h r,
    steps f (S i) [(year y, 1)] =
    [(heaven, h); (dead, snd w); (reset, r);
     (year (y + Z.of_nat (S i)), fst w)].
Proof.
  cbv zeta. induction i as [|i (h & r & IH)].
  - do 2 eexists. unfold steps. cbn [Nat.iter nat_rect].
    rewrite step_from_start. cbn [walk fst snd].
    rewrite Z.add_0_r. repeat (f_equal; try lra).
  - change (steps ?f (S (S i)) ?d) with (step (steps f (S i) d) f).
    rewrite IH, step_from_year.
    remember (S i) as j eqn:J. do 2 eexists. cbn [walk fst snd].
    replace (y + Z.of_nat j + 1)%Z with (y + Z.of_nat (S j))%Z by lia.
    reflexivity.
Qed.

(** The mass on "dead" after [i] steps from a year. *)
Lemma steps_dead agi nukes plague (y : Year) (i : nat) :
  amount dead
    (steps (simpleTransitionFunction (N := R) agi nukes plague) i
       [(year y, 1)]) =
  snd (walk (fun k => pNext_of agi nukes plague (y + Z.of_nat k))
            (fun k => pDead_of agi nukes plague (y + Z.of_nat k)) i).
Proof.
  destruct i as [|i].
  - rewrite steps_zero. cbn [walk snd amount key_eqb World_key World_eqb].
    lra.
  - destruct (steps_shape agi nukes plague y i) as (h & r & ->).
    cbn [amount key_eqb World_key World_eqb]. lra.
Qed.

End Walks.

(** The numbers of a model whose AGI hazard is
    [min 1 (acc * rate * 2 ** ((year - 2022) / doubling))], whose sigmoid
    is centred [lead] years after 2022 and [width] years wide, and whose
    plague sub-model is the active one or the placebo. *)
Definition sub_shape (acc rate share : R) (doubling lead width : nat)
  (active : bool) : Shape :=
  {| s_rate := acc * rate;
     s_double := Rpower 2 (/ INR doubling);
     s_exp0 := exp (INR lead / INR width);
     s_decay := exp (- / INR width);
     s_share := share;
     s_other := (/ 100 + if active then 5 / 1000 else 0)%R;
     s_other_dead := (/ 1000 + if active then 5 / 10000 else 0)%R |}.

Definition plagueOf (active : bool) : SimplePlagueModel (N := R) :=
  if active then plagueModel else plagueNever.

Section SubModel.
Local Open Scope R_scope.
Variables (agi : SimpleAGIModel (N := R)) (acc rate share : R).
Variables (doubling lead width : nat).
Hypothesis doubling_pos : (0 < doubling)%nat.
Hypothesis width_pos : (0 < width)%nat.
Hypothesis agi_p :
  forall y, p (agi y) = hazard acc rate (Z.of_nat doubling) y.
Hypothesis agi_dead_share :
  forall y,
    pFromOdds (odds (agi y)) (@agi_dead R) =
    share *
    (1 - stdSigmoid (since y (2022 + Z.of_nat lead) (Z.of_nat width))).
Hypothesis agi_shares :
  forall y,
    pFromOdds (odds (agi y)) (@agi_heaven R) +
    pFromOdds (odds (agi y)) (@agi_dead R) +
    pFromOdds (odds (agi y)) (@agi_reset R) = 1.

Lemma hazard_walk (k : nat) :
  hazard acc rate (Z.of_nat doubling) (2022 + Z.of_nat k) =
  shape_hazard (sub_shape acc rate share doubling lead width true) k.
Proof.
  unfold hazard, shape_hazard, since. cbn [Math_min Math_pow Rmath sub_shape
    s_rate s_double]. exact_arith.
  assert (D : INR doubling <> 0) by (apply not_0_INR; lia).
  rewrite plus_IZR, <- !INR_IZR_INZ.
  rewrite <- Rpower_pow by apply exp_pos. rewrite Rpower_mult.
  do 3 f_equal. unfold Rdiv. ring.
Qed.

Lemma sigmoid_walk (k : nat) :
  stdSigmoid
    (since (2022 + Z.of_nat k) (2022 + Z.of_nat lead) (Z.of_nat width)) =
  / (1 + exp (INR lead / INR width) * exp (- / INR width) ^ k).
Proof.
  unfold stdSigmoid, since. cbn [Math_exp Rmath]. exact_arith.
  assert (W : INR width <> 0) by (apply not_0_INR; lia).
  rewrite !plus_IZR, <- !INR_IZR_INZ.
  rewrite <- exp_times, <- exp_plus.
  unfold Rdiv. rewrite Rmult_1_l. do 3 f_equal. field. exact W.
Qed.

Lemma hazards_dead (active : bool) (y : Year) :
  p (nukesModel (N := R) y) *
    pFromOdds (odds (nukesModel (N := R) y)) (@hz_dead R) +
  p (plagueOf active y) * pFromOdds (odds (plagueOf active y)) (@hz_dead R) =
  / 1000 + (if active then 5 / 10000 else 0).
Proof.
  destruct active; unfold pFromOdds, sum, dec;
    cbn [plagueOf p odds nukesModel plagueModel plagueNever hz_dead hz_reset
         Object_values HazardOdds_values fold_left];
    exact_arith; simpl; field.
Qed.

Lemma hazards_reset (active : bool) (y : Year) :
  p (nukesModel (N := R) y) *
    pFromOdds (odds (nukesModel (N := R) y)) (@hz_reset R) +
  p (plagueOf active y) *
    pFromOdds (odds (plagueOf active y)) (@hz_reset R) =
  9 / 1000 + (if active then 45 / 10000 else 0).
Proof.
  destruct active; unfold pFromOdds, sum, dec;
    cbn [plagueOf p odds nukesModel plagueModel plagueNever hz_dead hz_reset
         Object_values HazardOdds_values fold_left];
    exact_arith; simpl; field.
Qed.

Lemma sub_next (active : bool) (k : nat) :
  pNext_of agi nukesModel (plagueOf active) (2022 + Z.of_nat k) =
  shape_next (sub_shape acc rate share doubling lead width active) k.
Proof.
  pose proof (hazards_dead active (2022 + Z.of_nat k)) as D.
  pose proof (hazards_reset active (2022 + Z.of_nat k)) as E.
  pose proof (agi_shares (2022 + Z.of_nat k)) as S.
  unfold shape_next.
  change (shape_hazard (sub_shape acc rate share doubling lead width active))
    with (shape_hazard (sub_shape acc rate share doubling lead width true)).
  rewrite <- hazard_walk, <- agi_p.
  unfold pNext_of, pHeaven_of, pDead_of, pReset_of. cbn [sub_shape s_other].
  exact_arith.
  set (y := (2022 + Z.of_nat k)%Z) in *.
  set (h := p (agi y)) in *.
  assert (h * pFromOdds (odds (agi y)) (@agi_heaven R) +
          h * pFromOdds (odds (agi y)) (@agi_dead R) +
          h * pFromOdds (odds (agi y)) (@agi_reset R) = h)
    by nra.
  destruct active; lra.
Qed.

Lemma sub_dying (active : bool) (k : nat) :
  pDead_of agi nukesModel (plagueOf active) (2022 + Z.of_nat k) =
  shape_dying (sub_shape acc rate share doubling lead width active) k.
Proof.
  pose proof (hazards_dead active (2022 + Z.of_nat k)) as D.
  unfold shape_dying.
  change (shape_hazard (sub_shape acc rate share doubling lead width active))
    with (shape_hazard (sub_shape acc rate share doubling lead width true)).
  rewrite <- hazard_walk, <- agi_p.
  cbn [sub_shape s_share s_exp0 s_decay s_other_dead].
  rewrite <- sigmoid_walk, <- agi_dead_share.
  unfold pDead_of. exact_arith. lra.
Qed.

(** The mass on "dead" after [i] steps from 2022. *)
Lemma sub_dead (active : bool) (i : nat) :
  let s := sub_shape acc rate share doubling lead width active in
  amount dead
    (steps (simpleTransitionFunction agi nukesModel (plagueOf active)) i
       [(year 2022, 1)]) =
  snd (walk (shape_next s) (shape_dying s) i).
Proof.
  cbv zeta. rewrite steps_dead. f_equal.
  apply walk_ext; intro k; [apply sub_next | apply sub_dying].
Qed.

End SubModel.

(** ** The eight models of the domain ensemble *)

Definition root10 : Enclosure :=
  {| lower := 5061307076710536209066; upper := 5061307076710536209067 |}.

Definition root30 : Enclosure :=
  {| lower := 4832746567009430093392; upper := 4832746567009430093393 |}.

Definition decay20 : Enclosure := e_exp_neg 20 36.
Definition decay10 : Enclosure := e_exp_neg 10 36.
Definition exp_58_20 : Enclosure := e_pow (e_inv decay20) 58.
Definition exp_8_10 : Enclosure := e_pow (e_inv decay10) 8.

Definition e_acc (work : bool) : Enclosure :=
  e_add e_one (if work then e_ratio 1 10000000 else e_exact 0).

Definition sub_curve (work : bool) (rate double exp0 decay share : Enclosure)
  (active : bool) : Curve :=
  {| c_rate := e_mul (e_acc work) rate;
     c_double := double;
     c_exp0 := exp0;
     c_decay := decay;
     c_share := share;
     c_other :=
       e_add (e_ratio 1 100) (if active then e_ratio 5 1000 else e_exact 0);
     c_other_dead :=
       e_add (e_ratio 1 1000)
         (if active then e_ratio 5 10000 else e_exact 0) |}.

Definition doomed_curve (work active : bool) : Curve :=
  sub_curve work (e_ratio 5 100) root10 exp_58_20 decay20 e_one active.

Definition christiano_curve (work active : bool) : Curve :=
  sub_curve work (e_ratio 2 100) root10 exp_8_10 decay10 (e_ratio 2 3) active.

Definition hard_curve (work active : bool) : Curve :=
  sub_curve work (e_ratio 3 100) root10 exp_58_20 decay20 (e_ratio 1 2) active.

Definition way_harder_curve (work active : bool) : Curve :=
  sub_curve work (e_ratio 1 1000) root30 exp_58_20 decay20 (e_exact 0) active.

Definition doomed_shape (work active : bool) : Shape :=
  sub_shape (accelerationFromWorking work) (dec 5 2) 1 10 58 20 active.

Definition christiano_shape (work active : bool) : Shape :=
  sub_shape (accelerationFromWorking work) (dec 2 2) (2 / 3) 10 8 10 active.

Definition hard_shape (work active : bool) : Shape :=
  sub_shape (accelerationFromWorking work) (dec 3 2) (1 / 2) 10 58 20 active.

Definition way_harder_shape (work active : bool) : Shape :=
  sub_shape (accelerationFromWorking work) (dec 1 3) 0 30 58 20 active.

(** A curve, the number of steps it is followed for, and its states. *)
Definition Run : Type := (Curve * nat * list Track)%type.

Definition run (c : Curve) (n : nat) : Run := (c, n, track_table c n).

Definition run_capped (r : Run) : bool :=
  let '(c, n, table) := r in track_capped c (nth n table (track_start c)).

Definition run_bounds (r : Run) (i : nat) : Enclosure :=
  let '(c, n, table) := r in dead_bounds c n table i.

(** The eight models in the order of [buildModels]; the three whose
    hazard doubles every decade are at the cap after 64 years, the
    fourth after 304. *)
Definition domain_runs (work : bool) : list Run :=
  [ run (doomed_curve work true) 64;
    run (doomed_curve work false) 64;
    run (christiano_curve work true) 64;
    run (christiano_curve work false) 64;
    run (hard_curve work true) 64;
    run (hard_curve work false) 64;
    run (way_harder_curve work true) 304;
    run (way_harder_curve work false) 304 ].

(** Their weights, in thirty-seconds. *)
Definition domain_weights : list Z := [5; 5; 5; 5; 5; 5; 1; 1]%Z.

(** A lower bound, in units of [1 / (32 * scale)], on the mass on "dead"
    at index [i] with the acceleration factor less the mass without
    it. *)
Definition margin (accelerated plain : list Run) (i : nat) : Z :=
  fold_left Z.add
    (map (fun e =>
            (fst e *
             (lower (run_bounds (fst (snd e)) i) -
              upper (run_bounds (snd (snd e)) i)))%Z)
       (combine domain_weights (combine accelerated plain)))
    0%Z.

(** The check that settles the comparison: every model is followed until
    its hazard is at the cap, and the lower bound is not negative at any
    of the first 306 indices. *)
Definition checked (accelerated plain : list Run) : bool :=
  forallb run_capped accelerated && forallb run_capped plain &&
  forallb (fun i => (0 <=? margin accelerated plain i)%Z) (seq 0 306).

Lemma certificate_holds :
  checked (domain_runs true) (domain_runs false) = true.
Proof. vm_cast_no_check (eq_refl true). Qed.

Section DomainCurves.
Local Open Scope R_scope.

Lemma encloses_acc (work : bool) :
  Encloses (e_acc work) (accelerationFromWorking work).
Proof.
  unfold e_acc, accelerationFromWorking. exact_arith.
  apply encloses_add; [apply encloses_one|].
  destruct work; [|apply encloses_zero].
  unfold dec. exact_arith. apply encloses_ratio. reflexivity.
Qed.

Lemma encloses_root10 : Encloses root10 (Rpower 2 (/ INR 10)).
Proof. apply (encloses_root 9); vm_compute; congruence. Qed.

Lemma encloses_root30 : Encloses root30 (Rpower 2 (/ INR 30)).
Proof. apply (encloses_root 29); vm_compute; congruence. Qed.

Lemma encloses_decay20 : Encloses decay20 (exp (- / INR 20)).
Proof.
  rewrite INR_IZR_INZ. apply (encloses_exp_neg 36 (d := 20)). reflexivity.
Qed.

Lemma encloses_decay10 : Encloses decay10 (exp (- / INR 10)).
Proof.
  rewrite INR_IZR_INZ. apply (encloses_exp_neg 36 (d := 10)). reflexivity.
Qed.

Lemma exp_lead (a : nat) (w : R) : exp (INR a / w) = (/ exp (- / w)) ^ a.
Proof. now rewrite exp_Ropp, Rinv_inv, <- exp_times. Qed.

Lemma encloses_exp_58_20 : Encloses exp_58_20 (exp (INR 58 / INR 20)).
Proof.
  rewrite exp_lead. apply encloses_pow, encloses_inv; [|apply encloses_decay20].
  vm_compute. reflexivity.
Qed.

Lemma encloses_exp_8_10 : Encloses exp_8_10 (exp (INR 8 / INR 10)).
Proof.
  rewrite exp_lead. apply encloses_pow, encloses_inv; [|apply encloses_decay10].
  vm_compute. reflexivity.
Qed.

Lemma sub_fits (work active : bool) (rate double exp0 decay share : Enclosure)
  (r sh : R) (doubling lead width : nat) :
  Encloses rate r ->
  Encloses double (Rpower 2 (/ INR doubling)) ->
  Encloses exp0 (exp (INR lead / INR width)) ->
  Encloses decay (exp (- / INR width)) ->
  Encloses share sh ->
  (0 <= lower exp0)%Z -> (0 <= lower decay)%Z ->
  Fits (sub_curve work rate double exp0 decay share active)
    (sub_shape (accelerationFromWorking work) r sh doubling lead width
       active).
Proof.
  intros Q D E0 Dc Sh P0 Pd. unfold Fits, sub_curve, sub_shape.
  cbn [c_rate c_double c_exp0 c_decay c_share c_other c_other_dead
       s_rate s_double s_exp0 s_decay s_share s_other s_other_dead].
  split; [apply encloses_mul; [apply encloses_acc | exact Q]|].
  split; [exact D|]. split; [exact E0|]. split; [exact Dc|].
  split; [exact Sh|].
  split; [|split; [|split; [exact P0 | exact Pd]]].
  - apply encloses_add.
    + replace (/ 100) with (IZR 1 / IZR 100) by lra.
      apply encloses_ratio. reflexivity.
    + destruct active; [|apply encloses_zero].
      apply (encloses_ratio 5 (d := 1000)). reflexivity.
  - apply encloses_add.
    + replace (/ 1000) with (IZR 1 / IZR 1000) by lra.
      apply encloses_ratio. reflexivity.
    + destruct active; [|apply encloses_zero].
      apply (encloses_ratio 5 (d := 10000)). reflexivity.
Qed.

Lemma encloses_dec (m : Z) (k : nat) :
  Encloses (e_ratio m (10 ^ Z.of_nat k)) (dec m k).
Proof. unfold dec. exact_arith. apply encloses_ratio. lia. Qed.

Lemma doomed_fits (work active : bool) :
  Fits (doomed_curve work active) (doomed_shape work active).
Proof.
  apply sub_fits.
  - apply (encloses_dec 5 2).
  - apply encloses_root10.
  - apply encloses_exp_58_20.
  - apply encloses_decay20.
  - apply encloses_one.
  - vm_compute. congruence.
  - vm_compute. congruence.
Qed.

Lemma christiano_fits (work active : bool) :
  Fits (christiano_curve work active) (christiano_shape work active).
Proof.
  apply sub_fits.
  - apply (encloses_dec 2 2).
  - apply encloses_root10.
  - apply encloses_exp_8_10.
  - apply encloses_decay10.
  - apply (encloses_ratio 2 (d := 3)). reflexivity.
  - vm_compute. congruence.
  - vm_compute. congruence.
Qed.

Lemma hard_fits (work active : bool) :
  Fits (hard_curve work active) (hard_shape work active).
Proof.
  apply sub_fits.
  - apply (encloses_dec 3 2).
  - apply encloses_root10.
  - apply encloses_exp_58_20.
  - apply encloses_decay20.
  - apply (encloses_ratio 1 (d := 2)). reflexivity.
  - vm_compute. congruence.
  - vm_compute. congruence.
Qed.

Lemma way_harder_fits (work active : bool) :
  Fits (way_harder_curve work active) (way_harder_shape work active).
Proof.
  apply sub_fits.
  - apply (encloses_dec 1 3).
  - apply encloses_root30.
  - apply encloses_exp_58_20.
  - apply encloses_decay20.
  - apply encloses_zero.
  - vm_compute. congruence.
  - vm_compute. congruence.
Qed.

Ltac odds_shares :=
  intro; unfold pFromOdds, sum;
  cbn [odds agiDoomed agiChristiano agiHard agiWayHarder agi_heaven agi_dead
       agi_reset Object_values AGIOdds_values fold_left];
  exact_arith;
  try match goal with
  | |- context [since ?y (2022 + Z.of_nat ?l)%Z (Z.of_nat ?w)] =>
      let c := eval vm_compute in (2022 + Z.of_nat l)%Z in
      let d := eval vm_compute in (Z.of_nat w) in
      change (since y (2022 + Z.of_nat l)%Z (Z.of_nat w))
        with (since (N := R) y c d)
  end;
  match goal with
  | |- context [stdSigmoid ?x] =>
      pose proof (stdSigmoid_bounds x); set (stdSigmoid x) in *
  end;
  field; lra.

Lemma doomed_dead (work active : bool) (i : nat) :
  amount dead
    (steps (simpleTransitionFunction
              (agiDoomed (accelerationFromWorking work)) nukesModel
              (plagueOf active)) i [(year 2022, 1)]) =
  snd (walk (shape_next (doomed_shape work active))
            (shape_dying (doomed_shape work active)) i).
Proof.
  apply sub_dead; try lia; try reflexivity; odds_shares.
Qed.

Lemma christiano_dead (work active : bool) (i : nat) :
  amount dead
    (steps (simpleTransitionFunction
              (agiChristiano (accelerationFromWorking work)) nukesModel
              (plagueOf active)) i [(year 2022, 1)]) =
  snd (walk (shape_next (christiano_shape work active))
            (shape_dying (christiano_shape work active)) i).
Proof.
  apply sub_dead; try lia; try reflexivity; odds_shares.
Qed.

Lemma hard_dead (work active : bool) (i : nat) :
  amount dead
    (steps (simpleTransitionFunction
              (agiHard (accelerationFromWorking work)) nukesModel
              (plagueOf active)) i [(year 2022, 1)]) =
  snd (walk (shape_next (hard_shape work active))
            (shape_dying (hard_shape work active)) i).
Proof.
  apply sub_dead; try lia; try reflexivity; odds_shares.
Qed.

Lemma way_harder_dead (work active : bool) (i : nat) :
  amount dead
    (steps (simpleTransitionFunction
              (agiWayHarder (accelerationFromWorking work)) nukesModel
              (plagueOf active)) i [(year 2022, 1)]) =
  snd (walk (shape_next (way_harder_shape work active))
            (shape_dying (way_harder_shape work active)) i).
Proof.
  apply sub_dead; try lia; try reflexivity; odds_shares.
Qed.

End DomainCurves.

Section DomainRun.
Local Open Scope R_scope.

Lemma run_sound (c : Curve) (s : Shape) (n i : nat) :
  Fits c s -> run_capped (run c n) = true ->
  Encloses (run_bounds (run c n) i)
    (snd (walk (shape_next s) (shape_dying s) i)).
Proof. intros F C. now apply dead_bounds_sound. Qed.

Lemma dead_bounds_beyond (c : Curve) (n : nat) (table : list Track)
  (i j : nat) :
  (n < i)%nat -> (n < j)%nat ->
  dead_bounds c n table i = dead_bounds c n table j.
Proof.
  intros I J. unfold dead_bounds.
  destruct (Nat.leb_spec i n); [lia|]. destruct (Nat.leb_spec j n); [lia|].
  reflexivity.
Qed.

Lemma checked_spec (accelerated plain : list Run) :
  checked accelerated plain = true ->
  forallb run_capped accelerated = true /\
  forallb run_capped plain = true /\
  forall i, (i < 306)%nat -> (0 <= margin accelerated plain i)%Z.
Proof.
  unfold checked. intro C.
  apply andb_prop in C. destruct C as [C M].
  apply andb_prop in C. destruct C as [A B].
  split; [exact A|]. split; [exact B|].
  intros i L. rewrite forallb_forall in M.
  apply Z.leb_le, M, in_seq. lia.
Qed.

Lemma run_in_capped (work : bool) (r : Run) :
  In r (domain_runs work) -> run_capped r = true.
Proof.
  destruct (@checked_spec _ _ certificate_holds) as (A & B & _).
  rewrite forallb_forall in A, B.
  destruct work; [exact (A r) | exact (B r)].
Qed.

Lemma run_bounds_beyond (r : Run) (i j : nat) :
  (snd (fst r) < i)%nat -> (snd (fst r) < j)%nat ->
  run_bounds r i = run_bounds r j.
Proof.
  destruct r as [[c n] table]. cbn [fst snd run_bounds].
  apply dead_bounds_beyond.
Qed.

Lemma margin_beyond (accelerated plain : list Run) (i j : nat) :
  (forall r, In r accelerated -> (snd (fst r) < i)%nat) ->
  (forall r, In r plain -> (snd (fst r) < i)%nat) ->
  (i <= j)%nat ->
  margin accelerated plain i = margin accelerated plain j.
Proof.
  intros A P L. unfold margin. f_equal. apply map_ext_in.
  intros [w [a p]] I. cbn [fst snd].
  apply in_combine_r in I.
  pose proof (in_combine_l _ _ _ _ I) as Ia.
  pose proof (in_combine_r _ _ _ _ I) as Ip.
  apply A in Ia. apply P in Ip.
  rewrite (@run_bounds_beyond a i j), (@run_bounds_beyond p i j) by lia.
  reflexivity.
Qed.

Lemma domain_horizons (work : bool) (r : Run) :
  In r (domain_runs work) -> (snd (fst r) < 305)%nat.
Proof.
  intro I. unfold domain_runs in I.
  repeat (destruct I as [<- | I]; [cbn [run fst snd]; lia|]).
  destruct I.
Qed.

(** The lower bound is not negative at any index. *)
Lemma margin_nonneg (i : nat) :
  (0 <= margin (domain_runs true) (domain_runs false) i)%Z.
Proof.
  destruct (@checked_spec _ _ certificate_holds) as (_ & _ & C).
  destruct (Nat.lt_ge_cases i 306) as [L | L]; [now apply C|].
  rewrite <- (@margin_beyond _ _ 305 i);
    [apply C; lia | apply domain_horizons | apply domain_horizons | lia].
Qed.

(** The mass on "dead" after [i] steps under a model of a given shape. *)
Definition shape_dead (s : Shape) (i : nat) : R :=
  snd (walk (shape_next s) (shape_dying s) i).

(** What the acceleration factor adds to that mass. *)
Definition shape_gain (s : bool -> bool -> Shape) (active : bool) (i : nat)
  : R :=
  shape_dead (s true active) i - shape_dead (s false active) i.

Lemma margin_sound (i : nat) :
  IZR (margin (domain_runs true) (domain_runs false) i) <=
  (5 * shape_gain doomed_shape true i + 5 * shape_gain doomed_shape false i +
   5 * shape_gain christiano_shape true i +
   5 * shape_gain christiano_shape false i +
   5 * shape_gain hard_shape true i + 5 * shape_gain hard_shape false i +
   shape_gain way_harder_shape true i + shape_gain way_harder_shape false i) *
  IZR scale.
Proof.
  assert (W1 : run_capped (run (doomed_curve true true) 64) = true)
    by (apply run_in_capped with (work := true); left; reflexivity).
  assert (W2 : run_capped (run (doomed_curve true false) 64) = true)
    by (apply run_in_capped with (work := true); do 1 right; left;
        reflexivity).
  assert (W3 : run_capped (run (christiano_curve true true) 64) = true)
    by (apply run_in_capped with (work := true); do 2 right; left;
        reflexivity).
  assert (W4 : run_capped (run (christiano_curve true false) 64) = true)
    by (apply run_in_capped with (work := true); do 3 right; left;
        reflexivity).
  assert (W5 : run_capped (run (hard_curve true true) 64) = true)
    by (apply run_in_capped with (work := true); do 4 right; left;
        reflexivity).
  assert (W6 : run_capped (run (hard_curve true false) 64) = true)
    by (apply run_in_capped with (work := true); do 5 right; left;
        reflexivity).
  assert (W7 : run_capped (run (way_harder_curve true true) 304) = true)
    by (apply run_in_capped with (work := true); do 6 right; left;
        reflexivity).
  assert (W8 : run_capped (run (way_harder_curve true false) 304) = true)
    by (apply run_in_capped with (work := true); do 7 right; left;
        reflexivity).
  assert (N1 : run_capped (run (doomed_curve false true) 64) = true)
    by (apply run_in_capped with (work := false); left; reflexivity).
  assert (N2 : run_capped (run (doomed_curve false false) 64) = true)
    by (apply run_in_capped with (work := false); do 1 right; left;
        reflexivity).
  assert (N3 : run_capped (run (christiano_curve false true) 64) = true)
    by (apply run_in_capped with (work := false); do 2 right; left;
        reflexivity).
  assert (N4 : run_capped (run (christiano_curve false false) 64) = true)
    by (apply run_in_capped with (work := false); do 3 right; left;
        reflexivity).
  assert (N5 : run_capped (run (hard_curve false true) 64) = true)
    by (apply run_in_capped with (work := false); do 4 right; left;
        reflexivity).
  assert (N6 : run_capped (run (hard_curve false false) 64) = true)
    by (apply run_in_capped with (work := false); do 5 right; left;
        reflexivity).
  assert (N7 : run_capped (run (way_harder_curve false true) 304) = true)
    by (apply run_in_capped with (work := false); do 6 right; left;
        reflexivity).
  assert (N8 : run_capped (run (way_harder_curve false false) 304) = true)
    by (apply run_in_capped with (work := false); do 7 right; left;
        reflexivity).
  pose proof (@run_sound _ _ _ i (doomed_fits true true) W1) as A1.
  pose proof (@run_sound _ _ _ i (doomed_fits true false) W2) as A2.
  pose proof (@run_sound _ _ _ i (christiano_fits true true) W3) as A3.
  pose proof (@run_sound _ _ _ i (christiano_fits true false) W4) as A4.
  pose proof (@run_sound _ _ _ i (hard_fits true true) W5) as A5.
  pose proof (@run_sound _ _ _ i (hard_fits true false) W6) as A6.
  pose proof (@run_sound _ _ _ i (way_harder_fits true true) W7) as A7.
  pose proof (@run_sound _ _ _ i (way_harder_fits true false) W8) as A8.
  pose proof (@run_sound _ _ _ i (doomed_fits false true) N1) as B1.
  pose proof (@run_sound _ _ _ i (doomed_fits false false) N2) as B2.
  pose proof (@run_sound _ _ _ i (christiano_fits false true) N3) as B3.
  pose proof (@run_sound _ _ _ i (christiano_fits false false) N4) as B4.
  pose proof (@run_sound _ _ _ i (hard_fits false true) N5) as B5.
  pose proof (@run_sound _ _ _ i (hard_fits false false) N6) as B6.
  pose proof (@run_sound _ _ _ i (way_harder_fits false true) N7) as B7.
  pose proof (@run_sound _ _ _ i (way_harder_fits false false) N8) as B8.
  clear W1 W2 W3 W4 W5 W6 W7 W8 N1 N2 N3 N4 N5 N6 N7 N8.
  unfold margin, domain_runs, domain_weights.
  cbn [combine map fold_left fst snd].
  unfold Encloses, shape_gain, shape_dead in *.
  repeat match goal with
         | |- context [run_bounds ?r i] =>
             let e := fresh "e" in
             set (e := run_bounds r i) in *; clearbody e
         end.
  rewrite !plus_IZR, !mult_IZR, !minus_IZR.
  lra.
Qed.

Lemma gain_nonneg (i : nat) :
  0 <=
  5 * shape_gain doomed_shape true i + 5 * shape_gain doomed_shape false i +
  5 * shape_gain christiano_shape true i +
  5 * shape_gain christiano_shape false i +
  5 * shape_gain hard_shape true i + 5 * shape_gain hard_shape false i +
  shape_gain way_harder_shape true i + shape_gain way_harder_shape false i.
Proof.
  pose proof (margin_sound i) as M.
  pose proof (IZR_le _ _ (margin_nonneg i)) as P.
  pose proof scale_pos as S.
  set (m := IZR (margin (domain_runs true) (domain_runs false) i)) in *.
  clearbody m.
  apply Rmult_le_reg_r with (IZR scale); [exact S|]. lra.
Qed.

(** The mass on "dead" at index [i] of a run from 2022, model by
    model. *)
Lemma domain_dead_mass (work : bool) (i : nat) :
  get_or_zero dead (mix (reached (year 2022) (buildModels (N := R) work) i)) =
  (5 * shape_dead (doomed_shape work true) i +
   5 * shape_dead (doomed_shape work false) i +
   5 * shape_dead (christiano_shape work true) i +
   5 * shape_dead (christiano_shape work false) i +
   5 * shape_dead (hard_shape work true) i +
   5 * shape_dead (hard_shape work false) i +
   shape_dead (way_harder_shape work true) i +
   shape_dead (way_harder_shape work false) i) / 32.
Proof.
  rewrite mass_mix, reached_totalWeight, buildModels_entries.
  unfold reached. cbv zeta. cbn [map fst snd]. unfold sum. cbn [fold_left].
  exact_arith.
  change (@plagueModel R Rnum) with (plagueOf true).
  change (@plagueNever R Rnum) with (plagueOf false).
  pose proof (doomed_dead work true i) as E1.
  pose proof (doomed_dead work false i) as E2.
  pose proof (christiano_dead work true i) as E3.
  pose proof (christiano_dead work false i) as E4.
  pose proof (hard_dead work true i) as E5.
  pose proof (hard_dead work false i) as E6.
  pose proof (way_harder_dead work true i) as E7.
  pose proof (way_harder_dead work false i) as E8.
  unfold shape_dead. lra.
Qed.

(** C9: in the two runs of the program, from 2022 with the ensemble of
    [buildModels], the mass on "dead" is at every trajectory index at
    least as large with the acceleration factor ([work: true]) as without
    it ([work: false]), in exact arithmetic. *)
Theorem acceleration_monotone (n i : nat) :
  (i < n)%nat ->
  exists a b,
    dead_mass_at true 2022 n i = Some a /\
    dead_mass_at false 2022 n i = Some b /\
    b <= a.
Proof.
  intro L. rewrite !dead_mass_at_spec by exact L.
  do 2 eexists. split; [reflexivity|]. split; [reflexivity|].
  rewrite !domain_dead_mass.
  pose proof (gain_nonneg i) as G. unfold shape_gain in G. lra.
Qed.

End DomainRun.

(** ** The theorems at concrete inputs *)

Lemma step_conserves_mass_witness :
  let d : Ensemble (N := R) (T := World) := [(year 2022, 1%R)] in
  total d = 1%R /\
  (forall o q, In (o, q) d -> q <> 0%R -> total (tenPercent o) = 1%R) /\
  total (step d tenPercent) = 1%R.
Proof.
  intro d.
  assert (D : total d = 1%R) by (unfold total, sum; simpl; lra).
  assert (F : forall o q,
             In (o, q) d -> q <> 0%R -> total (tenPercent o) = 1%R).
  { intros o q [E | []] _. injection E as <- _.
    unfold total, sum, dec. simpl. lra. }
  split; [exact D|]. split; [exact F|].
  exact (step_conserves_mass d tenPercent D F).
Defined.

Lemma extrapolate_trajectory_witness :
  (0 < 3)%nat /\
  length (extrapolate (N := float) (year 2022) tenPercent 3) = 3%nat.
Proof.
  split; [lia|].
  apply (extrapolate_trajectory (N := float) (year 2022) tenPercent
           (n := 3)).
  lia.
Defined.

Lemma mix_total_one_witness :
  let es : list (Ensemble (N := R) (T := World) * R) :=
    [([(dead, 1%R)], 3%R); ([(heaven, 1%R)], 1%R)] in
  (forall ew, In ew es -> total (fst ew) = 1%R) /\
  mix_totalWeight es <> 0%R /\
  total (mix es) = 1%R.
Proof.
  intro es.
  assert (E : forall ew, In ew es -> total (fst ew) = 1%R).
  { intros ew [<- | [<- | []]]; unfold total, sum; simpl; lra. }
  assert (W : mix_totalWeight es <> 0%R).
  { unfold mix_totalWeight. simpl. lra. }
  split; [exact E|]. split; [exact W|].
  exact (mix_total_one es E W).
Defined.

Lemma mix_singleton_exact_witness :
  let d : Ensemble (N := R) (T := World) := [(dead, dec 1 1)] in
  NoDup (keys d) /\ (0 < 3)%R /\ mix [(d, 3%R)] = d.
Proof.
  intro d.
  assert (D : NoDup (keys d)) by (repeat constructor; intros []).
  assert (W : (0 < 3)%R) by lra.
  split; [exact D|]. split; [exact W|].
  exact (mix_singleton_exact d D W).
Defined.

Lemma acceleration_monotone_witness :
  (57 < 100)%nat /\
  exists a b,
    dead_mass_at true 2022 100 57 = Some a /\
    dead_mass_at false 2022 100 57 = Some b /\
    (b <= a)%R.
Proof.
  assert (L : (57 < 100)%nat) by lia.
  split; [exact L|].
  exact (acceleration_monotone L).
Defined.

(** * Further properties of the engine *)

(** ** Which outcomes a result holds *)

Section Support.
Context {N : Type} {num : Number N} {T : Type} {key : Key T}.

Lemma In_keys_set (a k : T) (v : N) (m : Ensemble (N := N) (T := T)) :
  In a (keys (Map_set k v m)) <-> a = k \/ In a (keys m).
Proof.
  split; [apply In_keys_Map_set|].
  induction m as [|[k' v'] m IH]; simpl.
  - intros [-> | []]. now left.
  - destruct (key_eqb k k') eqn:E; simpl.
    + apply key_eqb_spec in E. subst k'.
      intros [-> | [<- | I]]; [now left | now left | now right].
    + intros [-> | [<- | I]].
      * right. apply IH. now left.
      * now left.
      * right. apply IH. now right.
Qed.

Lemma In_keys_spread (a : T) (g : N -> N)
  (l result : Ensemble (N := N) (T := T)) :
  In a (keys (fold_left
                (fun result vp =>
                   let '(value, probability) := vp in
                   accumulate result value (g probability))
                l result)) <->
  In a (keys result) \/ In a (keys l).
Proof.
  revert result. induction l as [|[k v] l IH]; intro result; simpl.
  - tauto.
  - rewrite IH. unfold accumulate. rewrite In_keys_set. intuition.
Qed.

(** X1: The outcomes of [step d f] are exactly those some [f o] holds, for an
    outcome [o] of [d]; each of them has one entry. *)
Theorem step_support (d : Ensemble (N := N) (T := T))
  (f : TransitionFunction) :
  NoDup (keys (step d f)) /\
  forall a,
    In a (keys (step d f)) <->
    exists o, In o (keys d) /\ In a (keys (f o)).
Proof.
  split; [apply NoDup_step|]. intro a. unfold step.
  assert (G : forall result : Ensemble (N := N) (T := T),
    In a (keys (fold_left
      (fun result cp =>
         let '(cur, probability) := cp in
         fold_left
           (fun result np =>
              let '(next, nextProbability) := np in
              let totalProbability := mul probability nextProbability in
              accumulate result next totalProbability)
           (f cur) result)
      d result)) <->
    In a (keys result) \/ exists o, In o (keys d) /\ In a (keys (f o))).
  { induction d as [|[cur q] d IH]; intro result; simpl.
    - split; [now left | intros [I | (o & [] & _)]; exact I].
    - rewrite IH, (In_keys_spread a (fun x => mul q x)). split.
      + intros [[I | I] | (o & I & J)].
        * now left.
        * right. exists cur. split; [now left | exact I].
        * right. exists o. split; [now right | exact J].
      + intros [I | (o & [<- | I] & J)].
        * left. now left.
        * left. now right.
        * right. now exists o. }
  rewrite G. simpl. split; [intros [[] | E]; exact E | now right].
Qed.

(** X2: The outcomes of [mix ensembles] are exactly those of the distributions
    mixed, whatever their weights; each of them has one entry. *)
Theorem mix_support (es : list (Ensemble (N := N) (T := T) * N)) :
  NoDup (keys (mix es)) /\
  forall a,
    In a (keys (mix es)) <->
    exists e w, In (e, w) es /\ In a (keys e).
Proof.
  unfold mix. generalize (mix_totalWeight es). intro W.
  assert (G : forall result : Ensemble (N := N) (T := T),
    let r := fold_left
      (fun result ew =>
         let '(ensemble, weight) := ew in
         fold_left
           (fun result vp =>
              let '(value, probability) := vp in
              accumulate result value (div (mul probability weight) W))
           ensemble result)
      es result in
    (NoDup (keys result) -> NoDup (keys r)) /\
    forall a, In a (keys r) <->
      In a (keys result) \/ exists e w, In (e, w) es /\ In a (keys e)).
  { induction es as [|[e w] es IH]; intro result; simpl.
    - split; [trivial|]. intro a.
      split; [now left | intros [I | (e & w & [] & _)]; exact I].
    - destruct (IH (fold_left
        (fun result vp =>
           let '(value, probability) := vp in
           accumulate result value (div (mul probability w) W))
        e result)) as [D S].
      split.
      + intro D0. apply D.
        now apply (NoDup_spread (fun x => div (mul x w) W)).
      + intro a. rewrite S, (In_keys_spread a (fun x => div (mul x w) W)).
        split.
        * intros [[I | I] | (e' & w' & I & J)].
          -- now left.
          -- right. exists e, w. split; [now left | exact I].
          -- right. exists e', w'. split; [now right | exact J].
        * intros [I | (e' & w' & [E | I] & J)].
          -- left. now left.
          -- injection E as <- <-. left. now right.
          -- right. now exists e', w'. }
  destruct (G []) as [D S]. split; [apply D; constructor|].
  intro a. rewrite S. simpl. split; [intros [[] | E]; exact E | now right].
Qed.

End Support.

(** ** Trajectories and their errors *)

Section Horizon.
Context {N : Type} {num : Number N} {T : Type} {key : Key T}.

Lemma firstn_seq_add (a n m : nat) : firstn n (seq a (n + m)) = seq a n.
Proof.
  revert a. induction n as [|n IH]; intro a; [reflexivity|].
  simpl. f_equal. apply IH.
Qed.

(** X3: The trajectory does not depend on the horizon: asking for more steps
    only appends to it. *)
Theorem extrapolate_prefix (start : T)
  (f : TransitionFunction (N := N) (T := T)) (n m : nat) :
  firstn n (extrapolate start f (n + m)) = extrapolate start f n.
Proof.
  rewrite !extrapolate_spec, firstn_map. f_equal. apply firstn_seq_add.
Qed.

Lemma at_index_some (i : nat) (hs : list (History (N := N) (T := T) * N)) :
  (forall hw, In hw hs -> (i < length (fst hw))%nat) ->
  exists es, at_index i hs = Some es /\ map snd es = map snd hs /\
             map (fun ew => Some (fst ew)) es =
             map (fun hw => nth_error (fst hw) i) hs.
Proof.
  induction hs as [|[h w] hs IH]; intro L.
  - now exists [].
  - destruct IH as (es & E & W & V); [intros hw I; apply L; now right|].
    assert (Lh : (i < length h)%nat) by (apply (L (h, w)); now left).
    destruct (nth_error h i) as [e|] eqn:Q.
    + exists ((e, w) :: es). cbn [at_index]. rewrite Q, E.
      cbn [map fst snd]. now rewrite W, V, Q.
    + apply nth_error_None in Q. lia.
Qed.

Lemma at_index_none (i : nat) (hs : list (History (N := N) (T := T) * N)) :
  (exists hw, In hw hs /\ (length (fst hw) <= i)%nat) ->
  at_index i hs = None.
Proof.
  induction hs as [|[h w] hs IH]; intros (hw & I & L).
  - destruct I.
  - cbn [at_index]. destruct I as [<- | I].
    + cbn [fst] in L. apply nth_error_None in L. now rewrite L.
    + rewrite IH by (now exists hw). now destruct (nth_error h i).
Qed.

Lemma mixHistories_loop_none (hs : list (History (N := N) (T := T) * N))
  (indices : list nat) (result : History) :
  (exists i, In i indices /\ at_index i hs = None) ->
  mixHistories_loop hs indices result = None.
Proof.
  revert result.
  induction indices as [|j indices IH]; intros result (i & I & E).
  - destruct I.
  - cbn [mixHistories_loop]. destruct (at_index j hs) as [es|] eqn:Q.
    + apply IH. exists i. split; [|exact E].
      destruct I as [-> | I]; [congruence | exact I].
    + reflexivity.
Qed.

Lemma mixHistories_loop_some (hs : list (History (N := N) (T := T) * N))
  (indices : list nat) (result : History) :
  (forall i, In i indices -> exists es, at_index i hs = Some es) ->
  exists mixed,
    mixHistories_loop hs indices result = Some (result ++ mixed) /\
    length mixed = length indices /\
    forall k i, nth_error indices k = Some i ->
      exists es, at_index i hs = Some es /\ nth_error mixed k = Some (mix es).
Proof.
  revert result.
  induction indices as [|j indices IH]; intros result A.
  - exists []. cbn. rewrite app_nil_r. repeat split.
    intros [|k] i E; discriminate.
  - destruct (A j) as (es & Q); [now left|].
    destruct (IH (result ++ [mix es])) as (mixed & E & L & V);
      [intros i I; apply A; now right|].
    exists (mix es :: mixed). cbn [mixHistories_loop]. rewrite Q, E.
    rewrite <- app_assoc. repeat split; [now cbn; rewrite L|].
    intros [|k] i K; cbn in K.
    + injection K as <-. now exists es.
    + apply V, K.
Qed.

(** X4: [mixHistories] throws on an empty list, and when some trajectory is
    shorter than the first one. *)
Theorem mixHistories_throws (hs : list (History (N := N) (T := T) * N)) :
  hs = [] \/
  (exists first w rest h w',
     hs = (first, w) :: rest /\ In (h, w') hs /\
     (length h < length first)%nat) ->
  mixHistories hs = None.
Proof.
  intros [-> | (first & w & rest & h & w' & -> & I & L)]; [reflexivity|].
  unfold mixHistories. apply mixHistories_loop_none.
  exists (length h). split; [apply in_seq; lia|].
  apply at_index_none. exists (h, w'). split; [exact I | cbn; lia].
Qed.

(** X5: When every trajectory is at least as long as the first, [mixHistories]
    returns a trajectory of the length of the first one; its element at
    index [i] mixes the elements the trajectories have at [i], with the
    trajectories' weights.  What a longer trajectory holds beyond that
    length is dropped. *)
Theorem mixHistories_length (first : History (N := N) (T := T)) (w : N)
  (rest : list (History * N)) :
  (forall h w', In (h, w') rest -> (length first <= length h)%nat) ->
  exists mixed,
    mixHistories ((first, w) :: rest) = Some mixed /\
    length mixed = length first /\
    forall i, (i < length first)%nat ->
      exists es,
        map snd es = w :: map snd rest /\
        map (fun ew => Some (fst ew)) es =
          map (fun hw => nth_error (fst hw) i) ((first, w) :: rest) /\
        nth_error mixed i = Some (mix es).
Proof.
  intro A. unfold mixHistories.
  assert (B : forall i, (i < length first)%nat ->
    forall hw, In hw ((first, w) :: rest) -> (i < length (fst hw))%nat).
  { intros i I [h w'] [Q | Q]; cbn [fst].
    - injection Q as <- _. lia.
    - specialize (A h w' Q). lia. }
  destruct (@mixHistories_loop_some ((first, w) :: rest)
              (seq 0 (length first)) []) as (mixed & E & L & V).
  - intros i I. apply in_seq in I.
    destruct (@at_index_some i ((first, w) :: rest)) as (es & Q & _).
    + apply B. lia.
    + now exists es.
  - exists mixed. rewrite E. rewrite length_seq in L.
    repeat split; [exact L|].
    intros i I.
    destruct (V i i) as (es & Q & M).
    { rewrite nth_error_seq.
      destruct (Nat.ltb i (length first)) eqn:C; [reflexivity|].
      apply Nat.ltb_ge in C. lia. }
    destruct (@at_index_some i ((first, w) :: rest) (B i I))
      as (es' & Q' & W & X).
    rewrite Q in Q'. injection Q' as <-.
    exists es. now repeat split.
Qed.

(** X6: [extrapolateAndMix] throws on an empty ensemble; on any other it
    returns [nSteps] distributions, the one at index [i] mixing what the
    models reach after [i] steps. *)
Theorem extrapolateAndMix_total (start : T)
  (models : JSMap (TransitionFunction (N := N) (T := T)) N) (n : nat) :
  (models = [] -> extrapolateAndMix start models n = None) /\
  (models <> [] ->
   exists history,
     extrapolateAndMix start models n = Some history /\
     length history = n /\
     forall i, (i < n)%nat ->
       nth_error history i = Some (mix (reached start models i))).
Proof.
  split; [intros ->; reflexivity|].
  intro NE. rewrite extrapolateAndMix_spec by exact NE.
  eexists. split; [reflexivity|].
  split; [now rewrite length_map, length_seq|].
  intros i L. rewrite nth_error_map, nth_error_seq.
  destruct (Nat.ltb i n) eqn:B; [reflexivity|].
  apply Nat.ltb_ge in B. lia.
Qed.

(** X7: The forecast does not depend on the horizon either. *)
Theorem extrapolateAndMix_prefix (start : T)
  (models : JSMap (TransitionFunction (N := N) (T := T)) N) (n m : nat)
  (history : History) :
  extrapolateAndMix start models (n + m) = Some history ->
  extrapolateAndMix start models n = Some (firstn n history).
Proof.
  destruct models as [|mw models]; [discriminate|].
  rewrite !extrapolateAndMix_spec by discriminate.
  intro E. injection E as <-.
  now rewrite firstn_map, firstn_seq_add.
Qed.

End Horizon.

(** ** Laws of the engine, in exact arithmetic *)

Section ExactLaws.
Context {T : Type} {key : Key T}.
Local Open Scope R_scope.

(** X8: One step from the point mass on [s] is the distribution [f s]. *)
Theorem step_point_mass (s : T) (f : TransitionFunction (N := R) (T := T)) :
  NoDup (keys (f s)) ->
  step [(s, 1)] f = f s.
Proof.
  intro D. unfold step. cbn [fold_left].
  rewrite (fold_accumulate_fresh (fun x => mul 1 x)) by exact D.
  cbn [app]. rewrite <- (map_id (f s)) at 2.
  apply map_ext. intros [k v]. cbn [fst snd]. exact_arith. f_equal. lra.
Qed.

(** X9: The law of total probability for one step: the mass [step d f] gives
    to [k] is the sum, over the outcomes [o] of [d], of the mass of [o]
    times the mass [f o] gives to [k]. *)
Theorem step_mass (k : T) (d : Ensemble (N := R) (T := T))
  (f : TransitionFunction) :
  (forall o, In o (keys d) -> NoDup (keys (f o))) ->
  get_or_zero k (step d f) =
  sum (map (fun op => snd op * get_or_zero k (f (fst op))) d).
Proof.
  intro D. rewrite mass_step. f_equal. apply map_ext_in.
  intros [o q] I. cbn [fst snd]. rewrite amount_map; [reflexivity|].
  apply D. apply (in_map fst) in I. exact I.
Qed.

(** X10: Mixing is linear: the mass the mixture gives to [k] is the mean of the
    masses the distributions give to it, weighted by the pair weights
    over their total. *)
Theorem mix_mass (k : T) (es : list (Ensemble (N := R) (T := T) * R)) :
  (forall e w, In (e, w) es -> NoDup (keys e)) ->
  get_or_zero k (mix es) =
  sum (map (fun ew => get_or_zero k (fst ew) * snd ew / mix_totalWeight es)
         es).
Proof.
  intro D. rewrite mass_mix. f_equal. apply map_ext_in.
  intros [e w] I. cbn [fst snd]. rewrite amount_map; [reflexivity|].
  now apply (D e w).
Qed.

Lemma sum_map_scaled {A : Type} (c : R) (g : A -> R) (l : list A) :
  sum (map (fun a => c * g a) l) = c * sum (map g l).
Proof.
  induction l as [|a l IH].
  - unfold sum. simpl. lra.
  - cbn [map]. rewrite !sum_cons_R, IH. lra.
Qed.

(** X11: Only the proportions of the weights matter: multiplying every weight
    by the same nonzero factor leaves the mixture as it is. *)
Theorem mix_scale (c : R) (es : list (Ensemble (N := R) (T := T) * R)) :
  c <> 0 -> mix_totalWeight es <> 0 ->
  mix (map (fun ew => (fst ew, c * snd ew)) es) = mix es.
Proof.
  intros C W. unfold mix.
  assert (E : mix_totalWeight (map (fun ew => (fst ew, c * snd ew)) es) =
              c * mix_totalWeight es).
  { rewrite !mix_totalWeight_R, map_map. cbn [snd].
    apply (sum_map_scaled c snd). }
  rewrite E. clear E. generalize (@nil (T * R)). revert W.
  generalize (mix_totalWeight es). intros W NZ.
  induction es as [|[e w] es IH]; intro result; [reflexivity|].
  cbn [map fold_left fst snd]. rewrite IH. f_equal.
  clear IH. revert result.
  induction e as [|[k v] e IH]; intro result; [reflexivity|].
  cbn [fold_left]. rewrite IH. do 2 f_equal.
  exact_arith. field. auto.
Qed.

End ExactLaws.

Section Compose.
Context {T : Type} {key : Key T}.
Local Open Scope R_scope.

(** The sum of [g] over a distribution, each outcome counted with its
    mass. *)
Definition weighted (g : T -> R) (m : JSMap T R) : R :=
  sum (map (fun op => snd op * g (fst op)) m).

Lemma weighted_accumulate (g : T -> R) (m : Ensemble (N := R) (T := T))
  (k : T) (x : R) :
  weighted g (accumulate m k x) = weighted g m + x * g k.
Proof.
  unfold weighted, accumulate, get_or_zero.
  induction m as [|[k' v'] m IH]; cbn [Map_get Map_set map fst snd].
  - rewrite sum_cons_R. exact_arith. unfold sum. simpl. lra.
  - destruct (key_eqb k k') eqn:E; cbn [map fst snd]; rewrite !sum_cons_R.
    + apply key_eqb_spec in E. subst k'. exact_arith. lra.
    + rewrite IH. lra.
Qed.

Lemma weighted_spread (g : T -> R) (a : R) (h : R -> R)
  (l result : Ensemble (N := R) (T := T)) :
  (forall x, h x = a * x) ->
  weighted g
    (fold_left
       (fun result vp =>
          let '(value, probability) := vp in
          accumulate result value (h probability))
       l result) =
  weighted g result + a * weighted g l.
Proof.
  intro H. revert result.
  induction l as [|[k v] l IH]; intro result; cbn [fold_left].
  - unfold weighted at 3. unfold sum. simpl. lra.
  - rewrite IH, weighted_accumulate, H.
    unfold weighted at 4. cbn [map fst snd]. rewrite sum_cons_R.
    fold (weighted g l). lra.
Qed.

Lemma weighted_mix (g : T -> R) (es : list (Ensemble (N := R) (T := T) * R)) :
  weighted g (mix es) =
  sum (map (fun ew => weighted g (fst ew) * snd ew / mix_totalWeight es) es).
Proof.
  unfold mix. generalize (mix_totalWeight es). intro W.
  assert (G : forall result : Ensemble (N := R) (T := T),
    weighted g
      (fold_left
         (fun result ew =>
            let '(ensemble, weight) := ew in
            fold_left
              (fun result vp =>
                 let '(value, probability) := vp in
                 accumulate result value (div (mul probability weight) W))
              ensemble result)
         es result) =
    weighted g result +
    sum (map (fun ew => weighted g (fst ew) * snd ew / W) es)).
  { induction es as [|[e w] es IH]; intro result; cbn [fold_left map].
    - unfold sum. simpl. lra.
    - rewrite IH, sum_cons_R.
      rewrite (@weighted_spread g (w / W) (fun x => div (mul x w) W))
        by (intro x; exact_arith; unfold Rdiv; lra).
      cbn [fst snd]. unfold Rdiv. lra. }
  rewrite G. unfold weighted at 1. unfold sum at 1. simpl. lra.
Qed.

(** X12: Stepping a mixture gives every outcome the mass that mixing the
    stepped distributions gives it: with one transition function, it does
    not matter whether the models are mixed before the step or after. *)
Theorem step_mix_commute (k : T) (f : TransitionFunction)
  (es : list (Ensemble (N := R) (T := T) * R)) :
  get_or_zero k (step (mix es) f) =
  get_or_zero k (mix (map (fun ew => (step (fst ew) f, snd ew)) es)).
Proof.
  rewrite mass_step, mass_mix.
  change (sum (map (fun cp => snd cp * amount k (f (fst cp))) (mix es)))
    with (weighted (fun o => amount k (f o)) (mix es)).
  rewrite weighted_mix, map_map.
  assert (W : mix_totalWeight
                (map (fun ew => (step (fst ew) f, snd ew)) es) =
              mix_totalWeight es).
  { rewrite !mix_totalWeight_R, map_map. reflexivity. }
  rewrite W. f_equal. apply map_ext. intros [e w]. cbn [fst snd].
  rewrite amount_map by apply NoDup_step. rewrite mass_step. reflexivity.
Qed.

Lemma NoDup_steps (f : TransitionFunction (N := R) (T := T)) (s : T)
  (i : nat) :
  NoDup (keys (steps f i [(s, 1)])).
Proof.
  destruct i as [|i].
  - repeat constructor. intros [].
  - unfold steps. cbn [Nat.iter nat_rect]. apply NoDup_step.
Qed.

(** X13: An ensemble of one model forecasts what the model does: with a
    nonzero weight, [extrapolateAndMix] returns the trajectory of
    [extrapolate]. *)
Theorem extrapolateAndMix_single (start : T)
  (f : TransitionFunction (N := R) (T := T)) (w : R) (n : nat) :
  w <> 0 ->
  extrapolateAndMix start [(f, w)] n = Some (extrapolate start f n).
Proof.
  intro W. rewrite extrapolateAndMix_spec by discriminate.
  rewrite extrapolate_spec. f_equal. apply map_ext. intro i.
  unfold reached. cbn [map fst snd].
  rewrite mix_singleton_entries by apply NoDup_steps.
  rewrite <- (map_id (steps f i [(start, 1)])) at 2.
  apply map_ext. intros [k v]. cbn [fst snd]. exact_arith.
  f_equal. field. lra.
Qed.

Lemma total_step_kernel (f : TransitionFunction (N := R) (T := T))
  (d : Ensemble) :
  (forall o, total (f o) = 1) -> total (step d f) = total d.
Proof.
  intro F. rewrite total_step. unfold total at 2. unfold values.
  f_equal. apply map_ext. intros [o q]. cbn [fst snd]. rewrite F. lra.
Qed.

Lemma total_steps (f : TransitionFunction (N := R) (T := T)) (s : T)
  (i : nat) :
  (forall o, total (f o) = 1) ->
  total (steps f i [(s, 1)]) = 1.
Proof.
  intro F. induction i as [|i IH].
  - unfold total, sum. simpl. lra.
  - unfold steps in *. cbn [Nat.iter nat_rect].
    now rewrite total_step_kernel.
Qed.

Lemma forecast_total (start : T)
  (models : JSMap (TransitionFunction (N := R) (T := T)) R) (n i : nat)
  (history : History) (d : Ensemble) :
  (forall f w o, In (f, w) models -> total (f o) = 1) ->
  total models <> 0 ->
  extrapolateAndMix start models n = Some history ->
  nth_error history i = Some d ->
  total d = 1.
Proof.
  intros F W E D.
  assert (NE : models <> []) by (intros ->; discriminate E).
  rewrite extrapolateAndMix_spec in E by exact NE.
  injection E as <-.
  rewrite nth_error_map in D.
  destruct (nth_error (seq 0 n) i) as [j|]; [|discriminate].
  injection D as <-.
  assert (TW : mix_totalWeight (reached start models j) = total models).
  { rewrite mix_totalWeight_R. unfold reached. now rewrite map_map. }
  rewrite total_mix, TW.
  rewrite (map_ext_in _ (fun ew => snd ew / total models)).
  - rewrite <- (map_map snd (fun x => x / total models)), sum_scaled.
    unfold reached. rewrite map_map. cbn [snd].
    change (sum (map (fun x => snd x) models)) with (total models).
    now field.
  - intros [e w] I. cbn [fst snd]. unfold reached in I.
    apply in_map_iff in I. destruct I as ([f w'] & Q & I).
    injection Q as <- <-. cbn [fst].
    rewrite total_steps by (intro o; apply (F f w' o I)). lra.
Qed.

(** X14: Mass is conserved all along the forecast: when every model of the
    ensemble returns distributions of mass 1 and the weights have a
    nonzero total, every distribution of the trajectory has mass 1. *)
Theorem extrapolateAndMix_conserves_mass (start : T)
  (models : JSMap (TransitionFunction (N := R) (T := T)) R) (n i : nat)
  (history : History) (d : Ensemble) :
  (forall f w o, In (f, w) models -> total (f o) = 1) ->
  total models <> 0 ->
  extrapolateAndMix start models n = Some history ->
  nth_error history i = Some d ->
  total d = 1.
Proof. apply forecast_total. Qed.

End Compose.

(** ** Normalisation and odds, in exact arithmetic *)

Section NormalizeLaws.
Context {K : Type}.
Local Open Scope R_scope.

(** X15: [normalize] keeps the keys and their order; when the values have a
    nonzero sum, the result sums to 1 and normalising it again changes
    nothing. *)
Theorem normalize_laws (m : JSMap K R) :
  total m <> 0 ->
  keys (normalize m) = keys m /\
  total (normalize m) = 1 /\
  normalize (normalize m) = normalize m.
Proof.
  intro P.
  assert (Q : total (normalize m) = 1) by now apply total_normalize.
  split; [|split; [exact Q|]].
  - unfold normalize, keys. rewrite map_map. reflexivity.
  - unfold normalize at 1. fold (total (normalize m)). rewrite Q.
    rewrite <- (map_id (normalize m)) at 2.
    apply map_ext. intros [k v]. cbn [fst snd]. exact_arith.
    f_equal. lra.
Qed.

End NormalizeLaws.

Section OddsLaws.
Local Open Scope R_scope.

(** X16: The shares [pFromOdds] gives to the fields of an odds record add up
    to 1, when the odds do not sum to 0. *)
Theorem pFromOdds_partition :
  (forall o : AGIOdds R,
     agi_heaven o + agi_dead o + agi_reset o <> 0 ->
     pFromOdds o (@agi_heaven R) + pFromOdds o (@agi_dead R) +
     pFromOdds o (@agi_reset R) = 1) /\
  (forall o : HazardOdds R,
     hz_dead o + hz_reset o <> 0 ->
     pFromOdds o (@hz_dead R) + pFromOdds o (@hz_reset R) = 1).
Proof.
  split; intros o P; unfold pFromOdds, sum;
    cbn [Object_values AGIOdds_values HazardOdds_values fold_left];
    exact_arith; field; lra.
Qed.

End OddsLaws.

(** ** The domain model, in exact arithmetic *)

Section DomainLaws.
Local Open Scope R_scope.

(** The four entries for a year add up to 1 as expressions: the last
    one is 1 less the three before it. *)
Lemma year_entries_total (agi : SimpleAGIModel (N := R))
  (nukes : SimpleNukeModel) (plague : SimplePlagueModel) (w : World) :
  total (simpleTransitionFunction agi nukes plague w) = 1.
Proof.
  destruct w as [y| | |].
  - rewrite simpleTransitionFunction_year. unfold pNext_of, total, sum.
    cbn [values map snd fold_left]. exact_arith. lra.
  - unfold total, sum. simpl. lra.
  - unfold total, sum. simpl. lra.
  - unfold total, sum. simpl. lra.
Qed.

(** X17: Every combined transition function is a kernel of mass 1: the
    single entry of a sentinel is 1, and the four entries for a year add
    up to 1 when none of the odds records of that year sums to 0 (the
    divisions of [pFromOdds] are then defined). *)
Theorem simpleTransitionFunction_total (agi : SimpleAGIModel (N := R))
  (nukes : SimpleNukeModel) (plague : SimplePlagueModel) (w : World) :
  (forall y, w = year y ->
     agi_heaven (odds (agi y)) + agi_dead (odds (agi y)) +
       agi_reset (odds (agi y)) <> 0 /\
     hz_dead (odds (nukes y)) + hz_reset (odds (nukes y)) <> 0 /\
     hz_dead (odds (plague y)) + hz_reset (odds (plague y)) <> 0) ->
  total (simpleTransitionFunction agi nukes plague w) = 1.
Proof.
  intro D. destruct w as [y| | |]; [|unfold total, sum; simpl; lra ..].
  destruct (D y eq_refl) as (A & B & C).
  rewrite simpleTransitionFunction_year. unfold total, sum.
  cbn [values map snd fold_left].
  unfold pNext_of, pHeaven_of, pDead_of, pReset_of, pFromOdds, sum.
  cbn [Object_values AGIOdds_values HazardOdds_values fold_left].
  exact_arith. field. repeat split; lra.
Qed.

(** X18: What is left for the next year is 1 less the three event
    probabilities, when no odds record sums to 0.  Nothing keeps it from
    being negative. *)
Theorem simpleTransitionFunction_next (agi : SimpleAGIModel (N := R))
  (nukes : SimpleNukeModel) (plague : SimplePlagueModel) (y : Year) :
  agi_heaven (odds (agi y)) + agi_dead (odds (agi y)) +
    agi_reset (odds (agi y)) <> 0 ->
  hz_dead (odds (nukes y)) + hz_reset (odds (nukes y)) <> 0 ->
  hz_dead (odds (plague y)) + hz_reset (odds (plague y)) <> 0 ->
  Map_get (year (y + 1)) (simpleTransitionFunction agi nukes plague (year y))
  = Some (1 - p (agi y) - p (nukes y) - p (plague y)).
Proof.
  intros A B C. rewrite simpleTransitionFunction_year.
  cbn [Map_get key_eqb World_key World_eqb]. rewrite Z.eqb_refl. f_equal.
  unfold pNext_of, pHeaven_of, pDead_of, pReset_of, pFromOdds, sum.
  cbn [Object_values AGIOdds_values HazardOdds_values fold_left].
  exact_arith. field. repeat split; lra.
Qed.

Lemma capped_next (agi : SimpleAGIModel (N := R))
  (plague : SimplePlagueModel) (y : Year) :
  p (agi y) = 1 ->
  agi_heaven (odds (agi y)) + agi_dead (odds (agi y)) +
    agi_reset (odds (agi y)) = 1 ->
  plague = plagueModel \/ plague = plagueNever ->
  pNext_of agi nukesModel plague y <= - / 100.
Proof.
  intros P S C.
  unfold pNext_of, pHeaven_of, pDead_of, pReset_of, pFromOdds, sum.
  cbn [Object_values AGIOdds_values HazardOdds_values fold_left].
  exact_arith. rewrite P.
  replace (0 + agi_heaven (odds (agi y)) + agi_dead (odds (agi y)) +
           agi_reset (odds (agi y))) with 1 by lra.
  destruct C as [-> | ->];
    cbn [p odds nukesModel plagueModel plagueNever hz_dead hz_reset];
    unfold dec; exact_arith; simpl; lra.
Qed.

(** X19: From 2100 on, the three AGI sub-models whose hazard doubles every
    decade are at the cap 1; with the 1% of nukes on top, the combined
    transition function then gives the next year a negative mass. *)
Theorem simpleTransitionFunction_negative (work : bool)
  (agi : SimpleAGIModel (N := R)) (plague : SimplePlagueModel) (y : Year) :
  (2100 <= y)%Z ->
  agi = agiDoomed (accelerationFromWorking work) \/
  agi = agiChristiano (accelerationFromWorking work) \/
  agi = agiHard (accelerationFromWorking work) ->
  plague = plagueModel \/ plague = plagueNever ->
  exists v,
    Map_get (year (y + 1))
      (simpleTransitionFunction agi nukesModel plague (year y)) = Some v /\
    v < 0.
Proof.
  intros L A C. exists (pNext_of agi nukesModel plague y).
  rewrite simpleTransitionFunction_year.
  cbn [Map_get key_eqb World_key World_eqb]. rewrite Z.eqb_refl.
  split; [reflexivity|].
  pose proof (acceleration_ge_1 work) as G.
  enough (pNext_of agi nukesModel plague y <= - / 100) by lra.
  apply capped_next; [| |exact C].
  - destruct A as [-> | [-> | ->]];
      cbn [p agiDoomed agiChristiano agiHard];
      apply hazard_decade_capped; trivial; unfold dec; simpl; lra.
  - destruct A as [-> | [-> | ->]];
      cbn [odds agiDoomed agiChristiano agiHard agi_heaven agi_dead
           agi_reset];
      exact_arith; lra.
Qed.

(** X20: The forecast of the domain model conserves mass: from any start, with
    the acceleration factor or without it, every distribution of the
    trajectory sums to 1. *)
Theorem domain_forecast_total (work : bool) (start : World) (n i : nat)
  (history : History) (d : Ensemble) :
  extrapolateAndMix start (buildModels (N := R) work) n = Some history ->
  nth_error history i = Some d ->
  total d = 1.
Proof.
  apply forecast_total.
  - intros f w o I. rewrite buildModels_entries in I. cbv zeta in I.
    repeat (destruct I as [I | I];
            [injection I as <- _; apply year_entries_total|]).
    destruct I.
  - rewrite buildModels_entries. unfold total, sum. simpl. lra.
Qed.

End DomainLaws.

Section Curves.
Local Open Scope R_scope.

(** X21: [stdSigmoid] is the logistic curve: it is 1/2 at 0, reflecting the
    argument complements the value, and it grows strictly, staying
    between 0 and 1. *)
Theorem stdSigmoid_logistic :
  stdSigmoid (N := R) 0 = 1 / 2 /\
  (forall x : R, stdSigmoid (- x) = 1 - stdSigmoid x) /\
  (forall x y : R, x < y -> stdSigmoid x < stdSigmoid y) /\
  (forall x : R, 0 < stdSigmoid x < 1).
Proof.
  split; [|split; [|split]].
  - unfold stdSigmoid. cbn [Math_exp Rmath]. exact_arith.
    rewrite Ropp_0, exp_0. lra.
  - intro x. unfold stdSigmoid. cbn [Math_exp Rmath]. exact_arith.
    rewrite Ropp_involutive, (exp_Ropp x).
    pose proof (exp_pos x) as E. field. lra.
  - intros x y L. unfold stdSigmoid. cbn [Math_exp Rmath]. exact_arith.
    pose proof (exp_pos (- x)) as Ex. pose proof (exp_pos (- y)) as Ey.
    assert (I : exp (- y) < exp (- x)) by (apply exp_increasing; lra).
    unfold Rdiv. rewrite !Rmult_1_l.
    apply Rinv_lt_contravar; nra.
  - apply stdSigmoid_bounds.
Qed.

Lemma since_succ (y : Year) (a b : Z) :
  (b <> 0)%Z -> since (N := R) (y + b) a b = since y a b + 1.
Proof.
  intro B. unfold since. exact_arith. rewrite plus_IZR.
  assert (IZR b <> 0) by (now apply not_0_IZR). now field.
Qed.

Lemma pow2_succ (x : R) :
  Math_pow (of_Z 2) (x + 1) = 2 * Math_pow (of_Z 2) x.
Proof.
  cbn [Math_pow Rmath]. exact_arith.
  rewrite Rpower_plus, Rpower_1 by lra. lra.
Qed.

(** X22: The annual hazard of an AGI sub-model, for a positive acceleration,
    rate and doubling period: it lies in (0, 1], it never decreases from a
    year to the next, and as long as the cap is not reached it doubles
    over one doubling period. *)
Theorem hazard_shape (acc rate : R) (doubling : Z) (y : Year) :
  0 < acc -> 0 < rate -> (0 < doubling)%Z ->
  0 < hazard acc rate doubling y <= 1 /\
  hazard acc rate doubling y <= hazard acc rate doubling (y + 1) /\
  (hazard acc rate doubling (y + doubling) < 1 ->
   hazard acc rate doubling (y + doubling) = 2 * hazard acc rate doubling y).
Proof.
  intros A Q D.
  assert (X : forall x, 0 < acc * rate * Math_pow (of_Z 2) x).
  { intro x. pose proof (pow2_pos x). exact_arith.
    apply Rmult_lt_0_compat; [nra | assumption]. }
  split; [|split].
  - unfold hazard. cbn [Math_min Rmath]. exact_arith. split.
    + apply Rmin_glb_lt; [lra | apply X].
    + apply Rmin_l.
  - unfold hazard. cbn [Math_min Rmath]. exact_arith.
    apply Rle_min_compat_l.
    assert (S : since (N := R) y 2022 doubling <=
                since (y + 1) 2022 doubling) by (apply since_le; lia).
    pose proof (pow2_mono S) as M. exact_arith.
    apply Rmult_le_compat_l; [nra | exact M].
  - unfold hazard. cbn [Math_min Rmath]. exact_arith.
    rewrite since_succ by lia. rewrite pow2_succ. exact_arith.
    pose proof (X (since y 2022 doubling)) as P. exact_arith.
    cbn [Math_pow Rmath] in *.
    set (h := acc * rate * Rpower 2 (since y 2022 doubling)) in *.
    replace (acc * rate * (2 * Rpower 2 (since y 2022 doubling)))
      with (2 * h) by (subst h; lra).
    intro C.
    assert (H2 : 2 * h < 1).
    { destruct (Rle_dec 1 (2 * h)) as [G | G]; [|lra].
      rewrite Rmin_left in C by exact G. lra. }
    rewrite !Rmin_right by lra. reflexivity.
Qed.

End Curves.

(** ** Degenerate inputs at binary64 *)

Section Binary64.
Context {T : Type} {key : Key T}.

Lemma float_add_nan (x : float) : PrimFloat.add x nan = nan.
Proof.
  apply Prim2SF_inj. rewrite add_spec.
  change (Prim2SF nan) with S754_nan.
  now destruct (Prim2SF x).
Qed.

(** [(p * 0) / 0] is [NaN] for every double [p]. *)
Lemma float_zero_share (p : float) :
  PrimFloat.div (PrimFloat.mul p 0) 0 = nan.
Proof.
  apply Prim2SF_inj. rewrite div_spec, mul_spec.
  change (Prim2SF 0) with (S754_zero false).
  change (Prim2SF nan) with S754_nan.
  now destruct (Prim2SF p) as [s|s| |s m e]; try destruct s.
Qed.

Lemma all_nan_accumulate (m : Ensemble (N := float) (T := T)) (k : T) :
  Forall (fun kv => snd kv = nan) m ->
  Forall (fun kv => snd kv = nan) (accumulate m k nan).
Proof.
  unfold accumulate. generalize (get_or_zero k m). intros c A.
  cbn [add Fnum]. rewrite float_add_nan.
  induction m as [|[k' v'] m IH]; cbn [Map_set].
  - now repeat constructor.
  - inversion A as [|? ? V A']; subst.
    destruct (key_eqb k k'); constructor; auto.
Qed.

Lemma total_zero_weights (es : list (Ensemble (N := float) (T := T) * float)) :
  Forall (fun ew => snd ew = 0%float) es ->
  mix_totalWeight es = 0%float.
Proof.
  unfold mix_totalWeight. cbn [zero Fnum].
  induction 1 as [|[e w] es E _ IH]; [reflexivity|].
  cbn [fold_left snd] in *. subst w. exact IH.
Qed.

(** X23: With every weight 0, [mix] divides 0 by 0: it does not throw, and
    every entry of the distribution it returns is [NaN]. *)
Theorem mix_zero_weights (es : list (Ensemble (N := float) (T := T) * float)) :
  Forall (fun ew => snd ew = 0%float) es ->
  Forall (fun kv => snd kv = nan) (mix es).
Proof.
  intro Z. unfold mix. rewrite (total_zero_weights Z).
  assert (G : forall result : Ensemble (N := float) (T := T),
    Forall (fun kv => snd kv = nan) result ->
    Forall (fun kv => snd kv = nan)
      (fold_left
         (fun result ew =>
            let '(ensemble, weight) := ew in
            fold_left
              (fun result vp =>
                 let '(value, probability) := vp in
                 accumulate result value
                   (div (mul probability weight) 0%float))
              ensemble result)
         es result)).
  { induction Z as [|[e w] es E _ IH]; intros result A; [exact A|].
    cbn [fold_left]. apply IH. cbn [snd] in E. subst w.
    clear IH. revert result A.
    induction e as [|[k v] e IHe]; intros result A; [exact A|].
    cbn [fold_left]. apply IHe.
    cbn [div mul Fnum]. rewrite float_zero_share.
    now apply all_nan_accumulate. }
  apply G. constructor.
Qed.

(** X24: [x || 0] takes [NaN] for 0: when a key holds [NaN], the next
    contribution [x] to it is stored as [0 + x], and the [NaN] is gone. *)
Theorem accumulate_forgets_nan (m : Ensemble (N := float) (T := T)) (k : T)
  (v x : float) :
  Map_get k m = Some v -> PrimFloat.is_nan v = true ->
  Map_get k (accumulate m k x) = Some (PrimFloat.add 0 x).
Proof.
  intros G V. unfold accumulate, get_or_zero. rewrite G.
  cbn [or_zero add Fnum]. unfold float_or_zero. rewrite V. cbn [orb].
  clear G. induction m as [|[k' v'] m IH]; cbn [Map_set Map_get].
  - now rewrite key_eqb_refl.
  - destruct (key_eqb k k') eqn:E; cbn [Map_get]; rewrite E;
      [reflexivity | exact IH].
Qed.

End Binary64.

Section Binary64Normalize.
Context {K : Type}.

Lemma sum_zeros (l : list float) :
  Forall (fun v => v = 0%float) l -> sum l = 0%float.
Proof.
  unfold sum. cbn [zero add Fnum].
  induction 1 as [|v l E _ IH]; [reflexivity|].
  cbn [fold_left]. subst v. exact IH.
Qed.

(** X25: [normalize] of values that are all 0 divides 0 by 0: every value of
    the result is [NaN], under the keys it was given. *)
Theorem normalize_zeros (m : JSMap K float) :
  Forall (fun kv => snd kv = 0%float) m ->
  normalize m = map (fun kv => (fst kv, nan)) m.
Proof.
  intro Z. unfold normalize. rewrite sum_zeros.
  - apply map_ext_in. intros [k v] I. cbn [fst snd].
    rewrite Forall_forall in Z. pose proof (Z (k, v) I) as E.
    cbn [snd] in E. subst v. reflexivity.
  - unfold values. rewrite Forall_map. exact Z.
Qed.

End Binary64Normalize.

(** * The driver, [src/App.tsx] *)

Section Driver.
Context {N : Type} {num : Number N} {T : Type} {key : Key T}.

(** The callback of [historyWork.map] that builds [delta]: every entry of
    the distribution has the mass of the same key in [historyNoWork[i]]
    taken off, an absent key counting for 0.  Reading a key of
    [historyNoWork[i]] throws when the index is past the end, which
    happens with the first entry. *)
Definition delta_at (ensemble : Ensemble (N := N) (T := T))
  (other : option Ensemble) : option Ensemble :=
  match ensemble, other with
  | [], _ => Some (Map_new [])
  | _, None => None
  | _, Some o =>
      Some (Map_new
              (map (fun kv => (fst kv, sub (snd kv) (get_or_zero (fst kv) o)))
                 ensemble))
  end.

(** [historyWork.map((ensemble, i) => ...)], from the index [i] on. *)
Fixpoint delta_from (i : nat) (historyWork historyNoWork : History)
  : option History :=
  match historyWork with
  | [] => Some []
  | ensemble :: rest =>
      match delta_at ensemble (nth_error historyNoWork i) with
      | Some d =>
          match delta_from (S i) rest historyNoWork with
          | Some ds => Some (d :: ds)
          | None => None
          end
      | None => None
      end
  end.

Definition delta (historyWork historyNoWork : History) : option History :=
  delta_from 0 historyWork historyNoWork.

End Driver.

(** The "normal" series of the plots: the mass a distribution has on
    years, [entries.filter(([w, _]) => typeof w === "number")
    .map(([_, p]) => p).reduce((a, b) => a + b, 0)]. *)
Definition is_year (w : World) : bool :=
  match w with
  | year _ => true
  | _ => false
  end.

Definition normal {N} {num : Number N}
  (ensemble : Ensemble (N := N) (T := World)) : N :=
  sum (map snd (filter (fun wp => is_year (fst wp)) ensemble)).

Section DriverFacts.
Context {N : Type} {num : Number N} {T : Type} {key : Key T}.

Lemma delta_at_map (e o : Ensemble (N := N) (T := T)) :
  NoDup (keys e) ->
  delta_at e (Some o) =
  Some (map (fun kv => (fst kv, sub (snd kv) (get_or_zero (fst kv) o))) e).
Proof.
  intro D. destruct e as [|kv e]; [reflexivity|].
  unfold delta_at. f_equal. apply Map_new_distinct.
  unfold keys in *. rewrite map_map. exact D.
Qed.

Lemma delta_from_spec (i : nat) (hw hn : History (N := N) (T := T)) :
  (i + length hw <= length hn)%nat ->
  Forall (fun e => NoDup (keys e)) hw ->
  exists ds,
    delta_from i hw hn = Some ds /\
    length ds = length hw /\
    forall j e o,
      nth_error hw j = Some e -> nth_error hn (i + j) = Some o ->
      nth_error ds j =
      Some (map (fun kv => (fst kv, sub (snd kv) (get_or_zero (fst kv) o)))
              e).
Proof.
  revert i. induction hw as [|e hw IH]; intros i L D.
  - exists []. repeat split. intros [|j] e o E; discriminate.
  - inversion D as [|? ? De D']; subst. cbn [length] in L.
    destruct (nth_error hn i) as [o|] eqn:Q;
      [|apply nth_error_None in Q; lia].
    destruct (IH (S i)) as (ds & E & Len & V); [lia | exact D'|].
    cbn [delta_from]. rewrite Q, (delta_at_map e o De), E.
    eexists. split; [reflexivity|]. split; [cbn; now rewrite Len|].
    intros [|j] e' o' A B; cbn in A.
    + injection A as <-. rewrite Nat.add_0_r, Q in B. injection B as <-.
      reflexivity.
    + cbn [nth_error]. apply (V j e' o' A).
      now rewrite Nat.add_succ_comm.
Qed.

(** X26: When [historyNoWork] is at least as long as [historyWork], [delta] has
    an element for every distribution of [historyWork]: the same keys in
    the same order, each with the mass of the same key in [historyNoWork]
    taken off.  An outcome that only [historyNoWork] has does not
    appear. *)
Theorem delta_entries (hw hn : History (N := N) (T := T)) :
  (length hw <= length hn)%nat ->
  Forall (fun e => NoDup (keys e)) hw ->
  exists ds,
    delta hw hn = Some ds /\
    length ds = length hw /\
    forall i e o,
      nth_error hw i = Some e -> nth_error hn i = Some o ->
      nth_error ds i =
        Some (map (fun kv =>
                     (fst kv, sub (snd kv) (get_or_zero (fst kv) o))) e).
Proof.
  intros L D. destruct (@delta_from_spec 0 hw hn) as (ds & E & Len & V);
    [lia | exact D|].
  exists ds. repeat split; trivial.
Qed.

(** X27: [delta] throws when [historyWork] has a distribution with an entry at
    an index where [historyNoWork] has none. *)
Theorem delta_throws (hw hn : History (N := N) (T := T)) (i : nat)
  (e : Ensemble) :
  nth_error hw i = Some e -> e <> [] -> (length hn <= i)%nat ->
  delta hw hn = None.
Proof.
  unfold delta. intros E NE L.
  replace i with (0 + i)%nat in L by lia. revert E L.
  generalize 0%nat. revert i.
  induction hw as [|e' hw IH]; intros i b E L.
  - destruct i; discriminate.
  - cbn [delta_from]. destruct i as [|i]; cbn in E.
    + injection E as ->. rewrite Nat.add_0_r in L.
      apply nth_error_None in L. rewrite L.
      destruct e; [contradiction | reflexivity].
    + rewrite (IH i (S b) E) by lia.
      now destruct (delta_at e' (nth_error hn b)).
Qed.

End DriverFacts.

Section DriverExact.
Local Open Scope R_scope.

Lemma get_own_mass {T : Type} {key : Key T} (e : Ensemble (N := R) (T := T))
  (k : T) (v : R) :
  NoDup (keys e) -> In (k, v) e -> get_or_zero k e = v.
Proof.
  intros D I. rewrite <- amount_map by exact D.
  induction e as [|[k' v'] e IH]; [destruct I|].
  inversion D as [|? ? F D']; subst. cbn [amount].
  destruct I as [E | I].
  - injection E as -> ->. rewrite key_eqb_refl.
    rewrite amount_fresh by exact F. lra.
  - rewrite key_eqb_neq.
    + rewrite IH by assumption. lra.
    + intros ->. apply F. apply (in_map fst) in I. exact I.
Qed.

(** X28: The delta of a forecast with itself is 0 at every outcome of every
    distribution. *)
Theorem delta_self {T : Type} {key : Key T}
  (h : History (N := R) (T := T)) :
  Forall (fun e => NoDup (keys e)) h ->
  delta h h = Some (map (map (fun kv => (fst kv, 0))) h).
Proof.
  intro D.
  destruct (@delta_from_spec _ _ _ _ 0 h h (le_n _) D)
    as (ds & E & Len & V).
  unfold delta. rewrite E. f_equal.
  apply nth_error_ext. intro i. rewrite nth_error_map.
  unfold History, Ensemble, JSMap in *.
  destruct (nth_error h i) as [e|] eqn:Q.
  - rewrite (V i e e Q Q). cbn [option_map]. f_equal.
    apply map_ext_in. intros [k v] I. cbn [fst snd]. exact_arith.
    rewrite (get_own_mass e k v); [f_equal; lra | | exact I].
    rewrite Forall_forall in D. apply D. eapply nth_error_In, Q.
  - cbn [option_map]. apply nth_error_None.
    apply nth_error_None in Q. lia.
Qed.

Lemma amount_split (e : Ensemble (N := R) (T := World)) :
  amount heaven e + amount dead e + amount reset e + normal e = total e.
Proof.
  unfold normal. induction e as [|[w v] e IH].
  - unfold total, sum. simpl. lra.
  - rewrite total_cons_R, <- IH. cbn [amount filter fst].
    destruct w; cbn [key_eqb World_key World_eqb is_year map snd];
      rewrite ?sum_cons_R; lra.
Qed.

(** X29: The three sentinels and the years share out the mass of a
    distribution: the "normal" series is the total less the masses on
    "heaven", "dead" and "reset", a missing sentinel counting for 0. *)
Theorem normal_mass (e : Ensemble (N := R) (T := World)) :
  NoDup (keys e) ->
  normal e =
  total e - get_or_zero heaven e - get_or_zero dead e - get_or_zero reset e.
Proof.
  intro D. rewrite <- !amount_map by exact D.
  pose proof (amount_split e). lra.
Qed.

End DriverExact.

(** * The further properties at concrete inputs *)

Lemma mixHistories_throws_witness :
  let hs : list (History (N := float) (T := World) * float) :=
    [([[(dead, 1%float)]; [(dead, 1%float)]], 1%float);
     ([[(dead, 1%float)]], 1%float)] in
  (hs = [] \/
   (exists first w rest h w',
      hs = (first, w) :: rest /\ In (h, w') hs /\
      (length h < length first)%nat)) /\
  mixHistories hs = None.
Proof.
  intro hs.
  assert (H : hs = [] \/
    (exists first w rest h w',
       hs = (first, w) :: rest /\ In (h, w') hs /\
       (length h < length first)%nat)).
  { right. exists [[(dead, 1%float)]; [(dead, 1%float)]], 1%float,
      [([[(dead, 1%float)]], 1%float)], [[(dead, 1%float)]], 1%float.
    split; [reflexivity|]. split; [right; now left | simpl; lia]. }
  split; [exact H|]. apply mixHistories_throws. exact H.
Defined.

Lemma mixHistories_length_witness :
  let first : History (N := float) (T := World) := [[(dead, 1%float)]] in
  let rest : list (History (N := float) (T := World) * float) :=
    [([[(dead, 1%float)]; [(heaven, 1%float)]], 1%float)] in
  (forall h w', In (h, w') rest -> (length first <= length h)%nat) /\
  exists mixed,
    mixHistories ((first, 1%float) :: rest) = Some mixed /\
    length mixed = length first.
Proof.
  intros first rest.
  assert (H : forall h w',
             In (h, w') rest -> (length first <= length h)%nat).
  { intros h w' [E | []]. injection E as <- _. simpl. lia. }
  split; [exact H|].
  destruct (mixHistories_length first 1%float rest H) as (mixed & E & L & _).
  now exists mixed.
Defined.

Lemma extrapolateAndMix_total_witness :
  let models : JSMap (TransitionFunction (N := float) (T := World)) float :=
    [(tenPercent, 1%float)] in
  models <> [] /\
  exists history,
    extrapolateAndMix (year 2022) models 3 = Some history /\
    length history = 3%nat.
Proof.
  intro models.
  assert (H : models <> []) by discriminate.
  split; [exact H|].
  destruct (proj2 (extrapolateAndMix_total (year 2022) models 3) H)
    as (history & E & L & _).
  now exists history.
Defined.

Lemma extrapolateAndMix_prefix_witness :
  let models : JSMap (TransitionFunction (N := float) (T := World)) float :=
    [(tenPercent, 1%float)] in
  let history :=
    map (fun i => mix (reached (year 2022) models i)) (seq 0 (1 + 2)) in
  extrapolateAndMix (year 2022) models (1 + 2) = Some history /\
  extrapolateAndMix (year 2022) models 1 = Some (firstn 1 history).
Proof.
  intros models history.
  assert (H : extrapolateAndMix (year 2022) models (1 + 2) = Some history)
    by (apply extrapolateAndMix_spec; discriminate).
  split; [exact H|]. apply (extrapolateAndMix_prefix _ _ 1 2 H).
Defined.

Lemma step_point_mass_witness :
  NoDup (keys (tenPercent (N := R) (year 2022))) /\
  step [(year 2022, 1%R)] tenPercent = tenPercent (year 2022).
Proof.
  assert (H : NoDup (keys (tenPercent (N := R) (year 2022)))).
  { repeat constructor; simpl; intuition discriminate. }
  split; [exact H|]. apply step_point_mass. exact H.
Defined.

Lemma step_mass_witness :
  let d : Ensemble (N := R) (T := World) := [(year 2022, 1%R)] in
  (forall o, In o (keys d) -> NoDup (keys (tenPercent (N := R) o))) /\
  get_or_zero dead (step d tenPercent) =
  sum (map (fun op => (snd op * get_or_zero dead (tenPercent (fst op)))%R) d).
Proof.
  intro d.
  assert (H : forall o, In o (keys d) -> NoDup (keys (tenPercent (N := R) o))).
  { intros o [<- | []]. repeat constructor; simpl; intuition discriminate. }
  split; [exact H|]. apply step_mass. exact H.
Defined.

Lemma mix_mass_witness :
  let es : list (Ensemble (N := R) (T := World) * R) :=
    [([(dead, 1%R)], 1%R); ([(heaven, 1%R)], 1%R)] in
  (forall e w, In (e, w) es -> NoDup (keys e)) /\
  get_or_zero dead (mix es) =
  sum (map (fun ew =>
              (get_or_zero dead (fst ew) * snd ew / mix_totalWeight es)%R)
         es).
Proof.
  intro es.
  assert (H : forall e w, In (e, w) es -> NoDup (keys e)).
  { intros e w [E | [E | []]]; injection E as <- _;
      repeat constructor; intros []. }
  split; [exact H|]. apply mix_mass. exact H.
Defined.

Lemma mix_scale_witness :
  let es : list (Ensemble (N := R) (T := World) * R) :=
    [([(dead, 1%R)], 1%R); ([(heaven, 1%R)], 3%R)] in
  (2 <> 0)%R /\ mix_totalWeight es <> 0%R /\
  mix (map (fun ew => (fst ew, (2 * snd ew)%R)) es) = mix es.
Proof.
  intro es.
  assert (C : (2 <> 0)%R) by lra.
  assert (W : mix_totalWeight es <> 0%R)
    by (unfold mix_totalWeight; simpl; lra).
  split; [exact C|]. split; [exact W|]. apply mix_scale; assumption.
Defined.

Lemma extrapolateAndMix_single_witness :
  (2 <> 0)%R /\
  extrapolateAndMix (N := R) (year 2022) [(tenPercent, 2%R)] 3 =
  Some (extrapolate (year 2022) tenPercent 3).
Proof.
  assert (W : (2 <> 0)%R) by lra.
  split; [exact W|]. apply extrapolateAndMix_single. exact W.
Defined.

Lemma tenPercent_total (o : World) : total (tenPercent (N := R) o) = 1%R.
Proof. destruct o; unfold total, sum, dec; simpl; lra. Qed.

Lemma extrapolateAndMix_conserves_mass_witness :
  let models : JSMap (TransitionFunction (N := R) (T := World)) R :=
    [(tenPercent, 1%R)] in
  let d := mix (reached (year 2022) models 0) in
  (forall f w o, In (f, w) models -> total (f o) = 1%R) /\
  total models <> 0%R /\
  extrapolateAndMix (year 2022) models 1 = Some [d] /\
  nth_error [d] 0 = Some d /\
  total d = 1%R.
Proof.
  intros models d.
  assert (F : forall f w o, In (f, w) models -> total (f o) = 1%R).
  { intros f w o [E | []]. injection E as <- _. apply tenPercent_total. }
  assert (W : total models <> 0%R) by (unfold total, sum; simpl; lra).
  assert (E : extrapolateAndMix (year 2022) models 1 = Some [d])
    by (rewrite extrapolateAndMix_spec by discriminate; reflexivity).
  assert (D : nth_error [d] 0 = Some d) by reflexivity.
  repeat (split; [assumption|]).
  exact (extrapolateAndMix_conserves_mass (year 2022) models 1 0 F W E D).
Defined.

Lemma normalize_laws_witness :
  let m : JSMap World R := [(dead, 1%R); (heaven, 3%R)] in
  total m <> 0%R /\ total (normalize m) = 1%R.
Proof.
  intro m.
  assert (P : total m <> 0%R) by (unfold total, sum; simpl; lra).
  split; [exact P|]. apply (normalize_laws m P).
Defined.

Lemma pFromOdds_partition_witness :
  let o : HazardOdds R := {| hz_dead := 1%R; hz_reset := 9%R |} in
  (hz_dead o + hz_reset o <> 0)%R /\
  (pFromOdds o (@hz_dead R) + pFromOdds o (@hz_reset R) = 1)%R.
Proof.
  intro o.
  assert (P : (hz_dead o + hz_reset o <> 0)%R) by (simpl; lra).
  split; [exact P|]. apply (proj2 pFromOdds_partition o P).
Defined.

Lemma simpleTransitionFunction_total_witness :
  let agi := agiWayHarder (N := R) 1%R in
  let nukes := nukesModel (N := R) in
  let plague := plagueNever (N := R) in
  let w := year 2022 in
  (forall y, w = year y ->
     agi_heaven (odds (agi y)) + agi_dead (odds (agi y)) +
       agi_reset (odds (agi y)) <> 0 /\
     hz_dead (odds (nukes y)) + hz_reset (odds (nukes y)) <> 0 /\
     hz_dead (odds (plague y)) + hz_reset (odds (plague y)) <> 0)%R /\
  total (simpleTransitionFunction agi nukes plague w) = 1%R.
Proof.
  intros agi nukes plague w.
  assert (D : forall y, w = year y ->
                (agi_heaven (odds (agi y)) + agi_dead (odds (agi y)) +
                   agi_reset (odds (agi y)) <> 0 /\
                 hz_dead (odds (nukes y)) + hz_reset (odds (nukes y)) <> 0 /\
                 hz_dead (odds (plague y)) + hz_reset (odds (plague y))
                 <> 0)%R).
  { intros y _. subst agi nukes plague.
    cbn [odds agiWayHarder nukesModel plagueNever agi_heaven agi_dead
         agi_reset hz_dead hz_reset].
    pose proof (stdSigmoid_bounds (since y 2080 20)) as B. exact_arith.
    set (s := stdSigmoid (since y 2080 20)) in *.
    split; [lra|]. split; [unfold dec; simpl; lra | lra]. }
  split; [exact D|].
  exact (@simpleTransitionFunction_total agi nukes plague w D).
Defined.

Lemma simpleTransitionFunction_next_witness :
  let agi := agiWayHarder (N := R) 1%R in
  let nukes := nukesModel (N := R) in
  let plague := plagueNever (N := R) in
  let y : Year := 2022%Z in
  (agi_heaven (odds (agi y)) + agi_dead (odds (agi y)) +
     agi_reset (odds (agi y)) <> 0)%R /\
  (hz_dead (odds (nukes y)) + hz_reset (odds (nukes y)) <> 0)%R /\
  (hz_dead (odds (plague y)) + hz_reset (odds (plague y)) <> 0)%R /\
  Map_get (year (y + 1)) (simpleTransitionFunction agi nukes plague (year y))
  = Some (1 - p (agi y) - p (nukes y) - p (plague y))%R.
Proof.
  intros agi nukes plague y.
  assert (A : (agi_heaven (odds (agi y)) + agi_dead (odds (agi y)) +
                 agi_reset (odds (agi y)) <> 0)%R).
  { subst agi. cbn [odds agiWayHarder agi_heaven agi_dead agi_reset].
    pose proof (stdSigmoid_bounds (since y 2080 20)). exact_arith. lra. }
  assert (B : (hz_dead (odds (nukes y)) + hz_reset (odds (nukes y)) <> 0)%R).
  { subst nukes. cbn [odds nukesModel hz_dead hz_reset].
    unfold dec. simpl. lra. }
  assert (C : (hz_dead (odds (plague y)) + hz_reset (odds (plague y))
               <> 0)%R).
  { subst plague. cbn [odds plagueNever hz_dead hz_reset].
    exact_arith. lra. }
  repeat (split; [assumption|]).
  exact (simpleTransitionFunction_next agi nukes plague y A B C).
Defined.

Lemma simpleTransitionFunction_negative_witness :
  let agi := agiDoomed (N := R) (accelerationFromWorking true) in
  (2100 <= 2100)%Z /\
  (agi = agiDoomed (accelerationFromWorking true) \/
   agi = agiChristiano (accelerationFromWorking true) \/
   agi = agiHard (accelerationFromWorking true)) /\
  (plagueModel (N := R) = plagueModel \/
   plagueModel (N := R) = plagueNever) /\
  exists v,
    Map_get (year (2100 + 1))
      (simpleTransitionFunction agi nukesModel plagueModel (year 2100)) =
    Some v /\ (v < 0)%R.
Proof.
  intro agi.
  assert (L : (2100 <= 2100)%Z) by lia.
  assert (A : agi = agiDoomed (accelerationFromWorking true) \/
              agi = agiChristiano (accelerationFromWorking true) \/
              agi = agiHard (accelerationFromWorking true)) by now left.
  assert (C : plagueModel (N := R) = plagueModel \/
              plagueModel (N := R) = plagueNever) by now left.
  repeat (split; [assumption|]).
  exact (@simpleTransitionFunction_negative true agi plagueModel 2100 L A C).
Defined.

Lemma domain_forecast_total_witness :
  let d := mix (reached (year 2022) (buildModels (N := R) true) 0) in
  extrapolateAndMix (year 2022) (buildModels (N := R) true) 1 = Some [d] /\
  nth_error [d] 0 = Some d /\
  total d = 1%R.
Proof.
  intro d.
  assert (E : extrapolateAndMix (year 2022) (buildModels (N := R) true) 1 =
              Some [d]).
  { rewrite extrapolateAndMix_spec
      by (rewrite buildModels_entries; discriminate).
    reflexivity. }
  assert (D : nth_error [d] 0 = Some d) by reflexivity.
  repeat (split; [assumption|]).
  exact (@domain_forecast_total true (year 2022) 1 0 [d] d E D).
Defined.

Lemma stdSigmoid_logistic_witness :
  (0 < 1)%R /\ (stdSigmoid (N := R) 0 < stdSigmoid 1)%R.
Proof.
  assert (L : (0 < 1)%R) by lra.
  split; [exact L|].
  exact (proj1 (proj2 (proj2 stdSigmoid_logistic)) 0%R 1%R L).
Defined.

Lemma hazard_shape_witness :
  (0 < 1)%R /\ (0 < / 20)%R /\ (0 < 10)%Z /\
  (0 < hazard (N := R) 1 (/ 20) 10 2022 <= 1)%R.
Proof.
  assert (A : (0 < 1)%R) by lra.
  assert (Q : (0 < / 20)%R) by lra.
  assert (D : (0 < 10)%Z) by lia.
  repeat (split; [assumption|]).
  exact (proj1 (@hazard_shape 1%R (/ 20)%R 10 2022 A Q D)).
Defined.

Lemma mix_zero_weights_witness :
  let es : list (Ensemble (N := float) (T := World) * float) :=
    [([(dead, 1%float)], 0%float)] in
  Forall (fun ew => snd ew = 0%float) es /\
  Forall (fun kv => snd kv = nan) (mix es).
Proof.
  intro es.
  assert (Z : Forall (fun ew => snd ew = 0%float) es)
    by (repeat constructor).
  split; [exact Z|]. apply mix_zero_weights. exact Z.
Defined.

Lemma accumulate_forgets_nan_witness :
  let m : Ensemble (N := float) (T := World) := [(dead, nan)] in
  Map_get dead m = Some nan /\ PrimFloat.is_nan nan = true /\
  Map_get dead (accumulate m dead 1%float) = Some (PrimFloat.add 0 1).
Proof.
  intro m.
  assert (G : Map_get dead m = Some nan) by reflexivity.
  assert (V : PrimFloat.is_nan nan = true) by reflexivity.
  repeat (split; [assumption|]).
  exact (@accumulate_forgets_nan _ _ m dead nan 1%float G V).
Defined.

Lemma normalize_zeros_witness :
  let m : JSMap World float := [(dead, 0%float); (heaven, 0%float)] in
  Forall (fun kv => snd kv = 0%float) m /\
  normalize m = map (fun kv => (fst kv, nan)) m.
Proof.
  intro m.
  assert (Z : Forall (fun kv => snd kv = 0%float) m)
    by (repeat constructor).
  split; [exact Z|]. apply normalize_zeros. exact Z.
Defined.

Lemma delta_entries_witness :
  let hw : History (N := float) (T := World) := [[(dead, 1%float)]] in
  let hn : History (N := float) (T := World) :=
    [[(heaven, 1%float)]; [(dead, 1%float)]] in
  (length hw <= length hn)%nat /\
  Forall (fun e => NoDup (keys e)) hw /\
  exists ds, delta hw hn = Some ds /\ length ds = length hw.
Proof.
  intros hw hn.
  assert (L : (length hw <= length hn)%nat) by (simpl; lia).
  assert (D : Forall (fun e => NoDup (keys e)) hw).
  { repeat constructor. intros []. }
  repeat (split; [assumption|]).
  destruct (delta_entries hn L D) as (ds & E & Len & _).
  now exists ds.
Defined.

Lemma delta_throws_witness :
  let e : Ensemble (N := float) (T := World) := [(dead, 1%float)] in
  let hn : History (N := float) (T := World) := [] in
  nth_error [e] 0 = Some e /\ e <> [] /\ (length hn <= 0)%nat /\
  delta [e] hn = None.
Proof.
  intros e hn.
  assert (E : nth_error [e] 0 = Some e) by reflexivity.
  assert (NE : e <> []) by discriminate.
  assert (L : (length hn <= 0)%nat) by (simpl; lia).
  repeat (split; [assumption|]).
  exact (@delta_throws _ _ _ _ [e] hn 0 e E NE L).
Defined.

Lemma delta_self_witness :
  let h : History (N := R) (T := World) := [[(dead, 1%R)]] in
  Forall (fun e => NoDup (keys e)) h /\
  delta h h = Some (map (map (fun kv => (fst kv, 0%R))) h).
Proof.
  intro h.
  assert (D : Forall (fun e => NoDup (keys e)) h).
  { repeat constructor. intros []. }
  split; [exact D|]. apply delta_self. exact D.
Defined.

Lemma normal_mass_witness :
  let e : Ensemble (N := R) (T := World) :=
    [(year 2023, (9 / 10)%R); (dead, (1 / 10)%R)] in
  NoDup (keys e) /\
  normal e =
  (total e - get_or_zero heaven e - get_or_zero dead e -
   get_or_zero reset e)%R.
Proof.
  intro e.
  assert (D : NoDup (keys e)).
  { repeat constructor; simpl; intuition discriminate. }
  split; [exact D|]. apply normal_mass. exact D.
Defined.
